(** * Land-cover tile compositing: osgEarth's LandCoverLayer.cpp

    A shallow embedding of the land-cover tile source (code translation
    tables, coverage binding, the per-pixel priority scan and the tile
    loops of [LandCoverTileSource::createImage]) and the properties of
    its specification.

    The C++ arithmetic is kept behind an interface, [Numerics], with two
    instances: [binary32], IEEE-754 single precision (double precision for
    the extents) built on the Standard Library's executable [SpecFloat]
    operations, and [exact], the rationals, in which the formulas mean
    what they say over the reals. The arithmetic of the program is
    [binary32]; [exact] is the idealisation, kept for the steps in which
    the arithmetic plays no part and for what the formulas aim at. *)

From Stdlib Require Import ZArith QArith Qround Lia Lqa Bool List.
From Stdlib Require Import Floats.SpecFloat.
From stdpp Require Import base option list strings.

(** ** Undefined behaviour and non-termination as results

    [Fault] is reached where the C++ program has no defined behaviour
    (an index outside a [std::vector], a null [PixelReader], a signed
    overflow); [Timeout] is the loop model running out of fuel. *)

Inductive res (A : Type) : Type :=
  | Val (a : A)
  | Fault
  | Timeout.
Arguments Val {A} a.
Arguments Fault {A}.
Arguments Timeout {A}.

#[global] Instance res_ret : MRet res := @Val.
#[global] Instance res_bind : MBind res := fun A B f m =>
  match m with
  | Val a => f a
  | Fault => Fault
  | Timeout => Timeout
  end.

(** [v[i]] on a [std::vector]: reading outside the vector is undefined. *)
Definition vec_get {A} (v : list A) (i : nat) : res A :=
  match v !! i with
  | Some a => Val a
  | None => Fault
  end.

(** [*p] on a pointer: the null pointer has no value. *)
Definition deref {A} (p : option A) : res A :=
  match p with
  | Some a => Val a
  | None => Fault
  end.

(** [v[i] = x] on a [std::vector]. *)
Definition vec_set {A} (v : list A) (i : nat) (x : A) : res (list A) :=
  if decide (i < length v)%nat then Val (<[i := x]> v) else Fault.

(** ** The arithmetic of the C++ code *)

Class Numerics : Type := {
  float : Type;                              (* C++ [float] *)
  double : Type;                             (* C++ [double] *)
  float_of_int : Z -> float;                 (* [(float)i], and the literals [0.0f], [1.0f], [255.0f] *)
  fadd : float -> float -> float;
  fmul : float -> float -> float;
  fdiv : float -> float -> float;
  flt : float -> float -> bool;              (* [<]  *)
  fle : float -> float -> bool;              (* [<=] *)
  feq : float -> float -> bool;              (* [==] *)
  ftrunc : float -> Z;                       (* the integer part, toward zero *)
  dsub : double -> double -> double;
  ddiv : double -> double -> double;
  float_of_double : double -> float          (* narrowing on assignment *)
}.

(** *** IEEE-754 single and double precision *)

Module Binary32.
Definition prec : Z := 24.
Definition emax : Z := 128.

Definition of_Z (z : Z) : spec_float := binary_normalize prec emax z 0 false.
Definition add : spec_float -> spec_float -> spec_float := SFadd prec emax.
Definition mul : spec_float -> spec_float -> spec_float := SFmul prec emax.
Definition div : spec_float -> spec_float -> spec_float := SFdiv prec emax.

(** The integer part of [m * 2^e], on the bits of the significand. *)
Definition magnitude (m : positive) (e : Z) : Z :=
  if (0 <=? e)%Z then Z.shiftl (Z.pos m) e else Z.shiftr (Z.pos m) (- e).

(** The integer part of a float, toward zero; an infinity or a NaN has
    none, and is given one outside the range of [int]. *)
Definition trunc (x : spec_float) : Z :=
  match x with
  | S754_zero _ => 0
  | S754_finite s m e => cond_Zopp s (magnitude m e)
  | _ => - 2 ^ 63
  end.
End Binary32.

Module Binary64.
Definition prec : Z := 53.
Definition emax : Z := 1024.

Definition of_Z (z : Z) : spec_float := binary_normalize prec emax z 0 false.
Definition sub : spec_float -> spec_float -> spec_float := SFsub prec emax.
Definition div : spec_float -> spec_float -> spec_float := SFdiv prec emax.

(** [double] to [float], rounding to nearest. *)
Definition to_float (x : spec_float) : spec_float :=
  match x with
  | S754_finite s m e =>
      binary_normalize Binary32.prec Binary32.emax (cond_Zopp s (Z.pos m)) e s
  | _ => x
  end.
End Binary64.

Definition binary32 : Numerics := {|
  float := spec_float;
  double := spec_float;
  float_of_int := Binary32.of_Z;
  fadd := Binary32.add;
  fmul := Binary32.mul;
  fdiv := Binary32.div;
  flt := SFltb;
  fle := SFleb;
  feq := SFeqb;
  ftrunc := Binary32.trunc;
  dsub := Binary64.sub;
  ddiv := Binary64.div;
  float_of_double := Binary64.to_float
|}.

(** *** Exact arithmetic *)

(** Truncation toward zero of a rational. *)
Definition Qtrunc (q : Q) : Z := Z.quot (Qnum q) (Z.pos (Qden q)).

Definition exact : Numerics := {|
  float := Q;
  double := Q;
  float_of_int := inject_Z;
  fadd := Qplus;
  fmul := Qmult;
  fdiv := Qdiv;
  flt := fun x y => negb (Qle_bool y x);
  fle := Qle_bool;
  feq := Qeq_bool;
  ftrunc := Qtrunc;
  dsub := Qminus;
  ddiv := Qdiv;
  float_of_double := fun x => x
|}.

(** ** Tile addresses and extents *)

Record TileKey : Type := mkTileKey {
  getLOD : nat;
  getTileX : N;
  getTileY : N
}.

(** Modelled from the spec: [TileKey::createParentKey] is declared outside
    LandCoverLayer.cpp. A tile address is a node of a quad-subdivided grid
    (level, column, row); the parent of a level-0 address is the invalid
    key, for which [valid()] is false. *)
Definition createParentKey (k : TileKey) : option TileKey :=
  match getLOD k with
  | O => None
  | S l => Some (mkTileKey l (getTileX k / 2) (getTileY k / 2))
  end.

(** Modelled from the spec: [GeoExtent] is declared outside
    LandCoverLayer.cpp; an extent supplies [xMin], [yMin], [width] and
    [height]. *)
Record GeoExtent {num : Numerics} : Type := mkGeoExtent {
  xMin : double;
  yMin : double;
  width : double;
  height : double
}.

(** ** The data of the tile source *)

(** A coverage's code map: index = source code, value = dictionary code,
    [-1] where the source code has no class. *)
Abbreviation CodeMap := (list Z).

(** [LandCoverValueMapping]: a source value and the name of its class. *)
Record LandCoverValueMapping : Type := mkMapping {
  getValue : Z;
  getLandCoverClassName : string
}.

(** [LandCoverDictionary::getClass(name)] followed by
    [LandCoverClass::getValue()]; [None] is the null class pointer. *)
Record LandCoverDictionary : Type := mkDictionary {
  getClass : string -> option Z
}.

(** [size_t] on the 64-bit targets: an [int] compared with, or used as, a
    [std::vector] size is first converted to it. *)
Definition size_t_of_int (i : Z) : Z := (i mod 2 ^ 64)%Z.

(** [std::vector<int>::max_size()] on the same targets. *)
Definition vector_max_size : Z := (2 ^ 61 - 1)%Z.

Definition INT_MIN : Z := (- 2 ^ 31)%Z.
Definition INT_MAX : Z := (2 ^ 31 - 1)%Z.

(** The value of a float-to-[int] conversion whose integer part is [z].
    Where [z] does not fit an [int] the conversion is undefined in C++;
    the model returns what the x86-64 conversion instruction returns
    there, [INT_MIN]. *)
Definition int_cast (z : Z) : Z :=
  if (INT_MIN <=? z)%Z && (z <=? INT_MAX)%Z then z else INT_MIN.

(** [i + 1] on [int]: overflow is undefined. *)
Definition int_succ (i : Z) : res Z :=
  if (i <? INT_MAX)%Z then Val (i + 1)%Z else Fault.

Section Model.

Context {num : Numerics}.

(** The reserved no-data value of the sources ([NO_DATA_VALUE], a macro of
    the osgEarth headers). *)
Variable NO_DATA_VALUE : float.

(** [(int)x]. *)
Definition int_of_float (x : float) : Z := int_cast (ftrunc x).

(** [GeoImage]: a raster with its extent. [readPixel] is what a
    [PixelReader] on the raster, with bilinear sampling switched off,
    returns in the red channel at a unit coordinate. *)
Record GeoImage : Type := mkGeoImage {
  getExtent : GeoExtent;
  readPixel : float -> float -> float
}.

(** [LandCoverCoverageLayer], an [ImageLayer]: its flags, its legal range,
    its image provider ([ImageLayer::createImage]; [None] is an invalid
    [GeoImage]), its dictionary and its value mappings. *)
Record LandCoverCoverageLayer : Type := mkCoverage {
  getEnabled : bool;
  getVisible : bool;
  isKeyInLegalRange : TileKey -> bool;
  layer_createImage : TileKey -> option GeoImage;
  getDictionary : option LandCoverDictionary;
  getMappings : list LandCoverValueMapping
}.

(** The extent of a tile address ([TileKey::getExtent], given by the
    profile of the addressing scheme). *)
Variable key_getExtent : TileKey -> GeoExtent.

(** [struct ILayer] (the unused [warp] and [codeTable] are left out). *)
Record ILayer : Type := mkILayer {
  image : option GeoImage;
  scale : float;
  bias : float * float;
  valid : bool;
  read : option (float -> float -> float)
}.

(** [ILayer()]: [valid(true), read(0L), scale(1.0f)], an invalid image and
    a zero [bias]. *)
Definition ILayer_new : ILayer :=
  mkILayer None (float_of_int 1) (float_of_int 0, float_of_int 0) true None.

(** The loop of [ILayer::load]:
    [for (k = key; k.valid() && !image.valid(); k = k.createParentKey())
       image = sourceLayer->createImage(k, progress);]
    from a valid key [(lod, x, y)] and an invalid [image]. It returns the
    image and the addresses asked of the provider, in order. *)
Fixpoint ancestor_walk (fetch : TileKey -> option GeoImage)
    (lod : nat) (x y : N) : option GeoImage * list TileKey :=
  let k := mkTileKey lod x y in
  match fetch k with
  | Some img => (Some img, [k])
  | None =>
      match lod with
      | O => (None, [k])
      | S l =>
          let '(r, asked) := ancestor_walk fetch l (x / 2)%N (y / 2)%N in
          (r, k :: asked)
      end
  end.

(** [ILayer::load]: the layer after the call, and the provider calls made. *)
Definition load (key : TileKey) (sourceLayer : LandCoverCoverageLayer)
    (this : ILayer) : ILayer * list TileKey :=
  let '(img, asked) :=
    if getEnabled sourceLayer && getVisible sourceLayer
       && isKeyInLegalRange sourceLayer key
    then
      match image this with
      | Some i => (Some i, [])
      | None =>
          ancestor_walk (layer_createImage sourceLayer)
            (getLOD key) (getTileX key) (getTileY key)
      end
    else (image this, []) in
  match img with
  | Some i =>
      let ke := key_getExtent key in
      let ie := getExtent i in
      (mkILayer (Some i)
         (float_of_double (ddiv (width ke) (width ie)))
         (float_of_double (ddiv (dsub (xMin ke) (xMin ie)) (width ie)),
          float_of_double (ddiv (dsub (yMin ke) (yMin ie)) (height ie)))
         true
         (Some (readPixel i)),
       asked)
  | None =>
      (mkILayer None (scale this) (bias this) false (read this), asked)
  end.

(** *** Code maps *)

(** The second loop of [buildCodeMap]. *)
Fixpoint fillCodeMap (dict : LandCoverDictionary)
    (mappings : list LandCoverValueMapping) (codemap : CodeMap) : res CodeMap :=
  match mappings with
  | [] => Val codemap
  | mapping :: rest =>
      let value := getValue mapping in
      match getClass dict (getLandCoverClassName mapping) with
      | Some lcValue =>
          codemap' ← vec_set codemap (Z.to_nat (size_t_of_int value)) lcValue;
          fillCodeMap dict rest codemap'
      | None => fillCodeMap dict rest codemap
      end
  end.

(** The first loop of [buildCodeMap]. *)
Definition highestValue (mappings : list LandCoverValueMapping) : Z :=
  fold_left (fun h mapping =>
               if (getValue mapping >? h)%Z then getValue mapping else h)
            mappings 0%Z.

(** [buildCodeMap(coverage, codemap)]; [codemap] is passed by reference,
    the result is its content on return. *)
Definition buildCodeMap (coverage : option LandCoverCoverageLayer)
    (codemap : CodeMap) : res CodeMap :=
  match coverage with
  | None => Val codemap
  | Some coverage =>
      match getDictionary coverage with
      | None => Val codemap
      | Some dict =>
          n ← int_succ (highestValue (getMappings coverage));
          fillCodeMap dict (getMappings coverage)
            (replicate (Z.to_nat (size_t_of_int n)) (-1)%Z)
      end
  end.

(** The guarded read of a code map in [createImage]:
    [code < codemap.size()], then [codemap[code]], then [value >= 0]. *)
Definition lookup_code (codemap : CodeMap) (code : Z) : res (option Z) :=
  if (size_t_of_int code <? Z.of_nat (length codemap))%Z then
    value ← vec_get codemap (Z.to_nat (size_t_of_int code));
    if (0 <=? value)%Z then Val (Some value) else Val None
  else Val None.

(** The two conversions of a texel to a code in [createImage]. *)
Definition decode (texel : float) : Z :=
  if flt texel (float_of_int 1)
  then int_of_float (fmul texel (float_of_int 255))
  else int_of_float texel.

(** *** The tile source *)

(** One entry of [options().coverages()]: its [enabled] option, the layer
    that [new LandCoverCoverageLayer(coverageOptions)] makes, and whether
    [layer->open()] reports OK. *)
Record LandCoverCoverageLayerOptions : Type := mkCoverageOptions {
  enabled : bool;
  newLayer : LandCoverCoverageLayer;
  opens : bool
}.

(** [LandCoverLayerOptions]: the optional [bits] and the coverages. *)
Record LandCoverLayerOptions : Type := mkOptions {
  bits : option Z;
  coverages : list LandCoverCoverageLayerOptions
}.

(** [optional<T>::isSetTo]. *)
Definition isSetTo (o : option Z) (z : Z) : bool :=
  match o with
  | Some x => (x =? z)%Z
  | None => false
  end.

(** [LandCoverTileSource]; [getPixelsPerTile] is the tile size of the
    base class [TileSource]. *)
Record LandCoverTileSource : Type := mkTileSource {
  _options : LandCoverLayerOptions;
  getPixelsPerTile : Z;
  _coverages : list LandCoverCoverageLayer;
  _codemaps : list CodeMap;
  _lcDictionary : option LandCoverDictionary
}.

(** [LandCoverTileSource(options)]. *)
Definition LandCoverTileSource_new (options : LandCoverLayerOptions)
    (tilesize : Z) : LandCoverTileSource :=
  mkTileSource options tilesize [] [] None.

(** One turn of the loop of [initialize]. *)
Definition openCoverage (ts : LandCoverTileSource)
    (coverageOptions : LandCoverCoverageLayerOptions) : LandCoverTileSource :=
  if negb (enabled coverageOptions) then ts
  else if opens coverageOptions then
    mkTileSource (_options ts) (getPixelsPerTile ts)
      (_coverages ts ++ [newLayer coverageOptions])
      (_codemaps ts ++ [[]])
      (_lcDictionary ts)
  else ts.

(** [LandCoverTileSource::initialize]. *)
Definition initialize (ts : LandCoverTileSource) : LandCoverTileSource :=
  fold_left openCoverage (coverages (_options ts)) ts.

(** [LandCoverCoverageLayer::setDictionary]. *)
Definition coverage_setDictionary (c : LandCoverCoverageLayer)
    (lcd : option LandCoverDictionary) : LandCoverCoverageLayer :=
  mkCoverage (getEnabled c) (getVisible c) (isKeyInLegalRange c)
    (layer_createImage c) lcd (getMappings c).

(** The loop of [setDictionary], [todo] turns from index [i]. *)
Fixpoint setDictionary_loop (todo i : nat) (lcd : option LandCoverDictionary)
    (coverages : list LandCoverCoverageLayer) (codemaps : list CodeMap)
    : res (list LandCoverCoverageLayer * list CodeMap) :=
  match todo with
  | O => Val (coverages, codemaps)
  | S todo' =>
      c ← vec_get coverages i;
      let c' := coverage_setDictionary c lcd in
      coverages' ← vec_set coverages i c';
      codemap ← vec_get codemaps i;
      codemap' ← buildCodeMap (Some c') codemap;
      codemaps' ← vec_set codemaps i codemap';
      setDictionary_loop todo' (S i) lcd coverages' codemaps'
  end.

(** [LandCoverTileSource::setDictionary]. *)
Definition setDictionary (ts : LandCoverTileSource)
    (lcd : option LandCoverDictionary) : res LandCoverTileSource :=
  '(coverages, codemaps) ←
    setDictionary_loop (length (_coverages ts)) 0 lcd (_coverages ts) (_codemaps ts);
  Val (mkTileSource (_options ts) (getPixelsPerTile ts) coverages codemaps lcd).

(** *** Compositing *)

(** [x >= y] on floats. *)
Definition fge (x y : float) : bool := fle y x.

(** The body of the coverage loop of [createImage] for a layer that is
    valid after loading: the value written for [(u, v)], if any.
    [codemap] is [_codemaps[L]], read only where the code reads it. The
    two branches of the source, for a normalized and for an unnormalized
    texel, differ in the conversion ([decode]) and then both write
    [(float)codemap[code]] under the same guard ([lookup_code]). *)
Definition sampleLayer (layer : ILayer) (codemap : res CodeMap)
    (u v : float) : res (option float) :=
  let cov_x := fadd (fmul (scale layer) u) (bias layer).1 in
  let cov_y := fadd (fmul (scale layer) v) (bias layer).2 in
  if fge cov_x (float_of_int 0) && fle cov_x (float_of_int 1)
     && fge cov_y (float_of_int 0) && fle cov_y (float_of_int 1)
  then
    reader ← deref (read layer);
    let texel := reader cov_x cov_y in
    if negb (feq texel NO_DATA_VALUE) then
      cm ← codemap;
      value ← lookup_code cm (decode texel);
      Val (option_map float_of_int value)
    else Val None
  else Val None.

(** The coverage loop of [createImage],
    [for (int L = layers.size()-1; L >= 0 && !wrotePixel; --L)],
    entered with [L = n - 1]: the layers after the loop (loading is lazy
    and kept) and the value written, if any. *)
Fixpoint scanLayers (ts : LandCoverTileSource) (key : TileKey) (n : nat)
    (layers : list ILayer) (u v : float) : res (list ILayer * option float) :=
  match n with
  | O => Val (layers, None)
  | S L =>
      layer ← vec_get layers L;
      if negb (valid layer) then scanLayers ts key L layers u v
      else
        '(layer, layers) ←
          match image layer with
          | Some _ => Val (layer, layers)
          | None =>
              coverage ← vec_get (_coverages ts) L;
              let layer' := (load key coverage layer).1 in
              layers' ← vec_set layers L layer';
              Val (layer', layers')
          end;
        if negb (valid layer) then scanLayers ts key L layers u v
        else
          wrote ← sampleLayer layer (vec_get (_codemaps ts) L) u v;
          match wrote with
          | Some texel => Val (layers, Some texel)
          | None => scanLayers ts key L layers u v
          end
  end.

(** [for (float x = 0.0f; x <= 1.0f; x += d) body], from [x]. *)
Fixpoint for_float {St : Type} (fuel : nat) (d : float)
    (body : float -> St -> res St) (x : float) (s : St) : res St :=
  match fuel with
  | O => Timeout
  | S fuel' =>
      if fle x (float_of_int 1) then
        s' ← body x s;
        for_float fuel' d body (fadd x d) s'
      else Val s
  end.

(** A call [write.f(texel, u, v)]: the coordinates and the red channel. *)
Definition PixelWrite : Type := float * float * float.

(** The no-data texel of the output. *)
Definition nodata (ts : LandCoverTileSource) : float :=
  if isSetTo (bits (_options ts)) 16 then float_of_int (-32768)
  else NO_DATA_VALUE.

(** The body of the two pixel loops of [createImage]. *)
Definition pixel (ts : LandCoverTileSource) (key : TileKey) (u v : float)
    (st : list ILayer * list PixelWrite) : res (list ILayer * list PixelWrite) :=
  '(layers, wrote) ← scanLayers ts key (length st.1) st.1 u v;
  Val (layers, st.2 ++ [(u, v, default (nodata ts) wrote)]).

(** [LandCoverTileSource::createImage]: [None] is the null image,
    otherwise the calls of [write.f] on the new image, in order. *)
Definition createImage (fuel : nat) (ts : LandCoverTileSource)
    (key : TileKey) : res (option (list PixelWrite)) :=
  match _coverages ts with
  | [] => Val None
  | _ =>
      let layers := replicate (length (_coverages ts)) ILayer_new in
      let tilesize := getPixelsPerTile ts in
      let du := fdiv (float_of_int 1) (float_of_int (tilesize - 1)) in
      let dv := fdiv (float_of_int 1) (float_of_int (tilesize - 1)) in
      st ← for_float fuel du
             (fun u st => for_float fuel dv (pixel ts key u) (float_of_int 0) st)
             (float_of_int 0) (layers, []);
      Val (Some st.2)
  end.

(** ** The specification's view of the same operations *)

(** The addresses a resolution may visit: [key], its parent, its
    grandparent, ...; [nth_parent i key] is absent above the root. *)
Definition nth_parent (i : nat) (key : TileKey) : option TileKey :=
  Nat.iter i (fun k => k ≫= createParentKey) (Some key).

(** The binding of a coverage for a tile: the layer [load] leaves behind
    when called on a fresh [ILayer]. *)
Definition bound (key : TileKey) (coverage : LandCoverCoverageLayer) : ILayer :=
  (load key coverage ILayer_new).1.

(** The affine map of a binding, from tile to image unit coordinates. *)
Definition mapped (b : ILayer) (u v : float) : float * float :=
  (fadd (fmul (scale b) u) (bias b).1, fadd (fmul (scale b) v) (bias b).2).

Definition in_unit_square (p : float * float) : bool :=
  fge p.1 (float_of_int 0) && fle p.1 (float_of_int 1)
  && fge p.2 (float_of_int 0) && fle p.2 (float_of_int 1).

(** Lookup(table, rawCode): the dictionary code, or unmapped. *)
Definition translate (table : CodeMap) (rawCode : Z) : option Z :=
  if (0 <=? rawCode)%Z then
    match table !! Z.to_nat rawCode with
    | Some c => if (0 <=? c)%Z then Some c else None
    | None => None
    end
  else None.

(** The dictionary code coverage [L] offers for the pixel [(u, v)]: the
    coverage is bound for the tile, the mapped coordinate lies in the unit
    square, the sampled value is not the no-data value and its code is
    mapped by the coverage's table. *)
Definition committed_by (ts : LandCoverTileSource) (key : TileKey)
    (L : nat) (u v : float) : option Z :=
  match _coverages ts !! L, _codemaps ts !! L with
  | Some coverage, Some table =>
      let b := bound key coverage in
      match read b with
      | Some sample =>
          let p := mapped b u v in
          let texel := sample p.1 p.2 in
          if valid b && in_unit_square p && negb (feq texel NO_DATA_VALUE)
          then translate table (decode texel)
          else None
      | None => None
      end
  | _, _ => None
  end.

(** The offer of the highest-priority coverage below index [n] that makes
    one. *)
Fixpoint composite_pixel (ts : LandCoverTileSource) (key : TileKey)
    (n : nat) (u v : float) : option Z :=
  match n with
  | O => None
  | S L =>
      match committed_by ts key L u v with
      | Some c => Some c
      | None => composite_pixel ts key L u v
      end
  end.

(** The texel of the pixel [(u, v)]. *)
Definition pixel_value (ts : LandCoverTileSource) (key : TileKey)
    (u v : float) : float :=
  default (nodata ts)
    (option_map float_of_int
       (composite_pixel ts key (length (_coverages ts)) u v)).

(** The writes of a tile whose loops visit [us] and [vs]. *)
Definition raster (ts : LandCoverTileSource) (key : TileKey)
    (us vs : list float) : list PixelWrite :=
  flat_map (fun u => map (fun v => (u, v, pixel_value ts key u v)) vs) us.

(** The values a loop [for (x = x0; x <= 1.0f; x += d)] visits, when it
    ends within [fuel] turns. *)
Fixpoint steps (fuel : nat) (d x : float) : option (list float) :=
  match fuel with
  | O => None
  | S fuel' =>
      if fle x (float_of_int 1)
      then option_map (cons x) (steps fuel' d (fadd x d))
      else Some []
  end.

(** The step [du] (and [dv]) of [createImage]. *)
Definition pixel_step (ts : LandCoverTileSource) : float :=
  fdiv (float_of_int 1) (float_of_int (getPixelsPerTile ts - 1)).

(** Running a loop body over the values of a list. *)
Fixpoint foldM {A St : Type} (body : A -> St -> res St) (xs : list A)
    (s : St) : res St :=
  match xs with
  | [] => Val s
  | x :: rest => s' ← body x s; foldM body rest s'
  end.

(** The vectors of a tile source: one code map per coverage, as
    [initialize] keeps them, each within the size a vector can have. *)
Definition consistent (ts : LandCoverTileSource) : Prop :=
  length (_codemaps ts) = length (_coverages ts) /\
  Forall (fun codemap => (Z.of_nat (length codemap) <= vector_max_size)%Z)
         (_codemaps ts).

(** Every code map is empty, as [initialize] leaves them until a
    dictionary is attached. *)
Definition tables_empty (ts : LandCoverTileSource) : Prop :=
  consistent ts /\ Forall (fun codemap => codemap = []) (_codemaps ts).

(** The tile source was opened and [setDictionary] never called. *)
Definition never_attached (ts : LandCoverTileSource) : Prop :=
  exists options tilesize,
    ts = initialize (LandCoverTileSource_new options tilesize).

(** The layers of a [createImage] call: each one fresh, or bound to its
    coverage. *)
Definition lazily_bound (ts : LandCoverTileSource) (key : TileKey)
    (layers : list ILayer) : Prop :=
  length layers = length (_coverages ts) /\
  forall L layer coverage,
    layers !! L = Some layer -> _coverages ts !! L = Some coverage ->
    layer = ILayer_new \/ layer = bound key coverage.

End Model.

(** ** The words of the specification on single-precision values *)

Module Spec.
(** The value of a finite float, [±m * 2^e], as a rational. *)
Definition value (x : spec_float) : Q :=
  match x with
  | S754_finite s m e =>
      let q := if (0 <=? e)%Z
               then inject_Z (Z.pos m * 2 ^ e)
               else Z.pos m # Pos.pow 2 (Z.to_pos (- e)) in
      if s then Qopp q else q
  | _ => 0%Q
  end.

(** Zeros and finite numbers have a value; infinities and NaNs none. *)
Definition finite (x : spec_float) : bool :=
  match x with
  | S754_zero _ | S754_finite _ _ _ => true
  | _ => false
  end.

(** [round]: to the nearest integer, halves away from zero. *)
Definition round (q : Q) : Z :=
  if Qle_bool 0 q then Qfloor (q + (1 # 2)) else Qceiling (q - (1 # 2)).

(** The decode step as the specification words it: a value below 1.0 is
    normalized and becomes round(value * 255), any other value is
    unnormalized and becomes round(value). *)
Definition decode (texel : spec_float) : Z :=
  if SFltb texel (Binary32.of_Z 1)
  then round (value (Binary32.mul texel (Binary32.of_Z 255)))
  else round (value texel).

(** An extent lies within another, of the same proportions (a quad
    subdivision halves both sides). *)
Definition nested_in (e a : @GeoExtent exact) : Prop :=
  (0 < width e /\ 0 < height e /\ 0 < width a /\ 0 < height a /\
   xMin a <= xMin e /\ xMin e + width e <= xMin a + width a /\
   yMin a <= yMin e /\ yMin e + height e <= yMin a + height a /\
   width e * height a == height e * width a)%Q.
End Spec.

(** ** Concrete tile sources in single precision *)

Module Single.
(** [NO_DATA_VALUE] is [-FLT_MAX] in the osgEarth headers. *)
Definition NO_DATA_VALUE : spec_float := S754_finite true 16777215 104.

(** The extents of a quad grid over the unit square, in [double]. *)
Definition key_getExtent (k : TileKey) : @GeoExtent binary32 :=
  let n := Binary64.of_Z (2 ^ Z.of_nat (getLOD k)) in
  @mkGeoExtent binary32
    (Binary64.div (Binary64.of_Z (Z.of_N (getTileX k))) n)
    (Binary64.div (Binary64.of_Z (Z.of_N (getTileY k))) n)
    (Binary64.div (Binary64.of_Z 1) n)
    (Binary64.div (Binary64.of_Z 1) n).

(** A provider with one image, at level 0, filled with [raw]. *)
Definition at_root (raw : spec_float) (k : TileKey) : option (@GeoImage binary32) :=
  match getLOD k with
  | O => Some (@mkGeoImage binary32 (key_getExtent k) (fun _ _ => raw))
  | S _ => None
  end.

Definition dictionary : LandCoverDictionary :=
  mkDictionary (fun name =>
    if String.eqb name "forest" then Some 7%Z
    else if String.eqb name "water" then Some 99%Z
    else None).

(** A coverage filled with [raw] that maps the source value 1 to
    [className]. *)
Definition coverage (raw : spec_float) (className : string)
    (lcd : option LandCoverDictionary) : @LandCoverCoverageLayer binary32 :=
  @mkCoverage binary32 true true (fun _ => true) (at_root raw) lcd
    [mkMapping 1 className].

Definition options (bits : option Z) (low high : spec_float)
    : @LandCoverLayerOptions binary32 :=
  @mkOptions binary32 bits
    [@mkCoverageOptions binary32 true (coverage low "water" None) true;
     @mkCoverageOptions binary32 true (coverage high "forest" None) true].

(** Two coverages, the second (of higher priority) mapping 1 to 7 and
    the first mapping 1 to 99, after [initialize]. *)
Definition opened (bits : option Z) (tilesize : Z) (low high : spec_float)
    : @LandCoverTileSource binary32 :=
  initialize (LandCoverTileSource_new (options bits low high) tilesize).

(** The same after [setDictionary(dictionary)]. *)
Definition attached (bits : option Z) (tilesize : Z) (low high : spec_float)
    : @LandCoverTileSource binary32 :=
  @mkTileSource binary32 (options bits low high) tilesize
    [coverage low "water" (Some dictionary);
     coverage high "forest" (Some dictionary)]
    [[-1; 99]; [-1; 7]]%Z
    (Some dictionary).

Definition key : TileKey := mkTileKey 2 1 3.

Definition zero : spec_float := Binary32.of_Z 0.
Definition one : spec_float := Binary32.of_Z 1.
Definition three : spec_float := Binary32.of_Z 3.
Definition seven : spec_float := Binary32.of_Z 7.
Definition ninety_nine : spec_float := Binary32.of_Z 99.

(** 0.375 and 1.75. *)
Definition three_eighths : spec_float := S754_finite false 12582912 (-25).
Definition seven_quarters : spec_float := S754_finite false 14680064 (-23).

(** Tile sources of two pixels a side: both coverages filled with the
    source value 1; the higher one filled with the unmapped value 3, or
    with the no-data value; opened with [bits] 16 and never attached;
    and not even opened. *)
Definition both_mapped : @LandCoverTileSource binary32 :=
  attached None 2 one one.
Definition high_unmapped : @LandCoverTileSource binary32 :=
  attached None 2 one three.
Definition high_nodata : @LandCoverTileSource binary32 :=
  attached None 2 one NO_DATA_VALUE.
Definition unattached16 : @LandCoverTileSource binary32 :=
  opened (Some 16%Z) 2 one one.
Definition unopened : @LandCoverTileSource binary32 :=
  LandCoverTileSource_new (options None one one) 2.

(** A tile source whose first coverage is disabled and whose second one
    fails to open, after [initialize]. *)
Definition none_open : @LandCoverTileSource binary32 :=
  initialize
    (LandCoverTileSource_new
       (@mkOptions binary32 None
          [@mkCoverageOptions binary32 false (coverage one "water" None) true;
           @mkCoverageOptions binary32 true (coverage one "forest" None) false])
       2).

(** The same coverages with a tile size of 11, and of 256. *)
Definition tile11 : @LandCoverTileSource binary32 :=
  attached None 11 one one.
Definition tile256 : @LandCoverTileSource binary32 :=
  attached None 256 one one.

(** A coverage with three mappings, one of an unknown class. *)
Definition three_mappings : @LandCoverCoverageLayer binary32 :=
  @mkCoverage binary32 true true (fun _ => true) (at_root one)
    (Some dictionary)
    [mkMapping 1 "forest"; mkMapping 3 "tundra"; mkMapping 2 "water"].
End Single.

(** ** Concrete coverages in exact arithmetic *)

Module Exact.
(** The extents of a quad grid over a root extent. *)
Definition quad_extent (root : @GeoExtent exact) (k : TileKey) : @GeoExtent exact :=
  let n := inject_Z (2 ^ Z.of_nat (getLOD k)) in
  @mkGeoExtent exact
    (xMin root + inject_Z (Z.of_N (getTileX k)) * (width root / n))%Q
    (yMin root + inject_Z (Z.of_N (getTileY k)) * (height root / n))%Q
    (width root / n)%Q
    (height root / n)%Q.

(** The geodetic extent, in degrees. *)
Definition geodetic : @GeoExtent exact :=
  @mkGeoExtent exact (-180)%Q (-90)%Q 360%Q 180%Q.

Definition key_getExtent : TileKey -> @GeoExtent exact := quad_extent geodetic.

(** A provider with one image, at level 0. *)
Definition at_root (extent : TileKey -> @GeoExtent exact) (k : TileKey)
    : option (@GeoImage exact) :=
  match getLOD k with
  | O => Some (@mkGeoImage exact (extent k) (fun _ _ => 1%Q))
  | S _ => None
  end.

Definition coverage (visible : bool) : @LandCoverCoverageLayer exact :=
  @mkCoverage exact true visible (fun _ => true) (at_root key_getExtent) None [].

Definition key : TileKey := mkTileKey 2 1 3.
Definition root : TileKey := mkTileKey 0 0 0.

(** The binding of the visible coverage for [key]. *)
Definition binding : @ILayer exact := bound key_getExtent key (coverage true).

(** Extents that are contained in their parents' without being quadrants:
    the root is the square of side 4 at the origin and every other tile
    its upper half. *)
Definition halves_extent (k : TileKey) : @GeoExtent exact :=
  match getLOD k with
  | O => @mkGeoExtent exact 0%Q 0%Q 4%Q 4%Q
  | S _ => @mkGeoExtent exact 0%Q 2%Q 4%Q 2%Q
  end.

Definition halves_binding : @ILayer exact :=
  bound halves_extent (mkTileKey 1 0 0)
    (@mkCoverage exact true true (fun _ => true) (at_root halves_extent) None []).
End Exact.

(** ** More of the tile source *)

Section MoreModel.

Context {num : Numerics}.
Variable NO_DATA_VALUE : float.
Variable key_getExtent : TileKey -> GeoExtent.

(** The coverages [initialize] keeps: those enabled and opening, in the
    order of the options. *)
Definition kept (coverageOptions : LandCoverCoverageLayerOptions) : bool :=
  enabled coverageOptions && opens coverageOptions.

(** The source values of a coverage are non-negative [int]s below
    [INT_MAX], so that [highestValue + 1] does not overflow. *)
Definition values_in_range (coverage : LandCoverCoverageLayer) : Prop :=
  Forall (fun mapping => (0 <= getValue mapping < INT_MAX)%Z)
         (getMappings coverage).

(** The offer of one coverage with its table (the body of
    [committed_by]). *)
Definition offer (key : TileKey) (coverage : LandCoverCoverageLayer)
    (table : list Z) (u v : float) : option Z :=
  let b := bound key_getExtent key coverage in
  match read b with
  | Some sample =>
      let p := mapped b u v in
      let texel := sample p.1 p.2 in
      if valid b && in_unit_square p && negb (feq texel NO_DATA_VALUE)
      then translate table (decode texel)
      else None
  | None => None
  end.

(** The offers of all the coverages for a pixel, in the order of the
    coverages, and the one that wins: the last. *)
Definition offers (ts : LandCoverTileSource) (key : TileKey) (u v : float)
    : list (option Z) :=
  zip_with (fun coverage table => offer key coverage table u v)
           (_coverages ts) (_codemaps ts).

Definition last_offer (l : list (option Z)) : option Z :=
  fold_left (fun acc o => match o with Some c => Some c | None => acc end) l None.

(** A tile source without the coverage at the position where [front]
    ends, and without its code map. *)
Definition without (ts : LandCoverTileSource)
    (front back : list LandCoverCoverageLayer)
    (front_maps back_maps : list (list Z)) : LandCoverTileSource :=
  mkTileSource (_options ts) (getPixelsPerTile ts) (front ++ back)
    (front_maps ++ back_maps) (_lcDictionary ts).

End MoreModel.

(** Index [j] is among the [todo] turns of a loop that starts at [i]. *)
Definition in_turns (i todo j : nat) : bool :=
  (i <=? j)%nat && (j <? i + todo)%nat.

(** ** The layer *)

Module Layer.
Section Layer.

Context {num : Numerics}.

(** [LandCoverLayer]: its options, the tile source of the base class
    ([getTileSource()], null until one is created) and the dictionary
    found in the map. *)
Record LandCoverLayer : Type := mkLayer {
  _optionsConcrete : LandCoverLayerOptions;
  getTileSource : option LandCoverTileSource;
  _lcDictionary : option LandCoverDictionary
}.

(** [LandCoverLayer::createTileSource]; the tile size is that of the
    base class. *)
Definition createTileSource (this : LandCoverLayer) (tilesize : Z)
    : LandCoverTileSource :=
  LandCoverTileSource_new (_optionsConcrete this) tilesize.

(** [LandCoverLayer::addedToMap]; [found] is what
    [map->getLayer<LandCoverDictionary>()] returns. The other branch only
    logs a warning. *)
Definition addedToMap (this : LandCoverLayer)
    (found : option LandCoverDictionary) : res LandCoverLayer :=
  match found, getTileSource this with
  | Some dict, Some ts =>
      ts' ← setDictionary ts (Some dict);
      Val (mkLayer (_optionsConcrete this) (Some ts') found)
  | _, _ => Val (mkLayer (_optionsConcrete this) (getTileSource this) found)
  end.

End Layer.
End Layer.

(** ** Further concrete inputs *)

Module More.
(** A second dictionary, with other codes for the same classes. *)
Definition renumbered : LandCoverDictionary :=
  mkDictionary (fun name =>
    if String.eqb name "forest" then Some 2%Z
    else if String.eqb name "water" then Some 5%Z
    else None).

(** A coverage that is enabled but not visible. *)
Definition hidden : @LandCoverCoverageLayer binary32 :=
  @mkCoverage binary32 true false (fun _ => true) (Single.at_root Single.one)
    (Some Single.dictionary) [mkMapping 1 "forest"].

(** A tile source whose only coverage is hidden, and one with a hidden
    coverage above a visible one. *)
Definition all_hidden : @LandCoverTileSource binary32 :=
  @mkTileSource binary32 (Single.options None Single.one Single.one) 2
    [hidden] [[-1; 7]]%Z (Some Single.dictionary).
Definition one_hidden : @LandCoverTileSource binary32 :=
  @mkTileSource binary32 (Single.options None Single.one Single.one) 2
    [Single.coverage Single.one "water" (Some Single.dictionary); hidden]
    [[-1; 99]; [-1; 7]]%Z (Some Single.dictionary).

(** A provider with an image for every address of the quad grid, each
    with the extent of its address, and its coverage. *)
Definition everywhere (k : TileKey) : option (@GeoImage binary32) :=
  Some (@mkGeoImage binary32 (Single.key_getExtent k) (fun _ _ => Single.one)).
Definition tiled : @LandCoverCoverageLayer binary32 :=
  @mkCoverage binary32 true true (fun _ => true) everywhere None [].

(** A layer with the two coverages, after its tile source was created
    and initialized. *)
Definition layer : @Layer.LandCoverLayer binary32 :=
  @Layer.mkLayer binary32 (Single.options None Single.one Single.one)
    (Some (Single.opened None 2 Single.one Single.one)) None.
End More.

(** ** Texels and further cases in single precision *)

(** The texel on which [write.f] puts a value is chosen by
    [ImageUtils::PixelWriter], which is not part of this file: a write
    lands on the texel [texel_of u v], whatever that function is. *)
Definition lands_on (texel_of : spec_float -> spec_float -> nat * nat)
    (w : spec_float * spec_float * spec_float) : nat * nat :=
  texel_of w.1.1 w.1.2.

Module Cases.
(** The two coverages with a tile size of 11: opened and never attached,
    and attached with [bits] 16 and both filled with the source value 3,
    which no mapping names. *)
Definition unattached11 : @LandCoverTileSource binary32 :=
  Single.opened None 11 Single.one Single.one.
Definition unmapped16 : @LandCoverTileSource binary32 :=
  Single.attached (Some 16%Z) 11 Single.three Single.three.

(** The root of the quad grid, a tile 200 levels below it, and a tile in
    the last column of level 25. *)
Definition root : TileKey := mkTileKey 0 0 0.
Definition last_column : TileKey := mkTileKey 25 33554431 5.

(** A coverage with its only image at the root. *)
Definition water : @LandCoverCoverageLayer binary32 :=
  Single.coverage Single.one "water" None.


(** On the quad grid over the unit square, the [scale] and the [bias] of
    one axis that [load] computes for a tile of level [lod], at column
    (or row) [x], from the extent of its [i]-th ancestor. *)
Definition axis_scale (lod i : nat) : spec_float :=
  Binary64.to_float
    (Binary64.div
       (Binary64.div (Binary64.of_Z 1) (Binary64.of_Z (2 ^ Z.of_nat lod)))
       (Binary64.div (Binary64.of_Z 1)
          (Binary64.of_Z (2 ^ Z.of_nat (lod - i))))).
Definition axis_bias (lod i : nat) (x : N) : spec_float :=
  Binary64.to_float
    (Binary64.div
       (Binary64.sub
          (Binary64.div (Binary64.of_Z (Z.of_N x))
             (Binary64.of_Z (2 ^ Z.of_nat lod)))
          (Binary64.div (Binary64.of_Z (Z.of_N (x / 2 ^ N.of_nat i)))
             (Binary64.of_Z (2 ^ Z.of_nat (lod - i)))))
       (Binary64.div (Binary64.of_Z 1)
          (Binary64.of_Z (2 ^ Z.of_nat (lod - i))))).

(** A finite float with a given rational value. *)
Definition equals (x : spec_float) (q : Q) : bool :=
  Spec.finite x && Qeq_bool (Spec.value x) q.

(** The closed forms of [scale] and [bias], checked on every column of
    every level up to [levels] and for every ancestor. *)
Definition closed_scale (lod i : nat) : bool :=
  equals (axis_scale lod i) (1 / inject_Z (2 ^ Z.of_nat i)).
Definition closed_bias (lod i : nat) (x : N) : bool :=
  equals (axis_bias lod i x)
    (inject_Z (Z.of_N x mod 2 ^ Z.of_nat i) / inject_Z (2 ^ Z.of_nat i)).
Definition closed_forms (levels : nat) : bool :=
  forallb (fun lod =>
    forallb (fun i =>
      closed_scale lod i
      && forallb (fun x => closed_bias lod i (N.of_nat x)) (seq 0 (2 ^ lod)))
      (seq 0 (S lod)))
    (seq 0 (S levels)).
End Cases.

(** * Properties *)

(** ** Integers, vectors and code maps *)

Lemma int_cast_range (z : Z) : (INT_MIN <= int_cast z <= INT_MAX)%Z.
Proof.
  unfold int_cast.
  destruct (INT_MIN <=? z)%Z eqn:Hlo, (z <=? INT_MAX)%Z eqn:Hhi; simpl;
    unfold INT_MIN, INT_MAX in *; lia.
Qed.

Lemma size_t_of_int_nonneg (i : Z) :
  (0 <= i <= INT_MAX)%Z -> size_t_of_int i = i.
Proof.
  unfold size_t_of_int, INT_MAX. intros H. apply Z.mod_small. lia.
Qed.

Lemma size_t_of_int_neg (i : Z) :
  (INT_MIN <= i < 0)%Z -> size_t_of_int i = (i + 2 ^ 64)%Z.
Proof.
  unfold size_t_of_int, INT_MIN. intros H.
  symmetry. apply Z.mod_unique with (q := (-1)%Z); lia.
Qed.

Lemma size_t_of_int_range (i : Z) : (0 <= size_t_of_int i < 2 ^ 64)%Z.
Proof. unfold size_t_of_int. apply Z.mod_pos_bound. lia. Qed.

Lemma vec_get_lookup {A} (v : list A) (i : nat) (a : A) :
  v !! i = Some a -> vec_get v i = Val a.
Proof. unfold vec_get. intros ->. reflexivity. Qed.

Lemma vec_set_lt {A} (v : list A) (i : nat) (x : A) :
  (i < length v)%nat -> vec_set v i x = Val (<[i := x]> v).
Proof. unfold vec_set. intros H. destruct (decide _); [reflexivity | lia]. Qed.

(** The guarded read never leaves the vector. *)
Lemma lookup_code_defined (codemap : CodeMap) (code : Z) :
  exists r, lookup_code codemap code = Val r.
Proof.
  unfold lookup_code.
  destruct (size_t_of_int code <? Z.of_nat (length codemap))%Z eqn:Hlt;
    [| eauto].
  apply Z.ltb_lt in Hlt.
  pose proof (size_t_of_int_range code) as Hr.
  destruct (lookup_lt_is_Some_2 codemap (Z.to_nat (size_t_of_int code)))
    as [value Hvalue]; [lia |].
  rewrite (vec_get_lookup _ _ _ Hvalue). simpl.
  destruct (0 <=? value)%Z; eauto.
Qed.

Lemma lookup_code_translate (codemap : CodeMap) (code : Z) :
  (Z.of_nat (length codemap) <= vector_max_size)%Z ->
  (INT_MIN <= code <= INT_MAX)%Z ->
  lookup_code codemap code = Val (translate codemap code).
Proof.
  intros Hsize Hint. unfold lookup_code, translate.
  destruct (0 <=? code)%Z eqn:Hsign.
  - apply Z.leb_le in Hsign.
    rewrite size_t_of_int_nonneg by lia.
    destruct (code <? Z.of_nat (length codemap))%Z eqn:Hlt.
    + apply Z.ltb_lt in Hlt.
      destruct (lookup_lt_is_Some_2 codemap (Z.to_nat code)) as [c Hc]; [lia |].
      rewrite (vec_get_lookup _ _ _ Hc), Hc. simpl.
      destruct (0 <=? c)%Z; reflexivity.
    + apply Z.ltb_ge in Hlt.
      rewrite (lookup_ge_None_2 codemap (Z.to_nat code)) by lia. reflexivity.
  - apply Z.leb_gt in Hsign.
    rewrite size_t_of_int_neg by lia.
    destruct (code + 2 ^ 64 <? Z.of_nat (length codemap))%Z eqn:Hlt;
      [| reflexivity].
    apply Z.ltb_lt in Hlt. unfold vector_max_size, INT_MIN in *. lia.
Qed.

Lemma translate_out_of_range (table : CodeMap) (rawCode : Z) :
  (Z.of_nat (length table) <= rawCode)%Z -> translate table rawCode = None.
Proof.
  intros H. unfold translate.
  destruct (0 <=? rawCode)%Z; [| reflexivity].
  rewrite (lookup_ge_None_2 table (Z.to_nat rawCode)) by lia. reflexivity.
Qed.

Lemma translate_empty (rawCode : Z) : translate [] rawCode = None.
Proof. unfold translate. destruct (0 <=? rawCode)%Z; reflexivity. Qed.

(** ** Binding a coverage *)

Section Properties.

Context {num : Numerics}.
Variable NO_DATA_VALUE : float.
Variable key_getExtent : TileKey -> GeoExtent.

Lemma int_of_float_range (x : float) :
  (INT_MIN <= int_of_float x <= INT_MAX)%Z.
Proof. apply int_cast_range. Qed.

Lemma decode_range (texel : float) : (INT_MIN <= decode texel <= INT_MAX)%Z.
Proof. unfold decode. destruct (flt _ _); apply int_of_float_range. Qed.

(** A binding is either valid, with its image and its reader, or invalid
    and without an image. *)
Lemma bound_cases (key : TileKey) (coverage : LandCoverCoverageLayer) :
  (exists img,
      valid (bound key_getExtent key coverage) = true /\
      image (bound key_getExtent key coverage) = Some img /\
      read (bound key_getExtent key coverage) = Some (readPixel img)) \/
  (valid (bound key_getExtent key coverage) = false /\
   image (bound key_getExtent key coverage) = None).
Proof.
  unfold bound, load. simpl.
  destruct (getEnabled coverage && getVisible coverage
            && isKeyInLegalRange coverage key).
  - destruct (ancestor_walk _ _ _ _) as [[img |] asked]; simpl; eauto.
  - simpl. eauto.
Qed.

(** On a valid binding the loop body computes the coverage's offer. *)
Lemma sampleLayer_bound (ts : LandCoverTileSource) (key : TileKey) (L : nat)
    (coverage : LandCoverCoverageLayer) (u v : float) :
  consistent ts ->
  _coverages ts !! L = Some coverage ->
  valid (bound key_getExtent key coverage) = true ->
  sampleLayer NO_DATA_VALUE (bound key_getExtent key coverage)
    (vec_get (_codemaps ts) L) u v
  = Val (option_map float_of_int
           (committed_by NO_DATA_VALUE key_getExtent ts key L u v)).
Proof.
  intros [Hlen Hsizes] Hcov Hvalid.
  destruct (lookup_lt_is_Some_2 (_codemaps ts) L) as [table Htable].
  { rewrite Hlen. eapply lookup_lt_Some; eauto. }
  unfold committed_by. rewrite Hcov, Htable.
  destruct (bound_cases key coverage) as [(img & _ & _ & Hread) | [Hinv _]];
    [| congruence].
  unfold sampleLayer. rewrite Hread, Hvalid. simpl.
  unfold in_unit_square, mapped. simpl.
  destruct (fge _ _ && fle _ _ && fge _ _ && fle _ _); [| reflexivity].
  simpl.
  destruct (feq _ NO_DATA_VALUE); [reflexivity |]. simpl.
  rewrite (vec_get_lookup _ _ _ Htable). simpl.
  rewrite lookup_code_translate.
  - reflexivity.
  - eapply Forall_lookup_1 in Hsizes; eauto.
  - apply decode_range.
Qed.

(** An invalid binding offers nothing. *)
Lemma committed_by_invalid (ts : LandCoverTileSource) (key : TileKey) (L : nat)
    (coverage : LandCoverCoverageLayer) (u v : float) :
  _coverages ts !! L = Some coverage ->
  valid (bound key_getExtent key coverage) = false ->
  committed_by NO_DATA_VALUE key_getExtent ts key L u v = None.
Proof.
  intros Hcov Hinv. unfold committed_by. rewrite Hcov.
  destruct (_codemaps ts !! L); [| reflexivity].
  destruct (read _); [| reflexivity].
  rewrite Hinv. reflexivity.
Qed.

Lemma lazily_bound_insert (ts : LandCoverTileSource) (key : TileKey)
    (layers : list ILayer) (L : nat) (coverage : LandCoverCoverageLayer) :
  lazily_bound key_getExtent ts key layers ->
  _coverages ts !! L = Some coverage ->
  lazily_bound key_getExtent ts key
    (<[L := bound key_getExtent key coverage]> layers).
Proof.
  intros [Hlen Hinv] Hcov. split.
  - rewrite length_insert. exact Hlen.
  - intros L' layer coverage' Hlayer Hcov'.
    destruct (decide (L = L')) as [<- | Hne].
    + rewrite list_lookup_insert_eq in Hlayer.
      * right. congruence.
      * rewrite Hlen. eapply lookup_lt_Some; eauto.
    + rewrite list_lookup_insert_ne in Hlayer by exact Hne. eauto.
Qed.

(** The coverage loop computes the offer of the highest-priority coverage
    that makes one, and leaves the layers fresh or bound. *)
Lemma scanLayers_spec (ts : LandCoverTileSource) (key : TileKey)
    (u v : float) (n : nat) :
  consistent ts ->
  forall layers,
    (n <= length layers)%nat ->
    lazily_bound key_getExtent ts key layers ->
    exists layers',
      scanLayers NO_DATA_VALUE key_getExtent ts key n layers u v
      = Val (layers',
             option_map float_of_int
               (composite_pixel NO_DATA_VALUE key_getExtent ts key n u v)) /\
      lazily_bound key_getExtent ts key layers'.
Proof.
  intros Hts. induction n as [| L IH]; intros layers Hn Hlazy.
  - exists layers. split; [reflexivity | exact Hlazy].
  - destruct (lookup_lt_is_Some_2 layers L) as [layer Hlayer]; [lia |].
    destruct (lookup_lt_is_Some_2 (_coverages ts) L) as [coverage Hcov].
    { destruct Hlazy as [<- _]. lia. }
    assert (Hskip : forall layers0,
      (L <= length layers0)%nat ->
      lazily_bound key_getExtent ts key layers0 ->
      committed_by NO_DATA_VALUE key_getExtent ts key L u v = None ->
      exists layers',
        scanLayers NO_DATA_VALUE key_getExtent ts key L layers0 u v
        = Val (layers',
               option_map float_of_int
                 (composite_pixel NO_DATA_VALUE key_getExtent ts key (S L) u v)) /\
        lazily_bound key_getExtent ts key layers').
    { intros layers0 Hn0 Hlazy0 Hnone. simpl. rewrite Hnone. apply IH; assumption. }
    assert (Hsample : forall layers0,
      (L <= length layers0)%nat ->
      lazily_bound key_getExtent ts key layers0 ->
      valid (bound key_getExtent key coverage) = true ->
      exists layers',
        (wrote ← sampleLayer NO_DATA_VALUE (bound key_getExtent key coverage)
                   (vec_get (_codemaps ts) L) u v;
         match wrote with
         | Some texel => Val (layers0, Some texel)
         | None => scanLayers NO_DATA_VALUE key_getExtent ts key L layers0 u v
         end)
        = Val (layers',
               option_map float_of_int
                 (composite_pixel NO_DATA_VALUE key_getExtent ts key (S L) u v)) /\
        lazily_bound key_getExtent ts key layers').
    { intros layers0 Hn0 Hlazy0 Hvalid.
      rewrite (sampleLayer_bound ts key L coverage u v Hts Hcov Hvalid).
      simpl.
      destruct (committed_by NO_DATA_VALUE key_getExtent ts key L u v) as [c |] eqn:Hc.
      - simpl. exists layers0. split; [reflexivity | exact Hlazy0].
      - simpl. apply IH; assumption. }
    simpl scanLayers. rewrite (vec_get_lookup _ _ _ Hlayer). simpl.
    destruct Hlazy as [Hlen Hinv].
    destruct (Hinv L layer coverage Hlayer Hcov) as [-> | ->].
    + (* a fresh layer: it is loaded now *)
      simpl. rewrite (vec_get_lookup _ _ _ Hcov). simpl.
      rewrite vec_set_lt by lia. simpl.
      fold (bound key_getExtent key coverage).
      assert (Hlazy' : lazily_bound key_getExtent ts key
                         (<[L := bound key_getExtent key coverage]> layers)).
      { apply lazily_bound_insert; [split; assumption | exact Hcov]. }
      destruct (valid (bound key_getExtent key coverage)) eqn:Hvalid; simpl.
      * apply Hsample; [rewrite length_insert; lia | exact Hlazy' | reflexivity].
      * apply Hskip; [rewrite length_insert; lia | exact Hlazy' |].
        eapply committed_by_invalid; eauto.
    + (* a layer bound by an earlier pixel *)
      destruct (bound_cases key coverage)
        as [(img & Hvalid & Himage & _) | [Hvalid Himage]].
      * rewrite Hvalid, Himage. simpl. rewrite Hvalid. simpl.
        apply Hsample; [lia | split; assumption | exact Hvalid].
      * rewrite Hvalid. simpl.
        apply Hskip; [lia | split; assumption |].
        eapply committed_by_invalid; eauto.
Qed.

(** ** The pixel loops *)

Lemma for_float_steps {St : Type} (body : float -> St -> res St)
    (d : float) (fuel : nat) :
  forall (x : float) (xs : list float) (s : St),
    steps fuel d x = Some xs ->
    for_float fuel d body x s = foldM body xs s.
Proof.
  induction fuel as [| fuel IH]; intros x xs s Hsteps; [discriminate |].
  simpl in *. destruct (fle x (float_of_int 1)).
  - destruct (steps fuel d (fadd x d)) as [rest |] eqn:Hrest; [| discriminate].
    injection Hsteps as <-. simpl.
    destruct (body x s) as [s' | |]; simpl; [| reflexivity | reflexivity].
    apply IH. exact Hrest.
  - injection Hsteps as <-. reflexivity.
Qed.

(** More fuel does not change a loop that ends. *)
Lemma steps_more_fuel (d : float) (fuel extra : nat) :
  forall (x : float) (xs : list float),
    steps fuel d x = Some xs -> steps (fuel + extra) d x = Some xs.
Proof.
  induction fuel as [| fuel IH]; intros x xs Hsteps; [discriminate |].
  simpl in *. destruct (fle x (float_of_int 1)); [| exact Hsteps].
  destruct (steps fuel d (fadd x d)) as [rest |] eqn:Hrest; [| discriminate].
  rewrite (IH _ _ Hrest). exact Hsteps.
Qed.

Lemma lazily_bound_new (ts : LandCoverTileSource) (key : TileKey) :
  lazily_bound key_getExtent ts key
    (replicate (length (_coverages ts)) ILayer_new).
Proof.
  split.
  - apply length_replicate.
  - intros L layer coverage Hlayer _.
    apply lookup_replicate in Hlayer as [-> _]. left. reflexivity.
Qed.

Lemma foldM_pixel (ts : LandCoverTileSource) (key : TileKey) (u : float)
    (vs : list float) :
  consistent ts ->
  forall (layers : list ILayer) (out : list PixelWrite),
    lazily_bound key_getExtent ts key layers ->
    exists layers',
      foldM (pixel NO_DATA_VALUE key_getExtent ts key u) vs (layers, out)
      = Val (layers',
             out ++ map (fun v =>
                           (u, v, pixel_value NO_DATA_VALUE key_getExtent ts key u v))
                        vs) /\
      lazily_bound key_getExtent ts key layers'.
Proof.
  intros Hts. induction vs as [| v vs IH]; intros layers out Hlazy.
  - exists layers. simpl. rewrite app_nil_r. split; [reflexivity | exact Hlazy].
  - destruct (scanLayers_spec ts key u v (length layers) Hts layers)
      as (layers1 & Hscan & Hlazy1); [lia | exact Hlazy |].
    assert (Hpixel : pixel NO_DATA_VALUE key_getExtent ts key u v (layers, out)
              = Val (layers1,
                     out ++ [(u, v,
                              default (nodata NO_DATA_VALUE ts)
                                (option_map float_of_int
                                   (composite_pixel NO_DATA_VALUE key_getExtent
                                      ts key (length layers) u v)))])).
    { unfold pixel. cbn [fst snd]. rewrite Hscan. reflexivity. }
    cbn [foldM]. rewrite Hpixel. cbn [mbind res_bind].
    destruct (IH layers1
                (out ++ [(u, v,
                          default (nodata NO_DATA_VALUE ts)
                            (option_map float_of_int
                               (composite_pixel NO_DATA_VALUE key_getExtent ts key
                                  (length layers) u v)))])
                Hlazy1)
      as (layers2 & Hfold & Hlazy2).
    exists layers2. split; [| exact Hlazy2].
    rewrite Hfold. rewrite <- app_assoc. simpl.
    unfold pixel_value. destruct Hlazy as [-> _]. reflexivity.
Qed.

Lemma foldM_rows (ts : LandCoverTileSource) (key : TileKey) (fuel : nat)
    (d : float) (us vs : list float) :
  consistent ts ->
  steps fuel d (float_of_int 0) = Some vs ->
  forall (layers : list ILayer) (out : list PixelWrite),
    lazily_bound key_getExtent ts key layers ->
    exists layers',
      foldM (fun u st =>
               for_float fuel d (pixel NO_DATA_VALUE key_getExtent ts key u)
                 (float_of_int 0) st)
            us (layers, out)
      = Val (layers', out ++ raster NO_DATA_VALUE key_getExtent ts key us vs) /\
      lazily_bound key_getExtent ts key layers'.
Proof.
  intros Hts Hvs. induction us as [| u us IH]; intros layers out Hlazy.
  - exists layers. simpl. rewrite app_nil_r. split; [reflexivity | exact Hlazy].
  - simpl foldM. rewrite (for_float_steps _ _ _ _ _ _ Hvs).
    destruct (foldM_pixel ts key u vs Hts layers out Hlazy)
      as (layers1 & Hrow & Hlazy1).
    rewrite Hrow. simpl.
    destruct (IH layers1
                (out ++ map (fun v =>
                               (u, v,
                                pixel_value NO_DATA_VALUE key_getExtent ts key u v))
                            vs)
                Hlazy1)
      as (layers2 & Hrest & Hlazy2).
    exists layers2. split; [| exact Hlazy2].
    rewrite Hrest. rewrite <- app_assoc. reflexivity.
Qed.

(** When its loops end, [createImage] returns the raster of the
    specification, one write for each pair of visited coordinates. *)
Lemma createImage_raster (ts : LandCoverTileSource) (key : TileKey)
    (fuel : nat) (us : list float) :
  consistent ts ->
  _coverages ts <> [] ->
  steps fuel (pixel_step ts) (float_of_int 0) = Some us ->
  createImage NO_DATA_VALUE key_getExtent fuel ts key
  = Val (Some (raster NO_DATA_VALUE key_getExtent ts key us us)).
Proof.
  intros Hts Hne Hus. unfold createImage.
  destruct (_coverages ts) as [| c cs] eqn:Hcovs; [congruence |].
  rewrite <- Hcovs. fold (pixel_step ts).
  rewrite (for_float_steps _ _ _ _ _ _ Hus).
  destruct (foldM_rows ts key fuel (pixel_step ts) us us Hts Hus _ []
              (lazily_bound_new ts key))
    as (layers & Hfold & _).
  rewrite Hfold. reflexivity.
Qed.

Lemma elem_of_raster (ts : LandCoverTileSource) (key : TileKey)
    (us vs : list float) (w : PixelWrite) :
  In w (raster NO_DATA_VALUE key_getExtent ts key us vs) <->
  exists u v, In u us /\ In v vs /\
    w = (u, v, pixel_value NO_DATA_VALUE key_getExtent ts key u v).
Proof.
  unfold raster. rewrite in_flat_map. split.
  - intros (u & Hu & Hw). apply in_map_iff in Hw as (v & <- & Hv). eauto.
  - intros (u & v & Hu & Hv & ->). exists u. split; [exact Hu |].
    apply in_map_iff. eauto.
Qed.

Lemma length_raster (ts : LandCoverTileSource) (key : TileKey)
    (us vs : list float) :
  length (raster NO_DATA_VALUE key_getExtent ts key us vs)
  = (length us * length vs)%nat.
Proof.
  unfold raster. induction us as [| u us IH]; [reflexivity |].
  cbn [flat_map]. rewrite length_app, length_map.
  change (length (u :: us) * length vs)%nat
    with (length vs + length us * length vs)%nat.
  f_equal. exact IH.
Qed.

(** The offer the scan settles on is that of the highest index making one. *)
Lemma composite_pixel_Some (ts : LandCoverTileSource) (key : TileKey)
    (u v : float) (n : nat) (c : Z) :
  composite_pixel NO_DATA_VALUE key_getExtent ts key n u v = Some c <->
  exists L, (L < n)%nat /\
    committed_by NO_DATA_VALUE key_getExtent ts key L u v = Some c /\
    forall L', (L < L' < n)%nat ->
      committed_by NO_DATA_VALUE key_getExtent ts key L' u v = None.
Proof.
  induction n as [| n IH]; simpl.
  - split; [discriminate | intros (L & HL & _); lia].
  - destruct (committed_by NO_DATA_VALUE key_getExtent ts key n u v) as [c' |] eqn:Hn.
    + split.
      * intros [= ->]. exists n. split; [lia |]. split; [exact Hn |].
        intros L' HL'. lia.
      * intros (L & HL & Hc & Habove).
        destruct (decide (L = n)) as [-> | Hne]; [congruence |].
        rewrite (Habove n) in Hn by lia. discriminate.
    + rewrite IH. split.
      * intros (L & HL & Hc & Habove). exists L. split; [lia |].
        split; [exact Hc |]. intros L' HL'.
        destruct (decide (L' = n)) as [-> | Hne]; [exact Hn |].
        apply Habove. lia.
      * intros (L & HL & Hc & Habove).
        assert (L <> n) by congruence.
        exists L. split; [lia |]. split; [exact Hc |].
        intros L' HL'. apply Habove. lia.
Qed.

Lemma composite_pixel_None (ts : LandCoverTileSource) (key : TileKey)
    (u v : float) (n : nat) :
  composite_pixel NO_DATA_VALUE key_getExtent ts key n u v = None <->
  forall L, (L < n)%nat ->
    committed_by NO_DATA_VALUE key_getExtent ts key L u v = None.
Proof.
  induction n as [| n IH]; simpl.
  - split; [intros _ L HL; lia | reflexivity].
  - destruct (committed_by NO_DATA_VALUE key_getExtent ts key n u v) as [c' |] eqn:Hn.
    + split; [discriminate |]. intros H. rewrite (H n) in Hn by lia. discriminate.
    + rewrite IH. split.
      * intros H L HL. destruct (decide (L = n)) as [-> | Hne]; [exact Hn |].
        apply H. lia.
      * intros H L HL. apply H. lia.
Qed.

End Properties.

(** ** Opening the coverages and attaching the dictionary *)

Section Lifecycle.

Context {num : Numerics}.

Lemma openCoverage_tables_empty (ts : LandCoverTileSource)
    (coverageOptions : LandCoverCoverageLayerOptions) :
  tables_empty ts -> tables_empty (openCoverage ts coverageOptions).
Proof.
  intros [[Hlen Hsizes] Hempty]. unfold openCoverage.
  destruct (negb (enabled coverageOptions)); [repeat split; assumption |].
  destruct (opens coverageOptions); [| repeat split; assumption].
  repeat split; simpl.
  - rewrite !length_app, Hlen. reflexivity.
  - apply Forall_app. split; [exact Hsizes |].
    constructor; [| constructor]. simpl. unfold vector_max_size. lia.
  - apply Forall_app. split; [exact Hempty |]. repeat constructor.
Qed.

Lemma fold_openCoverage_tables_empty
    (l : list LandCoverCoverageLayerOptions) :
  forall ts, tables_empty ts -> tables_empty (fold_left openCoverage l ts).
Proof.
  induction l as [| o l IH]; intros ts Hts; [exact Hts |].
  simpl. apply IH. apply openCoverage_tables_empty. exact Hts.
Qed.

(** After [initialize] every coverage has an empty code map. *)
Lemma initialize_tables_empty (options : LandCoverLayerOptions) (tilesize : Z) :
  tables_empty (initialize (LandCoverTileSource_new options tilesize)).
Proof.
  unfold initialize. apply fold_openCoverage_tables_empty.
  repeat split; simpl; constructor.
Qed.

(** Coverages that are disabled or fail to open are not kept. *)
Lemma fold_openCoverage_skip (l : list LandCoverCoverageLayerOptions) :
  Forall (fun coverageOptions =>
            enabled coverageOptions = false \/ opens coverageOptions = false) l ->
  forall ts, fold_left openCoverage l ts = ts.
Proof.
  induction l as [| o l IH]; intros Hall ts; [reflexivity |].
  apply Forall_cons in Hall as [Ho Hl]. cbn [fold_left].
  assert (Hskip : openCoverage ts o = ts).
  { unfold openCoverage. destruct Ho as [-> | ->]; [reflexivity |].
    destruct (negb (enabled o)); reflexivity. }
  rewrite Hskip. apply IH. exact Hl.
Qed.

Lemma initialize_no_coverages (options : LandCoverLayerOptions) (tilesize : Z) :
  Forall (fun coverageOptions =>
            enabled coverageOptions = false \/ opens coverageOptions = false)
         (coverages options) ->
  _coverages (initialize (LandCoverTileSource_new options tilesize)) = [].
Proof.
  intros Hall. unfold initialize. cbn [_options LandCoverTileSource_new].
  rewrite fold_openCoverage_skip by exact Hall. reflexivity.
Qed.

(** Attaching an absent dictionary leaves every code map as it was. *)
Lemma setDictionary_loop_absent (todo : nat) :
  forall (i : nat) (coverages : list LandCoverCoverageLayer)
         (codemaps : list (list Z)),
    (i + todo <= length coverages)%nat ->
    length codemaps = length coverages ->
    exists coverages',
      setDictionary_loop todo i None coverages codemaps
      = Val (coverages', codemaps) /\
      length coverages' = length coverages.
Proof.
  induction todo as [| todo IH]; intros i coverages codemaps Hi Hlen.
  - exists coverages. split; reflexivity.
  - destruct (lookup_lt_is_Some_2 coverages i) as [c Hc]; [lia |].
    destruct (lookup_lt_is_Some_2 codemaps i) as [codemap Hcodemap]; [lia |].
    cbn [setDictionary_loop].
    rewrite (vec_get_lookup _ _ _ Hc). cbn [mbind res_bind].
    rewrite vec_set_lt by lia. cbn [mbind res_bind].
    rewrite (vec_get_lookup _ _ _ Hcodemap). cbn [mbind res_bind].
    cbn [buildCodeMap coverage_setDictionary getDictionary mbind res_bind].
    rewrite vec_set_lt by lia. cbn [mbind res_bind].
    rewrite (list_insert_id _ _ _ Hcodemap).
    destruct (IH (S i) (<[i := coverage_setDictionary c None]> coverages) codemaps)
      as (coverages' & Hloop & Hlen').
    + rewrite length_insert. lia.
    + rewrite length_insert. exact Hlen.
    + exists coverages'. split; [exact Hloop |].
      rewrite Hlen', length_insert. reflexivity.
Qed.

Lemma setDictionary_absent (ts : LandCoverTileSource) :
  tables_empty ts ->
  exists ts',
    setDictionary ts None = Val ts' /\
    _codemaps ts' = _codemaps ts /\ tables_empty ts'.
Proof.
  intros [[Hlen Hsizes] Hempty]. unfold setDictionary.
  destruct (setDictionary_loop_absent (length (_coverages ts)) 0
              (_coverages ts) (_codemaps ts))
    as (coverages' & Hloop & Hlen'); [lia | exact Hlen |].
  rewrite Hloop. cbn [mbind res_bind].
  eexists. split; [reflexivity |]. split; [reflexivity |].
  repeat split; simpl; [congruence | exact Hsizes | exact Hempty].
Qed.

End Lifecycle.

(** ** Compositing *)

Section Compositing.

Context {num : Numerics}.
Variable NO_DATA_VALUE : float.
Variable key_getExtent : TileKey -> GeoExtent.


Lemma pixel_value_no_offer (ts : LandCoverTileSource) (key : TileKey)
    (u v : float) :
  (forall L, (L < length (_coverages ts))%nat ->
     committed_by NO_DATA_VALUE key_getExtent ts key L u v = None) ->
  pixel_value NO_DATA_VALUE key_getExtent ts key u v = nodata NO_DATA_VALUE ts.
Proof.
  intros Hnone. unfold pixel_value.
  assert (Hpix : composite_pixel NO_DATA_VALUE key_getExtent ts key
                   (length (_coverages ts)) u v = None).
  { apply composite_pixel_None. exact Hnone. }
  rewrite Hpix. reflexivity.
Qed.


(** C7. The guarded read of a code map never leaves the vector, whatever
    the code; a code at or beyond the length of the table is unmapped, and
    the coverage then writes nothing, so that the scan goes on to the next
    coverage. *)
Theorem lookup_code_in_bounds (codemap : list Z) (code : Z) :
  (INT_MIN <= code <= INT_MAX)%Z ->
  (exists r, lookup_code codemap code = Val r) /\
  ((Z.of_nat (length codemap) <= code)%Z ->
   lookup_code codemap code = Val None /\
   forall layer u v sample,
     read layer = Some sample ->
     decode (sample (mapped layer u v).1 (mapped layer u v).2) = code ->
     sampleLayer NO_DATA_VALUE layer (Val codemap) u v = Val None).
Proof.
  intros Hint. split; [apply lookup_code_defined |].
  intros Hlen.
  assert (Hnone : lookup_code codemap code = Val None).
  { unfold lookup_code.
    rewrite size_t_of_int_nonneg by lia.
    destruct (code <? Z.of_nat (length codemap))%Z eqn:Hlt; [| reflexivity].
    apply Z.ltb_lt in Hlt. lia. }
  split; [exact Hnone |].
  intros layer u v sample Hread Hcode.
  unfold sampleLayer. fold (mapped layer u v).
  destruct (fge _ _ && fle _ _ && fge _ _ && fle _ _); [| reflexivity].
  rewrite Hread. cbn [deref mbind res_bind].
  destruct (negb (feq _ NO_DATA_VALUE)); [| reflexivity].
  cbn [mbind res_bind]. unfold mapped in Hcode. cbn [fst snd] in Hcode.
  rewrite Hcode, Hnone. reflexivity.
Qed.

Lemma committed_by_tables_empty (ts : LandCoverTileSource) (key : TileKey)
    (L : nat) (u v : float) :
  Forall (fun codemap => codemap = []) (_codemaps ts) ->
  committed_by NO_DATA_VALUE key_getExtent ts key L u v = None.
Proof.
  intros Hempty. unfold committed_by.
  destruct (_coverages ts !! L); [| reflexivity].
  destruct (_codemaps ts !! L) as [table |] eqn:Htable; [| reflexivity].
  eapply Forall_lookup_1 in Hempty; [| exact Htable]. subst table.
  destruct (read _); [| reflexivity].
  rewrite translate_empty. destruct (_ && _); reflexivity.
Qed.

(** If the dictionary was never attached, or the code maps are all
    empty, then whenever the pixel loops end [createImage] makes a write
    for every pair of visited coordinates and every write carries the
    no-data texel. *)
Lemma createImage_tables_empty (ts : LandCoverTileSource) (key : TileKey)
    (fuel : nat) (us : list float) :
  never_attached ts \/ tables_empty ts ->
  _coverages ts <> [] ->
  steps fuel (pixel_step ts) (float_of_int 0) = Some us ->
  exists out,
    createImage NO_DATA_VALUE key_getExtent fuel ts key = Val (Some out) /\
    (forall u v, In u us -> In v us ->
       In (u, v, nodata NO_DATA_VALUE ts) out) /\
    forall w, In w out -> w.2 = nodata NO_DATA_VALUE ts.
Proof.
  intros Hcase Hne Hus.
  assert (Hempty : tables_empty ts).
  { destruct Hcase as [(options & tilesize & ->) | H]; [| exact H].
    apply initialize_tables_empty. }
  destruct Hempty as [Hts Hempty].
  assert (Hpixel : forall u v,
            pixel_value NO_DATA_VALUE key_getExtent ts key u v
            = nodata NO_DATA_VALUE ts).
  { intros u v. apply pixel_value_no_offer. intros L _.
    apply committed_by_tables_empty. exact Hempty. }
  exists (raster NO_DATA_VALUE key_getExtent ts key us us).
  split; [apply createImage_raster; assumption |]. split.
  - intros u v Hu Hv. apply elem_of_raster. exists u, v.
    rewrite Hpixel. auto.
  - intros w Hin.
    apply elem_of_raster in Hin as (u & v & _ & _ & ->). apply Hpixel.
Qed.

(** Whenever the pixel loops end, [createImage] makes a write for every
    pair of visited coordinates for which no coverage makes an offer, and
    a write for such a pair carries [-32768] when [bits] is set to 16, and
    [NO_DATA_VALUE] otherwise. *)
Lemma createImage_nodata (ts : LandCoverTileSource) (key : TileKey)
    (fuel : nat) (us : list float) :
  consistent ts ->
  _coverages ts <> [] ->
  steps fuel (pixel_step ts) (float_of_int 0) = Some us ->
  exists out,
    createImage NO_DATA_VALUE key_getExtent fuel ts key = Val (Some out) /\
    map fst out = list_prod us us /\
    (forall u v, In u us -> In v us ->
       (forall L, (L < length (_coverages ts))%nat ->
          committed_by NO_DATA_VALUE key_getExtent ts key L u v = None) ->
       In (u, v, nodata NO_DATA_VALUE ts) out) /\
    (bits (_options ts) = Some 16%Z ->
     nodata NO_DATA_VALUE ts = float_of_int (-32768)) /\
    (bits (_options ts) <> Some 16%Z ->
     nodata NO_DATA_VALUE ts = NO_DATA_VALUE) /\
    forall u v texel, In (u, v, texel) out ->
      (forall L, (L < length (_coverages ts))%nat ->
         committed_by NO_DATA_VALUE key_getExtent ts key L u v = None) ->
      texel = nodata NO_DATA_VALUE ts.
Proof.
  intros Hts Hne Hus.
  exists (raster NO_DATA_VALUE key_getExtent ts key us us).
  split; [apply createImage_raster; assumption |].
  split.
  { generalize us at 1 3. intros xs. unfold raster.
    induction xs as [| x xs IH]; [reflexivity |].
    cbn [flat_map list_prod]. rewrite map_app, IH. f_equal.
    rewrite map_map. reflexivity. }
  split.
  { intros u v Hu Hv Hnone. apply elem_of_raster. exists u, v.
    rewrite (pixel_value_no_offer ts key u v Hnone). auto. }
  split.
  { intros Hbits. unfold nodata, isSetTo. rewrite Hbits. reflexivity. }
  split.
  { intros Hbits. unfold nodata, isSetTo.
    destruct (bits (_options ts)) as [b |]; [| reflexivity].
    destruct (b =? 16)%Z eqn:Hb; [| reflexivity].
    apply Z.eqb_eq in Hb. congruence. }
  intros u v texel Hin Hnone.
  apply elem_of_raster in Hin as (u' & v' & _ & _ & [= <- <- ->]).
  apply pixel_value_no_offer. exact Hnone.
Qed.

(** C10. With no opened coverage [createImage] returns the null image,
    for every tile key. *)
Theorem createImage_no_coverages (ts : LandCoverTileSource) (key : TileKey)
    (fuel : nat) :
  _coverages ts = [] ->
  createImage NO_DATA_VALUE key_getExtent fuel ts key = Val None.
Proof. intros Hnone. unfold createImage. rewrite Hnone. reflexivity. Qed.

End Compositing.

(** ** Two coverages in single precision *)

Lemma attached_consistent (bits : option Z) (tilesize : Z)
    (low high : spec_float) :
  consistent (Single.attached bits tilesize low high).
Proof.
  split; [reflexivity |]. repeat constructor; vm_compute; discriminate.
Defined.

(** The source of [Single.attached] is what [initialize] and
    [setDictionary] make of its options. *)
Lemma attached_setDictionary (bits : option Z) (tilesize : Z)
    (low high : spec_float) :
  setDictionary (Single.opened bits tilesize low high) (Some Single.dictionary)
  = Val (Single.attached bits tilesize low high).
Proof. reflexivity. Qed.


(** ** Building a code map *)

Section CodeMaps.

Context {num : Numerics}.

Lemma fold_highest_ge (mappings : list LandCoverValueMapping) :
  forall h,
    let r := fold_left (fun h mapping =>
                          if (getValue mapping >? h)%Z then getValue mapping else h)
                       mappings h in
    (h <= r)%Z /\ Forall (fun mapping => (getValue mapping <= r)%Z) mappings.
Proof.
  induction mappings as [| m rest IH]; intros h; simpl.
  - split; [lia | constructor].
  - destruct (IH (if (getValue m >? h)%Z then getValue m else h)) as [Hge Hall].
    destruct (getValue m >? h)%Z eqn:Hgt;
      [apply Z.gtb_lt in Hgt | rewrite Z.gtb_ltb in Hgt; apply Z.ltb_ge in Hgt];
      (split; [lia | constructor; [lia | exact Hall]]).
Qed.

Lemma fold_highest_attained (mappings : list LandCoverValueMapping) :
  forall h,
    let r := fold_left (fun h mapping =>
                          if (getValue mapping >? h)%Z then getValue mapping else h)
                       mappings h in
    r = h \/ Exists (fun mapping => getValue mapping = r) mappings.
Proof.
  induction mappings as [| m rest IH]; intros h; simpl; [left; reflexivity |].
  destruct (IH (if (getValue m >? h)%Z then getValue m else h)) as [Heq | Hex].
  - destruct (getValue m >? h)%Z.
    + right. constructor. congruence.
    + left. exact Heq.
  - right. apply Exists_cons_tl. exact Hex.
Qed.

(** With non-negative source values, [highestValue] is their maximum. *)
Lemma highestValue_max (mappings : list LandCoverValueMapping) :
  Forall (fun mapping => (0 <= getValue mapping)%Z) mappings ->
  (0 <= highestValue mappings)%Z /\
  Forall (fun mapping => (getValue mapping <= highestValue mappings)%Z) mappings /\
  (mappings <> [] ->
   Exists (fun mapping => getValue mapping = highestValue mappings) mappings).
Proof.
  intros Hnonneg. unfold highestValue.
  pose proof (fold_highest_ge mappings 0) as [Hge Hall].
  pose proof (fold_highest_attained mappings 0) as Hattained.
  cbv zeta in Hattained.
  set (r := fold_left _ mappings 0%Z) in *. clearbody r.
  split; [exact Hge |]. split; [exact Hall |].
  intros Hne.
  destruct Hattained as [Hzero | Hex]; [| exact Hex].
  destruct mappings as [| m rest]; [congruence |].
  apply Forall_cons in Hnonneg as [Hm _].
  apply Forall_cons in Hall as [Hm' _].
  constructor. lia.
Qed.

(** The second loop of [buildCodeMap] writes, at each source value, the
    class of the last mapping of that value whose class name resolves, and
    leaves every other entry as it was. *)
Lemma fillCodeMap_spec (dict : LandCoverDictionary)
    (mappings : list LandCoverValueMapping) :
  forall codemap : list Z,
    Forall (fun mapping =>
              (0 <= getValue mapping < Z.of_nat (length codemap))%Z) mappings ->
    (Z.of_nat (length codemap) <= 2 ^ 31)%Z ->
    exists table,
      fillCodeMap dict mappings codemap = Val table /\
      length table = length codemap /\
      (forall i : nat,
          (forall mapping, In mapping mappings ->
             getValue mapping = Z.of_nat i ->
             getClass dict (getLandCoverClassName mapping) = None) ->
          table !! i = codemap !! i) /\
      (forall before mapping after c,
          mappings = before ++ mapping :: after ->
          getClass dict (getLandCoverClassName mapping) = Some c ->
          (forall later, In later after ->
             getValue later = getValue mapping ->
             getClass dict (getLandCoverClassName later) = None) ->
          table !! Z.to_nat (getValue mapping) = Some c).
Proof.
  induction mappings as [| m rest IH]; intros codemap Hrange Hsize.
  - exists codemap. split; [reflexivity |]. split; [reflexivity |].
    split; [reflexivity |].
    intros [| m' before] mapping after c Heq; discriminate.
  - apply Forall_cons in Hrange as [Hm Hrest].
    assert (Hidx : Z.to_nat (size_t_of_int (getValue m)) = Z.to_nat (getValue m)).
    { unfold size_t_of_int. rewrite Z.mod_small; lia. }
    cbn [fillCodeMap].
    destruct (getClass dict (getLandCoverClassName m)) as [c0 |] eqn:Hclass.
    + rewrite Hidx, vec_set_lt by lia. cbn [mbind res_bind].
      destruct (IH (<[Z.to_nat (getValue m) := c0]> codemap))
        as (table & Hfill & Hlen & Hkeep & Hset).
      { rewrite length_insert. exact Hrest. }
      { rewrite length_insert. exact Hsize. }
      exists table. split; [exact Hfill |].
      split; [rewrite Hlen; apply length_insert |]. split.
      * intros i Hnone. rewrite Hkeep.
        -- apply list_lookup_insert_ne. intros Heq.
           specialize (Hnone m (or_introl eq_refl)).
           rewrite Hnone in Hclass; [discriminate | lia].
        -- intros mapping Hin. apply Hnone. right. exact Hin.
      * intros [| m' before] mapping after c Heq Hc Hlater.
        -- injection Heq as <- <-.
           rewrite Hkeep.
           ++ rewrite list_lookup_insert_eq by lia. congruence.
           ++ intros later Hin Hval. apply Hlater; [exact Hin | lia].
        -- injection Heq as <- ->. eapply Hset; eauto.
    + destruct (IH codemap Hrest Hsize) as (table & Hfill & Hlen & Hkeep & Hset).
      exists table. split; [exact Hfill |]. split; [exact Hlen |]. split.
      * intros i Hnone. apply Hkeep.
        intros mapping Hin. apply Hnone. right. exact Hin.
      * intros [| m' before] mapping after c Heq Hc Hlater.
        -- injection Heq as <- <-. congruence.
        -- injection Heq as <- ->. eapply Hset; eauto.
Qed.

(** C6. With a dictionary and source values that are non-negative
    [int]s, [buildCodeMap] makes a table of length [maxRaw + 1], where
    [maxRaw] is the highest source value of the mappings; an entry is the
    dictionary code of the last mapping of its index whose class name
    resolves, and [-1] when no mapping of its index resolves. Without a
    dictionary the code map is left as it was, and on an empty code map
    every lookup is unmapped. *)
Theorem buildCodeMap_table (coverage : LandCoverCoverageLayer)
    (codemap : list Z) :
  Forall (fun mapping => (0 <= getValue mapping < INT_MAX)%Z)
         (getMappings coverage) ->
  match getDictionary coverage with
  | Some dict =>
      exists table,
        buildCodeMap (Some coverage) codemap = Val table /\
        length table = Z.to_nat (highestValue (getMappings coverage) + 1) /\
        Forall (fun mapping =>
                  (getValue mapping <= highestValue (getMappings coverage))%Z)
               (getMappings coverage) /\
        (getMappings coverage <> [] ->
         Exists (fun mapping =>
                   getValue mapping = highestValue (getMappings coverage))
                (getMappings coverage)) /\
        (forall i : nat,
            (i < length table)%nat ->
            (forall mapping, In mapping (getMappings coverage) ->
               getValue mapping = Z.of_nat i ->
               getClass dict (getLandCoverClassName mapping) = None) ->
            table !! i = Some (-1)%Z) /\
        (forall before mapping after c,
            getMappings coverage = before ++ mapping :: after ->
            getClass dict (getLandCoverClassName mapping) = Some c ->
            (forall later, In later after ->
               getValue later = getValue mapping ->
               getClass dict (getLandCoverClassName later) = None) ->
            table !! Z.to_nat (getValue mapping) = Some c)
  | None =>
      buildCodeMap (Some coverage) codemap = Val codemap /\
      (codemap = [] -> forall code, lookup_code codemap code = Val None)
  end.
Proof.
  intros Hvalues. unfold buildCodeMap.
  destruct (getDictionary coverage) as [dict |].
  - set (mappings := getMappings coverage) in *.
    destruct (highestValue_max mappings) as (Hzero & Hall & Hattained).
    { eapply Forall_impl; [exact Hvalues |]. intros m Hm. simpl in Hm. lia. }
    assert (Hhigh : (highestValue mappings < INT_MAX)%Z).
    { clear - Hvalues Hattained. clearbody mappings.
      destruct mappings as [| m rest]; [vm_compute; reflexivity |].
      specialize (Hattained ltac:(discriminate)).
      apply List.Exists_exists in Hattained as (m' & Hin & Hm').
      rewrite List.Forall_forall in Hvalues. specialize (Hvalues m' Hin).
      cbv beta in Hvalues. lia. }
    unfold int_succ. apply Z.ltb_lt in Hhigh as Hltb. rewrite Hltb.
    cbn [mbind res_bind].
    assert (Hsz : size_t_of_int (highestValue mappings + 1)
                  = (highestValue mappings + 1)%Z).
    { unfold size_t_of_int, INT_MAX in *. rewrite Z.mod_small; lia. }
    rewrite Hsz.
    destruct (fillCodeMap_spec dict mappings
                (replicate (Z.to_nat (highestValue mappings + 1)) (-1)%Z))
      as (table & Hfill & Hlen & Hkeep & Hset).
    { rewrite length_replicate. apply List.Forall_forall. intros m Hin.
      pose proof (proj1 (List.Forall_forall _ _) Hvalues m Hin) as Hv.
      pose proof (proj1 (List.Forall_forall _ _) Hall m Hin) as Hle.
      cbv beta in Hv, Hle. lia. }
    { rewrite length_replicate. unfold INT_MAX in *. lia. }
    rewrite length_replicate in Hlen.
    exists table. split; [exact Hfill |]. split; [exact Hlen |].
    split; [exact Hall |]. split; [exact Hattained |]. split; [| exact Hset].
    intros i Hi Hnone. rewrite (Hkeep i Hnone).
    apply lookup_replicate_2. lia.
  - split; [reflexivity |]. intros -> code. unfold lookup_code.
    destruct (size_t_of_int code <? Z.of_nat (length []))%Z eqn:Hlt;
      [| reflexivity].
    apply Z.ltb_lt in Hlt. pose proof (size_t_of_int_range code). simpl in Hlt. lia.
Qed.

End CodeMaps.

(** ** Resolving a coverage binding *)

Lemma nth_parent_S (i : nat) (key : TileKey) :
  nth_parent (S i) key = createParentKey key ≫= nth_parent i.
Proof.
  unfold nth_parent. rewrite Nat.iter_succ_r. cbn [mbind option_bind].
  destruct (createParentKey key) as [p |]; [reflexivity |].
  induction i as [| i IH]; [reflexivity |]. simpl. rewrite IH. reflexivity.
Qed.

Section Binding.

Context {num : Numerics}.
Variable key_getExtent : TileKey -> GeoExtent.

(** The walk stops at the first address, from the key upward, for which
    the provider yields an image; it yields nothing only when no address
    up to the root does. It asks the provider at least once. *)
Lemma ancestor_walk_spec (fetch : TileKey -> option GeoImage) (lod : nat) :
  forall x y,
    let key := mkTileKey lod x y in
    match ancestor_walk fetch lod x y with
    | (Some img, asked) =>
        asked <> [] /\
        exists i A,
          nth_parent i key = Some A /\ fetch A = Some img /\
          forall j A', (j < i)%nat -> nth_parent j key = Some A' -> fetch A' = None
    | (None, asked) =>
        asked <> [] /\
        forall i A, nth_parent i key = Some A -> fetch A = None
    end.
Proof.
  induction lod as [| lod IH]; intros x y key; cbn [ancestor_walk]; fold key.
  - destruct (fetch key) as [img |] eqn:Hfetch.
    + split; [discriminate |]. exists 0%nat, key.
      split; [reflexivity |]. split; [exact Hfetch |]. intros j A' Hj. lia.
    + split; [discriminate |]. intros [| i] A HA.
      * injection HA as <-. exact Hfetch.
      * rewrite nth_parent_S in HA. discriminate.
  - destruct (fetch key) as [img |] eqn:Hfetch.
    + split; [discriminate |]. exists 0%nat, key.
      split; [reflexivity |]. split; [exact Hfetch |]. intros j A' Hj. lia.
    + specialize (IH (x / 2)%N (y / 2)%N). cbv zeta in IH.
      destruct (ancestor_walk fetch lod (x / 2)%N (y / 2)%N) as [[img |] asked].
      * destruct IH as (_ & i & A & HA & Himg & Hfirst).
        split; [discriminate |]. exists (S i), A.
        split; [rewrite nth_parent_S; exact HA |]. split; [exact Himg |].
        intros [| j] A' Hj HA'.
        -- injection HA' as <-. exact Hfetch.
        -- rewrite nth_parent_S in HA'. apply (Hfirst j A'); [lia | exact HA'].
      * destruct IH as [_ IH]. split; [discriminate |].
        intros [| i] A HA.
        -- injection HA as <-. exact Hfetch.
        -- rewrite nth_parent_S in HA. apply (IH i A). exact HA.
Qed.

Lemma load_guard_valid (key : TileKey) (coverage : LandCoverCoverageLayer) :
  getEnabled coverage && getVisible coverage
  && isKeyInLegalRange coverage key = true ->
  (load key_getExtent key coverage ILayer_new).2 <> [] /\
  (valid (bound key_getExtent key coverage) = true <->
   exists i A img,
     nth_parent i key = Some A /\ layer_createImage coverage A = Some img).
Proof.
  intros Hguard. unfold bound, load. rewrite Hguard. cbn [image ILayer_new].
  pose proof (ancestor_walk_spec (layer_createImage coverage)
                (getLOD key) (getTileX key) (getTileY key)) as Hwalk.
  cbv zeta in Hwalk.
  replace (mkTileKey (getLOD key) (getTileX key) (getTileY key)) with key
    in Hwalk by (destruct key; reflexivity).
  destruct (ancestor_walk _ _ _ _) as [[img |] asked]; cbn [fst snd valid].
  - destruct Hwalk as (Hasked & i & A & HA & Himg & _).
    split; [exact Hasked |]. split; [eauto | reflexivity].
  - destruct Hwalk as [Hasked Hnone]. split; [exact Hasked |].
    split; [discriminate |]. intros (i & A & img & HA & Himg).
    rewrite (Hnone i A HA) in Himg. discriminate.
Qed.

(** C4 (amended). A binding comes back, and only then, when the coverage
    is enabled and visible, the address lies in its legal range and its
    provider yields an image for the address or one of its ancestors.
    When the coverage is disabled or not visible, or the address is out
    of its legal range, the binding is absent and the provider was not
    asked. *)
Theorem load_preconditions (key : TileKey) (coverage : LandCoverCoverageLayer) :
  (getEnabled coverage && getVisible coverage
   && isKeyInLegalRange coverage key = false ->
   load key_getExtent key coverage ILayer_new
   = (mkILayer None (float_of_int 1) (float_of_int 0, float_of_int 0) false None,
      [])) /\
  (getEnabled coverage && getVisible coverage
   && isKeyInLegalRange coverage key = true ->
   (load key_getExtent key coverage ILayer_new).2 <> [] /\
   (valid (bound key_getExtent key coverage) = true <->
    exists i A img,
      nth_parent i key = Some A /\ layer_createImage coverage A = Some img)).
Proof.
  split; intros Hguard.
  - unfold load. rewrite Hguard. reflexivity.
  - apply load_guard_valid. exact Hguard.
Qed.

(** The binding of a coverage whose provider first yields at the [i]-th
    ancestor [A]. *)
Lemma bound_first_yield (key : TileKey) (coverage : LandCoverCoverageLayer)
    (i : nat) (A : TileKey) (img : GeoImage) :
  getEnabled coverage && getVisible coverage
  && isKeyInLegalRange coverage key = true ->
  nth_parent i key = Some A ->
  layer_createImage coverage A = Some img ->
  (forall j A', (j < i)%nat -> nth_parent j key = Some A' ->
     layer_createImage coverage A' = None) ->
  bound key_getExtent key coverage
  = mkILayer (Some img)
      (float_of_double (ddiv (width (key_getExtent key)) (width (getExtent img))))
      (float_of_double
         (ddiv (dsub (xMin (key_getExtent key)) (xMin (getExtent img)))
               (width (getExtent img))),
       float_of_double
         (ddiv (dsub (yMin (key_getExtent key)) (yMin (getExtent img)))
               (height (getExtent img))))
      true (Some (readPixel img)).
Proof.
  intros Hguard HA Himg Hfirst.
  unfold bound, load. rewrite Hguard. cbn [image ILayer_new].
  pose proof (ancestor_walk_spec (layer_createImage coverage)
                (getLOD key) (getTileX key) (getTileY key)) as Hwalk.
  cbv zeta in Hwalk.
  replace (mkTileKey (getLOD key) (getTileX key) (getTileY key)) with key
    in Hwalk by (destruct key; reflexivity).
  destruct (ancestor_walk _ _ _ _) as [[img' |] asked]; cbn [fst].
  - destruct Hwalk as (_ & i' & A' & HA' & Himg' & Hfirst').
    assert (i' = i) as ->.
    { destruct (lt_eq_lt_dec i' i) as [[Hlt | Heq] | Hgt]; [| exact Heq |].
      - rewrite (Hfirst i' A' Hlt HA') in Himg'. discriminate.
      - rewrite (Hfirst' i A Hgt HA) in Himg. discriminate. }
    assert (A' = A) as -> by congruence.
    assert (img' = img) as -> by congruence.
    reflexivity.
  - destruct Hwalk as [_ Hnone]. rewrite (Hnone i A HA) in Himg. discriminate.
Qed.

End Binding.

(** ** The affine map of a binding, over the rationals *)

Lemma ratio_in_unit (we wa xe xa : Q) :
  (0 < we -> 0 < wa -> xa <= xe -> xe + we <= xa + wa ->
   0 < we / wa <= 1)%Q.
Proof.
  intros Hwe Hwa Hlo Hhi. split.
  - apply Qlt_shift_div_l; [exact Hwa | lra].
  - apply Qle_shift_div_r; [exact Hwa | lra].
Qed.

Lemma affine_in_unit (we wa xe xa u : Q) :
  (0 < we -> 0 < wa -> xa <= xe -> xe + we <= xa + wa -> 0 <= u <= 1 ->
   0 <= we / wa * u + (xe - xa) / wa <= 1)%Q.
Proof.
  intros Hwe Hwa Hlo Hhi Hu.
  assert (Heq : (we / wa * u + (xe - xa) / wa == (we * u + (xe - xa)) / wa)%Q).
  { field. lra. }
  rewrite Heq. split.
  - apply Qle_shift_div_l; [exact Hwa | nra].
  - apply Qle_shift_div_r; [exact Hwa | nra].
Qed.

Lemma same_ratio (we wa he ha : Q) :
  (0 < wa -> 0 < ha -> we * ha == he * wa -> we / wa == he / ha)%Q.
Proof. intros Hwa Hha Heq. field_simplify_eq; [| lra]. rewrite Heq. ring. Qed.

(** Over the rationals, that is with the quotients taken exactly and
    nothing narrowed: when the first image comes from the address [A],
    [scale], [bias.x] and [bias.y] are the three quotients, and when the
    tile's extent is nested in the extent of [A], with the same
    proportions, [scale] lies in (0, 1] and the unit square of the tile
    is mapped into the unit square of the image. *)
Lemma bound_over_rationals (key_getExtent : TileKey -> @GeoExtent exact)
    (key : TileKey) (coverage : @LandCoverCoverageLayer exact) :
  getEnabled coverage && getVisible coverage
  && isKeyInLegalRange coverage key = true ->
  let b := bound key_getExtent key coverage in
  ((forall i A, nth_parent i key = Some A -> layer_createImage coverage A = None) ->
   valid b = false /\ image b = None) /\
  (forall i A img,
     nth_parent i key = Some A ->
     layer_createImage coverage A = Some img ->
     (forall j A', (j < i)%nat -> nth_parent j key = Some A' ->
        layer_createImage coverage A' = None) ->
     getExtent img = key_getExtent A ->
     let e := key_getExtent key in
     let a := key_getExtent A in
     valid b = true /\ image b = Some img /\
     scale b = (width e / width a)%Q /\
     (bias b).1 = ((xMin e - xMin a) / width a)%Q /\
     (bias b).2 = ((yMin e - yMin a) / height a)%Q /\
     (Spec.nested_in e a ->
      (0 < scale b <= 1)%Q /\
      forall u v : Q, (0 <= u <= 1)%Q -> (0 <= v <= 1)%Q ->
        (0 <= (mapped b u v).1 <= 1)%Q /\ (0 <= (mapped b u v).2 <= 1)%Q)).
Proof.
  intros Hguard b. split.
  - intros Hnone.
    destruct (bound_cases key_getExtent key coverage)
      as [(img & Hvalid & _) | Hinv]; [| exact Hinv].
    apply (proj2 (load_guard_valid key_getExtent key coverage Hguard)) in Hvalid
      as (i & A & img' & HA & Himg).
    rewrite (Hnone i A HA) in Himg. discriminate.
  - intros i A img HA Himg Hfirst Hextent e a.
    assert (Hb : b = mkILayer (Some img)
                       (width e / width a)%Q
                       (((xMin e - xMin a) / width a)%Q,
                        ((yMin e - yMin a) / height a)%Q)
                       true (Some (readPixel img))).
    { unfold b. rewrite (bound_first_yield key_getExtent key coverage i A img
                           Hguard HA Himg Hfirst).
      rewrite Hextent. reflexivity. }
    rewrite Hb. cbn [valid image scale bias fst snd].
    repeat (split; [reflexivity |]).
    intros (Hwe & Hhe & Hwa & Hha & Hx0 & Hx1 & Hy0 & Hy1 & Hratio).
    split; [apply (ratio_in_unit _ _ (xMin e) (xMin a)); assumption |].
    intros u v Hu Hv. unfold mapped. cbn [scale bias fst snd fadd fmul exact].
    split.
    + apply affine_in_unit; assumption.
    + rewrite (same_ratio _ _ _ _ Hwa Hha Hratio).
      apply affine_in_unit; assumption.
Qed.

(** Containment alone does not keep the mapped square in the unit
    square: [scale] is a ratio of widths and is applied to [v] too. Here
    the tile is the upper half of its parent, and [v = 1] is mapped to
    3/2. *)
Example contained_not_proportional :
  (xMin (Exact.halves_extent Exact.root) <= xMin (Exact.halves_extent (mkTileKey 1 0 0))
   /\ xMin (Exact.halves_extent (mkTileKey 1 0 0))
      + width (Exact.halves_extent (mkTileKey 1 0 0))
      <= xMin (Exact.halves_extent Exact.root) + width (Exact.halves_extent Exact.root)
   /\ yMin (Exact.halves_extent Exact.root) <= yMin (Exact.halves_extent (mkTileKey 1 0 0))
   /\ yMin (Exact.halves_extent (mkTileKey 1 0 0))
      + height (Exact.halves_extent (mkTileKey 1 0 0))
      <= yMin (Exact.halves_extent Exact.root) + height (Exact.halves_extent Exact.root))%Q
  /\ valid Exact.halves_binding = true
  /\ ((mapped Exact.halves_binding 1%Q 1%Q).2 == 3 # 2)%Q.
Proof. repeat split; discriminate. Qed.

(** ** A quad grid is correctly nested *)

Lemma nested_in_refl (e : @GeoExtent exact) :
  (0 < width e)%Q -> (0 < height e)%Q -> Spec.nested_in e e.
Proof.
  intros Hw Hh. unfold Spec.nested_in.
  repeat (split; [first [assumption | apply Qle_refl] |]). ring.
Qed.

Lemma nested_in_trans (e a b : @GeoExtent exact) :
  Spec.nested_in e a -> Spec.nested_in a b -> Spec.nested_in e b.
Proof.
  destruct e as [xe ye we he], a as [xa ya wa ha], b as [xb yb wb hb].
  unfold Spec.nested_in. cbn [xMin yMin width height].
  intros (Hwe & Hhe & Hwa & Hha & Hx0 & Hx1 & Hy0 & Hy1 & Hr)
         (_ & _ & Hwb & Hhb & Hx0' & Hx1' & Hy0' & Hy1' & Hr').
  repeat (split; [first [assumption | lra] |]).
  apply (Qmult_inj_r _ _ (wa * ha)%Q); [nra |].
  transitivity ((we * ha) * (wa * hb))%Q; [ring |].
  rewrite Hr, Hr'. ring.
Qed.

Lemma pow2_succ (l : nat) :
  (inject_Z (2 ^ Z.of_nat (S l)) == 2 * inject_Z (2 ^ Z.of_nat l))%Q.
Proof.
  rewrite Nat2Z.inj_succ, Z.pow_succ_r by lia. rewrite inject_Z_mult. reflexivity.
Qed.

Lemma pow2_pos (l : nat) : (0 < inject_Z (2 ^ Z.of_nat l))%Q.
Proof.
  change 0%Q with (inject_Z 0). rewrite <- Zlt_Qlt. apply Z.pow_pos_nonneg; lia.
Qed.

Lemma half_bounds (x : N) :
  (2 * inject_Z (Z.of_N (x / 2)) <= inject_Z (Z.of_N x))%Q /\
  (inject_Z (Z.of_N x) + 1 <= 2 * inject_Z (Z.of_N (x / 2)) + 2)%Q.
Proof.
  rewrite N2Z.inj_div. change (Z.of_N 2) with 2%Z.
  pose proof (Z.div_mod (Z.of_N x) 2 ltac:(lia)) as Hdm.
  pose proof (Z.mod_pos_bound (Z.of_N x) 2 ltac:(lia)) as Hr.
  set (q := (Z.of_N x / 2)%Z) in *.
  change 2%Q with (inject_Z 2). change 1%Q with (inject_Z 1).
  rewrite <- !inject_Z_mult, <- !inject_Z_plus, <- !Zle_Qle. lia.
Qed.

Lemma quad_parent_nested (root : @GeoExtent exact) (k p : TileKey) :
  (0 < width root)%Q -> (0 < height root)%Q ->
  createParentKey k = Some p ->
  Spec.nested_in (Exact.quad_extent root k) (Exact.quad_extent root p).
Proof.
  intros HW HH Hp. destruct k as [[| l] x y]; [discriminate |].
  unfold createParentKey in Hp. simpl in Hp. injection Hp as <-.
  unfold Spec.nested_in, Exact.quad_extent.
  cbn [getLOD getTileX getTileY xMin yMin width height].
  pose proof (pow2_pos l) as Hn. pose proof (pow2_succ l) as Hs.
  set (n := inject_Z (2 ^ Z.of_nat l)) in *.
  set (n2 := inject_Z (2 ^ Z.of_nat (S l))) in *.
  destruct (half_bounds x) as [Hx0 Hx1]. destruct (half_bounds y) as [Hy0 Hy1].
  set (X := inject_Z (Z.of_N x)) in *. set (X2 := inject_Z (Z.of_N (x / 2))) in *.
  set (Y := inject_Z (Z.of_N y)) in *. set (Y2 := inject_Z (Z.of_N (y / 2))) in *.
  assert (Hw2 : (width root / n == 2 * (width root / n2))%Q).
  { rewrite Hs. field. lra. }
  assert (Hh2 : (height root / n == 2 * (height root / n2))%Q).
  { rewrite Hs. field. lra. }
  assert (Hdw : (0 < width root / n2)%Q).
  { apply Qlt_shift_div_l; lra. }
  assert (Hdh : (0 < height root / n2)%Q).
  { apply Qlt_shift_div_l; lra. }
  rewrite Hw2, Hh2.
  set (dw := (width root / n2)%Q) in *. set (dh := (height root / n2)%Q) in *.
  repeat (split; [first [assumption | lra | nra] |]). ring.
Qed.

Lemma nth_parent_step (i : nat) (key A : TileKey) :
  nth_parent (S i) key = Some A ->
  exists B, nth_parent i key = Some B /\ createParentKey B = Some A.
Proof.
  intros HA. change (nth_parent i key ≫= createParentKey = Some A) in HA.
  destruct (nth_parent i key) as [B |]; [| discriminate HA].
  exists B. split; [reflexivity | exact HA].
Qed.

(** On a quad grid every tile is nested in each of its ancestors. *)
Lemma quad_extent_nested (root : @GeoExtent exact) (i : nat) :
  (0 < width root)%Q -> (0 < height root)%Q ->
  forall key A,
    nth_parent i key = Some A ->
    Spec.nested_in (Exact.quad_extent root key) (Exact.quad_extent root A).
Proof.
  intros HW HH. induction i as [| i IH]; intros key A HA.
  - injection HA as <-. apply nested_in_refl; unfold Exact.quad_extent;
      cbn [width height]; apply Qlt_shift_div_l;
      first [apply pow2_pos | lra].
  - apply nth_parent_step in HA as (B & HB & HA).
    eapply nested_in_trans; [apply IH; exact HB |].
    apply quad_parent_nested; assumption.
Qed.

(** ** Decoding a texel in single precision *)

Lemma magnitude_nonneg (m : positive) (e : Z) : (0 <= Binary32.magnitude m e)%Z.
Proof.
  unfold Binary32.magnitude. destruct (0 <=? e)%Z.
  - apply Z.shiftl_nonneg. lia.
  - apply Z.shiftr_nonneg. lia.
Qed.

(** The integer part taken on the bits of a float is the integer part,
    toward zero, of the rational it stands for. *)
Lemma trunc_value (x : spec_float) :
  Spec.finite x = true -> Binary32.trunc x = Qtrunc (Spec.value x).
Proof.
  destruct x as [s | s | | s m e]; try discriminate; intros _; [reflexivity |].
  unfold Binary32.trunc, Spec.value, Binary32.magnitude, Qtrunc.
  destruct (0 <=? e)%Z eqn:He.
  - apply Z.leb_le in He. rewrite Z.shiftl_mul_pow2 by exact He.
    destruct s; cbn [cond_Zopp Qopp Qnum Qden inject_Z].
    + rewrite Z.quot_1_r. reflexivity.
    + rewrite Z.quot_1_r. reflexivity.
  - apply Z.leb_gt in He. rewrite Z.shiftr_div_pow2 by lia.
    assert (Hden : Z.pos (2 ^ Z.to_pos (- e)) = (2 ^ (- e))%Z).
    { rewrite Pos2Z.inj_pow, Z2Pos.id by lia. reflexivity. }
    destruct s; cbn [cond_Zopp Qopp Qnum Qden]; rewrite Hden.
    + rewrite Z.quot_opp_l by (apply Z.pow_nonzero; lia).
      rewrite Z.quot_div_nonneg; [reflexivity | lia |].
      apply Z.pow_pos_nonneg; lia.
    + rewrite Z.quot_div_nonneg; [reflexivity | lia |].
      apply Z.pow_pos_nonneg; lia.
Qed.

(** C3 (amended). A texel below 1.0 is taken as normalized and its code
    is the integer part, toward zero, of the single-precision product
    [texel * 255]; any other texel is taken as unnormalized and its code
    is its integer part, toward zero (as an [int]). *)
Theorem decode_truncates (texel : spec_float) :
  (SFltb texel (Binary32.of_Z 1) = true ->
   Spec.finite (Binary32.mul texel (Binary32.of_Z 255)) = true ->
   decode (num := binary32) texel
   = int_cast (Qtrunc (Spec.value (Binary32.mul texel (Binary32.of_Z 255))))) /\
  (SFltb texel (Binary32.of_Z 1) = false ->
   Spec.finite texel = true ->
   decode (num := binary32) texel = int_cast (Qtrunc (Spec.value texel))).
Proof.
  unfold decode, int_of_float. cbn [flt fmul ftrunc float_of_int binary32].
  split; intros Hlt Hfin; rewrite Hlt, trunc_value by exact Hfin; reflexivity.
Qed.

(** The codes 0 to 254, stored as [code / 255] or (from 1) as the code
    itself, decode to the same code. *)
Lemma decode_normalized_codes :
  forallb (fun code =>
             (decode (num := binary32)
                (Binary32.div (Binary32.of_Z code) (Binary32.of_Z 255)) =? code)%Z
             && ((code =? 0)%Z
                 || (decode (num := binary32) (Binary32.of_Z code) =? code)%Z))
          (map Z.of_nat (seq 0 255))
  = true.
Proof. vm_compute. reflexivity. Qed.

(** ** The pixel loops in single precision *)

(** With the default tile size of 256 the loop visits 256 coordinates,
    the last of them 1.0. *)
Lemma steps_tile256 :
  exists us,
    steps (num := binary32) 257 (pixel_step Single.tile256) Single.zero = Some us /\
    length us = 256%nat /\ last us = Some Single.one.
Proof. eexists. split; [vm_compute; reflexivity |]. split; reflexivity. Qed.

(** C2 (the code at a tile size of 11). In single precision the step is
    [1.0f / 10.0f] and the tenth addition brings [u] above 1.0: each loop
    visits 10 coordinates, all below 1.0, and the image of 11 x 11 texels
    receives 100 writes. *)
Theorem createImage_tile11 (extra : nat) :
  getPixelsPerTile Single.tile11 = 11%Z /\
  exists us out,
    steps (num := binary32) (12 + extra) (pixel_step Single.tile11) Single.zero
    = Some us /\
    length us = 10%nat /\
    Forall (fun u => SFltb u Single.one = true) us /\
    createImage (num := binary32) Single.NO_DATA_VALUE Single.key_getExtent
      (12 + extra) Single.tile11 Single.key = Val (Some out) /\
    length out = 100%nat.
Proof.
  split; [reflexivity |].
  assert (Hsteps : exists us,
            steps (num := binary32) 12 (pixel_step Single.tile11) Single.zero
            = Some us /\
            length us = 10%nat /\
            forallb (fun u => SFltb u Single.one) us = true).
  { eexists. split; [vm_compute; reflexivity |]. split; reflexivity. }
  destruct Hsteps as (us & Hus & Hlen & Hbelow).
  apply (steps_more_fuel (num := binary32) _ 12 extra) in Hus.
  exists us.
  exists (raster (num := binary32) Single.NO_DATA_VALUE Single.key_getExtent
            Single.tile11 Single.key us us).
  split; [exact Hus |]. split; [exact Hlen |]. split.
  - apply Forall_forall. intros u Hu.
    rewrite forallb_forall in Hbelow. apply Hbelow.
    apply list_elem_of_In. exact Hu.
  - split.
    + apply (createImage_raster (num := binary32)).
      * apply attached_consistent.
      * discriminate.
      * exact Hus.
    + rewrite length_raster, Hlen. reflexivity.
Qed.

(** ** The pixel loop in exact arithmetic *)

Lemma exact_steps_from (n : Z) (j : nat) :
  (0 < n)%Z ->
  forall (fuel : nat) (x : Q),
    (x == 1 - inject_Z (Z.of_nat j) / inject_Z n)%Q ->
    (j + 2 <= fuel)%nat ->
    exists us,
      steps (num := exact) fuel (1 / inject_Z n)%Q x = Some us /\
      length us = S j /\
      forall k, (k < S j)%nat ->
        (nth k us 0 == x + inject_Z (Z.of_nat k) / inject_Z n)%Q.
Proof.
  intros Hn.
  assert (Hnq : (0 < inject_Z n)%Q).
  { change 0%Q with (inject_Z 0). rewrite <- Zlt_Qlt. exact Hn. }
  assert (Hd : (0 < 1 / inject_Z n)%Q).
  { apply Qlt_shift_div_l; lra. }
  induction j as [| j IH]; intros fuel x Hx Hfuel.
  - destruct fuel as [| [| fuel]]; [lia | lia |].
    assert (Hx1 : (x == 1)%Q).
    { rewrite Hx. change (inject_Z (Z.of_nat 0)) with 0%Q. field. lra. }
    cbn [steps fle fadd float_of_int exact].
    assert (Hle : Qle_bool x (inject_Z 1) = true).
    { apply Qle_bool_iff. rewrite Hx1. apply Qle_refl. }
    assert (Hgt : Qle_bool (x + 1 / inject_Z n) (inject_Z 1) = false).
    { apply not_true_is_false. rewrite Qle_bool_iff. rewrite Hx1.
      change (inject_Z 1) with 1%Q. lra. }
    rewrite Hle, Hgt. cbn [option_map].
    exists [x]. split; [reflexivity |]. split; [reflexivity |].
    intros [| k] Hk; [| lia]. cbn [nth].
    change (inject_Z (Z.of_nat 0)) with 0%Q. field. lra.
  - destruct fuel as [| fuel]; [lia |].
    assert (Hj : (inject_Z (Z.of_nat (S j)) == inject_Z (Z.of_nat j) + 1)%Q).
    { rewrite Nat2Z.inj_succ. unfold Z.succ. rewrite inject_Z_plus. reflexivity. }
    assert (Hjq : (0 <= inject_Z (Z.of_nat j))%Q).
    { change 0%Q with (inject_Z 0). rewrite <- Zle_Qle. lia. }
    assert (Hjn : (0 <= inject_Z (Z.of_nat j) / inject_Z n)%Q).
    { apply Qle_shift_div_l; lra. }
    assert (Hx' : (x == 1 - inject_Z (Z.of_nat j) / inject_Z n - 1 / inject_Z n)%Q).
    { rewrite Hx, Hj. field. lra. }
    cbn [steps fle fadd float_of_int exact].
    assert (Hle : Qle_bool x (inject_Z 1) = true).
    { apply Qle_bool_iff. rewrite Hx'. change (inject_Z 1) with 1%Q. lra. }
    rewrite Hle.
    destruct (IH fuel (x + 1 / inject_Z n)%Q) as (us & Hus & Hlen & Hnth).
    { rewrite Hx'. ring. }
    { lia. }
    rewrite Hus. cbn [option_map].
    exists (x :: us). split; [reflexivity |]. split; [cbn [length]; rewrite Hlen; reflexivity |].
    intros [| k] Hk.
    + cbn [nth]. change (inject_Z (Z.of_nat 0)) with 0%Q. field. lra.
    + cbn [nth]. rewrite Hnth by lia.
      assert (Hk' : (inject_Z (Z.of_nat (S k)) == inject_Z (Z.of_nat k) + 1)%Q).
      { rewrite Nat2Z.inj_succ. unfold Z.succ. rewrite inject_Z_plus. reflexivity. }
      rewrite Hk'. field. lra.
Qed.

(** Over the rationals the loop of a tile of [T >= 2] pixels a side
    visits exactly the [T] coordinates [k / (T - 1)], from 0 to 1. *)
Lemma exact_pixel_loop (T : Z) :
  (2 <= T)%Z ->
  exists us,
    steps (num := exact) (Z.to_nat T + 1) (1 / inject_Z (T - 1))%Q 0%Q = Some us /\
    length us = Z.to_nat T /\
    forall k, (k < Z.to_nat T)%nat ->
      (nth k us 0 == inject_Z (Z.of_nat k) / inject_Z (T - 1))%Q.
Proof.
  intros HT.
  assert (Hnq : (0 < inject_Z (T - 1))%Q).
  { change 0%Q with (inject_Z 0). rewrite <- Zlt_Qlt. lia. }
  destruct (exact_steps_from (T - 1) (Z.to_nat (T - 1)) ltac:(lia)
              (Z.to_nat T + 1) 0%Q) as (us & Hus & Hlen & Hnth).
  - rewrite Z2Nat.id by lia. field. lra.
  - lia.
  - exists us. split; [exact Hus |]. split; [lia |].
    intros k Hk. rewrite Hnth by lia. ring.
Qed.

(** ** Counterexamples *)

Lemma decode_round_counterexample :
  ~ (forall texel : spec_float,
       SFeqb texel Single.NO_DATA_VALUE = false ->
       decode (num := binary32) texel = Spec.decode texel).
Proof.
  intros Hclaim.
  specialize (Hclaim Single.three_eighths eq_refl).
  vm_compute in Hclaim. discriminate Hclaim.
Qed.

Lemma load_visible_counterexample :
  ~ (forall (coverage : @LandCoverCoverageLayer exact) (key : TileKey),
       getEnabled coverage = true ->
       isKeyInLegalRange coverage key = true ->
       (exists i A img,
          nth_parent i key = Some A /\ layer_createImage coverage A = Some img) ->
       valid (bound Exact.key_getExtent key coverage) = true).
Proof.
  intros Hclaim.
  specialize (Hclaim (Exact.coverage false) Exact.key eq_refl eq_refl).
  assert (Hyield : exists i A img,
             nth_parent i Exact.key = Some A /\
             layer_createImage (Exact.coverage false) A = Some img).
  { exists 2%nat, Exact.root. eexists. split; reflexivity. }
  specialize (Hclaim Hyield). discriminate Hclaim.
Qed.

(** ** The compositing of two coverages, computed *)

(** Priority: both coverages offer a code at every pixel, 7 from the
    higher one and 99 from the lower one; every pixel is 7. *)
Example composite_priority :
  createImage (num := binary32) Single.NO_DATA_VALUE Single.key_getExtent
    3 Single.both_mapped Single.key
  = Val (Some [(Single.zero, Single.zero, Single.seven);
               (Single.zero, Single.one, Single.seven);
               (Single.one, Single.zero, Single.seven);
               (Single.one, Single.one, Single.seven)]).
Proof. vm_compute. reflexivity. Qed.

(** Fallback: the higher coverage holds the unmapped value 3; every pixel
    is the 99 of the lower one. *)
Example composite_fallback_unmapped :
  createImage (num := binary32) Single.NO_DATA_VALUE Single.key_getExtent
    3 Single.high_unmapped Single.key
  = Val (Some [(Single.zero, Single.zero, Single.ninety_nine);
               (Single.zero, Single.one, Single.ninety_nine);
               (Single.one, Single.zero, Single.ninety_nine);
               (Single.one, Single.one, Single.ninety_nine)]).
Proof. vm_compute. reflexivity. Qed.

(** Fallback: the higher coverage holds the no-data value. *)
Example composite_fallback_nodata :
  createImage (num := binary32) Single.NO_DATA_VALUE Single.key_getExtent
    3 Single.high_nodata Single.key
  = Val (Some [(Single.zero, Single.zero, Single.ninety_nine);
               (Single.zero, Single.one, Single.ninety_nine);
               (Single.one, Single.zero, Single.ninety_nine);
               (Single.one, Single.one, Single.ninety_nine)]).
Proof. vm_compute. reflexivity. Qed.

(** ** The theorems at concrete inputs *)

Lemma decode_truncates_witness :
  (SFltb Single.three_eighths (Binary32.of_Z 1) = true /\
   Spec.finite (Binary32.mul Single.three_eighths (Binary32.of_Z 255)) = true /\
   decode (num := binary32) Single.three_eighths = 95%Z) /\
  (SFltb Single.seven_quarters (Binary32.of_Z 1) = false /\
   Spec.finite Single.seven_quarters = true /\
   decode (num := binary32) Single.seven_quarters = 1%Z).
Proof.
  split.
  - split; [reflexivity |]. split; [reflexivity |].
    rewrite (proj1 (decode_truncates Single.three_eighths) eq_refl eq_refl).
    reflexivity.
  - split; [reflexivity |]. split; [reflexivity |].
    rewrite (proj2 (decode_truncates Single.seven_quarters) eq_refl eq_refl).
    reflexivity.
Defined.

Lemma load_preconditions_witness :
  (getEnabled (Exact.coverage false) && getVisible (Exact.coverage false)
   && isKeyInLegalRange (Exact.coverage false) Exact.key = false /\
   (load Exact.key_getExtent Exact.key (Exact.coverage false) ILayer_new).2 = [] /\
   valid (load Exact.key_getExtent Exact.key (Exact.coverage false) ILayer_new).1
   = false) /\
  (getEnabled (Exact.coverage true) && getVisible (Exact.coverage true)
   && isKeyInLegalRange (Exact.coverage true) Exact.key = true /\
   valid (bound Exact.key_getExtent Exact.key (Exact.coverage true)) = true).
Proof.
  split.
  - split; [reflexivity |].
    rewrite (proj1 (load_preconditions Exact.key_getExtent Exact.key
                      (Exact.coverage false)) eq_refl).
    split; reflexivity.
  - split; [reflexivity |].
    apply (proj2 (load_preconditions Exact.key_getExtent Exact.key
                    (Exact.coverage true)) eq_refl).
    exists 2%nat, Exact.root. eexists. split; reflexivity.
Defined.

Lemma buildCodeMap_table_witness :
  Forall (fun mapping => (0 <= getValue mapping < INT_MAX)%Z)
         (getMappings Single.three_mappings) /\
  exists table,
    buildCodeMap (Some Single.three_mappings) [] = Val table /\
    length table = 4%nat /\
    table !! 1%nat = Some 7%Z /\ table !! 2%nat = Some 99%Z /\
    table !! 3%nat = Some (-1)%Z.
Proof.
  assert (Hvalues : Forall (fun mapping => (0 <= getValue mapping < INT_MAX)%Z)
                      (getMappings Single.three_mappings)).
  { repeat constructor; discriminate. }
  split; [exact Hvalues |].
  pose proof (buildCodeMap_table Single.three_mappings [] Hvalues) as Htable.
  cbn [getDictionary Single.three_mappings] in Htable.
  destruct Htable as (table & Hbuild & Hlen & _ & _ & Hnone & Hset).
  exists table. split; [exact Hbuild |]. split; [exact Hlen |]. split; [| split].
  - apply (Hset [] (mkMapping 1 "forest")
             [mkMapping 3 "tundra"; mkMapping 2 "water"] 7%Z);
      [reflexivity | reflexivity |].
    intros later [<- | [<- | []]]; discriminate.
  - apply (Hset [mkMapping 1 "forest"; mkMapping 3 "tundra"]
             (mkMapping 2 "water") [] 99%Z);
      [reflexivity | reflexivity |].
    intros later [].
  - apply Hnone; [rewrite Hlen; vm_compute; lia |].
    intros mapping [<- | [<- | [<- | []]]]; [discriminate | reflexivity | discriminate].
Defined.

Lemma lookup_code_in_bounds_witness :
  (INT_MIN <= 3 <= INT_MAX)%Z /\
  (Z.of_nat (length [-1; 7]%Z) <= 3)%Z /\
  lookup_code [-1; 7]%Z 3 = Val None /\
  (exists r, lookup_code [-1; 7]%Z (-1) = Val r).
Proof.
  assert (Hint : (INT_MIN <= 3 <= INT_MAX)%Z) by (split; discriminate).
  assert (Hlen : (Z.of_nat (length [-1; 7]%Z) <= 3)%Z) by discriminate.
  split; [exact Hint |]. split; [exact Hlen |]. split.
  - apply (lookup_code_in_bounds (num := binary32) Single.NO_DATA_VALUE
             [-1; 7]%Z 3 Hint). exact Hlen.
  - apply (lookup_code_in_bounds (num := binary32) Single.NO_DATA_VALUE
             [-1; 7]%Z (-1)). split; discriminate.
Defined.

Lemma unattached16_tables_empty : tables_empty Single.unattached16.
Proof.
  split; [split; [reflexivity |] |]; repeat constructor; discriminate.
Defined.

Lemma createImage_no_coverages_witness :
  _coverages Single.none_open = [] /\
  createImage (num := binary32) Single.NO_DATA_VALUE Single.key_getExtent
    3 Single.none_open Single.key = Val None.
Proof.
  assert (Hnone : _coverages Single.none_open = []) by reflexivity.
  split; [exact Hnone |].
  apply (createImage_no_coverages (num := binary32)). exact Hnone.
Defined.

(** * Further properties *)

(** ** Opening the coverages *)

Section Opening.

Context {num : Numerics}.

Lemma fold_openCoverage_kept (l : list LandCoverCoverageLayerOptions) :
  forall ts,
    let ts' := fold_left openCoverage l ts in
    _coverages ts' = _coverages ts ++ map newLayer (List.filter kept l) /\
    _codemaps ts' = _codemaps ts ++ replicate (length (List.filter kept l)) [] /\
    _options ts' = _options ts /\
    getPixelsPerTile ts' = getPixelsPerTile ts /\
    _lcDictionary ts' = _lcDictionary ts.
Proof.
  induction l as [| o l IH]; intros ts; cbn [fold_left List.filter map].
  - cbn [length replicate]. rewrite !app_nil_r. auto.
  - destruct (IH (openCoverage ts o)) as (Hc & Hm & Ho & Ht & Hd).
    cbv zeta. rewrite Hc, Hm, Ho, Ht, Hd. clear IH Hc Hm Ho Ht Hd.
    unfold openCoverage, kept.
    destruct (enabled o), (opens o); cbn [negb andb];
      cbn [_coverages _codemaps _options getPixelsPerTile _lcDictionary
           map length replicate];
      rewrite <- ?app_assoc; auto.
Qed.

(** X1. [initialize] keeps, in the order of the options, exactly the
    coverages that are enabled and whose layer opens, gives each of them
    an empty code map, and touches neither the options, the tile size nor
    the dictionary. *)
Theorem initialize_kept (options : LandCoverLayerOptions) (tilesize : Z) :
  _coverages (initialize (LandCoverTileSource_new options tilesize))
  = map newLayer (List.filter kept (coverages options)) /\
  _codemaps (initialize (LandCoverTileSource_new options tilesize))
  = replicate (length (List.filter kept (coverages options))) [] /\
  _options (initialize (LandCoverTileSource_new options tilesize)) = options /\
  getPixelsPerTile (initialize (LandCoverTileSource_new options tilesize))
  = tilesize /\
  _lcDictionary (initialize (LandCoverTileSource_new options tilesize)) = None.
Proof.
  exact (fold_openCoverage_kept (coverages options)
           (LandCoverTileSource_new options tilesize)).
Qed.

End Opening.

(** ** Building a code map and reading it back *)

Section Attaching.

Context {num : Numerics}.

(** With a dictionary [buildCodeMap] starts from a fresh vector: what the
    code map held before does not matter. *)
Lemma buildCodeMap_fresh (coverage : LandCoverCoverageLayer) (dict : LandCoverDictionary)
    (codemap : list Z) :
  getDictionary coverage = Some dict ->
  buildCodeMap (Some coverage) codemap = buildCodeMap (Some coverage) [].
Proof. intros Hdict. unfold buildCodeMap. rewrite Hdict. reflexivity. Qed.

Lemma buildCodeMap_present (coverage : LandCoverCoverageLayer)
    (dict : LandCoverDictionary) (codemap : list Z) :
  getDictionary coverage = Some dict ->
  values_in_range coverage ->
  exists table,
    buildCodeMap (Some coverage) codemap = Val table /\
    length table = Z.to_nat (highestValue (getMappings coverage) + 1) /\
    (Z.of_nat (length table) <= 2 ^ 31)%Z /\
    Forall (fun mapping => (0 <= getValue mapping < Z.of_nat (length table))%Z)
           (getMappings coverage) /\
    (forall i : nat,
        (i < length table)%nat ->
        (forall mapping, In mapping (getMappings coverage) ->
           getValue mapping = Z.of_nat i ->
           getClass dict (getLandCoverClassName mapping) = None) ->
        table !! i = Some (-1)%Z) /\
    (forall before mapping after c,
        getMappings coverage = before ++ mapping :: after ->
        getClass dict (getLandCoverClassName mapping) = Some c ->
        (forall later, In later after ->
           getValue later = getValue mapping ->
           getClass dict (getLandCoverClassName later) = None) ->
        table !! Z.to_nat (getValue mapping) = Some c).
Proof.
  intros Hdict Hvalues. unfold values_in_range in Hvalues.
  unfold buildCodeMap. rewrite Hdict.
  set (mappings := getMappings coverage) in *. clearbody mappings.
  destruct (highestValue_max mappings) as (Hzero & Hall & Hattained).
  { apply List.Forall_forall. intros m Hin.
    pose proof (proj1 (List.Forall_forall _ _) Hvalues m Hin) as Hv.
    cbv beta in Hv. lia. }
  assert (Hhigh : (highestValue mappings < INT_MAX)%Z).
  { destruct mappings as [| m rest]; [vm_compute; reflexivity |].
    specialize (Hattained ltac:(discriminate)).
    apply List.Exists_exists in Hattained as (m' & Hin & Hm').
    pose proof (proj1 (List.Forall_forall _ _) Hvalues m' Hin) as Hv.
    cbv beta in Hv. lia. }
  unfold int_succ. apply Z.ltb_lt in Hhigh as Hltb. rewrite Hltb.
  cbn [mbind res_bind].
  assert (Hsz : size_t_of_int (highestValue mappings + 1)
                = (highestValue mappings + 1)%Z).
  { unfold size_t_of_int, INT_MAX in *. rewrite Z.mod_small; lia. }
  rewrite Hsz.
  assert (Hrange : Forall (fun mapping =>
                     (0 <= getValue mapping
                      < Z.of_nat (Z.to_nat (highestValue mappings + 1)))%Z)
                     mappings).
  { apply List.Forall_forall. intros m Hin.
    pose proof (proj1 (List.Forall_forall _ _) Hvalues m Hin) as Hv.
    pose proof (proj1 (List.Forall_forall _ _) Hall m Hin) as Hle.
    cbv beta in Hv, Hle. lia. }
  destruct (fillCodeMap_spec dict mappings
              (replicate (Z.to_nat (highestValue mappings + 1)) (-1)%Z))
    as (table & Hfill & Hlen & Hkeep & Hset).
  { rewrite length_replicate. exact Hrange. }
  { rewrite length_replicate. unfold INT_MAX in *. lia. }
  rewrite length_replicate in Hlen.
  exists table. split; [exact Hfill |]. split; [exact Hlen |].
  split; [rewrite Hlen; unfold INT_MAX in *; lia |].
  split; [rewrite Hlen; exact Hrange |]. split; [| exact Hset].
  intros i Hi Hnone. rewrite (Hkeep i Hnone).
  apply lookup_replicate_2. lia.
Qed.

(** X2. Build, then look up. With a dictionary and source values that
    are non-negative [int]s, the guarded read of the table [buildCodeMap]
    makes gives, for the source value of a mapping, the dictionary code of
    the last mapping of that value whose class name resolves (unmapped
    when that code is negative); and it gives unmapped for every [int]
    that no resolving mapping names, negative ones and those beyond the
    table included. *)
Theorem buildCodeMap_lookup (coverage : LandCoverCoverageLayer)
    (dict : LandCoverDictionary) (codemap : list Z) :
  getDictionary coverage = Some dict ->
  values_in_range coverage ->
  exists table,
    buildCodeMap (Some coverage) codemap = Val table /\
    (forall before mapping after c,
        getMappings coverage = before ++ mapping :: after ->
        getClass dict (getLandCoverClassName mapping) = Some c ->
        (forall later, In later after ->
           getValue later = getValue mapping ->
           getClass dict (getLandCoverClassName later) = None) ->
        lookup_code table (getValue mapping)
        = Val (if (0 <=? c)%Z then Some c else None)) /\
    (forall raw,
        (INT_MIN <= raw <= INT_MAX)%Z ->
        (forall mapping, In mapping (getMappings coverage) ->
           getValue mapping = raw ->
           getClass dict (getLandCoverClassName mapping) = None) ->
        lookup_code table raw = Val None).
Proof.
  intros Hdict Hvalues.
  destruct (buildCodeMap_present coverage dict codemap Hdict Hvalues)
    as (table & Hbuild & Hlen & Hsize & Hrange & Hnone & Hset).
  assert (Hmax : (Z.of_nat (length table) <= vector_max_size)%Z).
  { unfold vector_max_size. lia. }
  exists table. split; [exact Hbuild |]. split.
  - intros before mapping after c Hmappings Hc Hlater.
    assert (Hin : In mapping (getMappings coverage)).
    { rewrite Hmappings. apply in_elt. }
    pose proof (proj1 (List.Forall_forall _ _) Hrange mapping Hin) as Hv.
    pose proof (proj1 (List.Forall_forall _ _) Hvalues mapping Hin) as Hv'.
    cbv beta in Hv, Hv'.
    rewrite lookup_code_translate;
      [| exact Hmax | unfold INT_MIN, INT_MAX in *; lia].
    unfold translate.
    destruct (0 <=? getValue mapping)%Z eqn:Hsign;
      [| apply Z.leb_gt in Hsign; lia].
    rewrite (Hset before mapping after c Hmappings Hc Hlater). reflexivity.
  - intros raw Hint Hunresolved.
    rewrite lookup_code_translate; [| exact Hmax | exact Hint].
    unfold translate.
    destruct (0 <=? raw)%Z eqn:Hsign; [| reflexivity].
    apply Z.leb_le in Hsign.
    destruct (table !! Z.to_nat raw) as [c |] eqn:Hc; [| reflexivity].
    apply lookup_lt_Some in Hc as Hlt.
    rewrite Hnone in Hc; [injection Hc as <-; reflexivity | exact Hlt |].
    intros mapping Hin Hval. apply Hunresolved; [exact Hin | lia].
Qed.

End Attaching.

(** ** Attaching a dictionary *)

Section SetDictionary.

Context {num : Numerics}.

Lemma values_in_range_setDictionary (c : LandCoverCoverageLayer)
    (lcd : option LandCoverDictionary) :
  values_in_range c -> values_in_range (coverage_setDictionary c lcd).
Proof. intros H. exact H. Qed.

(** Building the code map of a coverage that was just given [lcd]. *)
Lemma buildCodeMap_setDictionary (c : LandCoverCoverageLayer)
    (lcd : option LandCoverDictionary) (codemap : list Z) :
  (lcd <> None -> values_in_range c) ->
  (Z.of_nat (length codemap) <= vector_max_size)%Z ->
  exists codemap',
    buildCodeMap (Some (coverage_setDictionary c lcd)) codemap = Val codemap' /\
    (Z.of_nat (length codemap') <= vector_max_size)%Z /\
    (lcd = None -> codemap' = codemap).
Proof.
  intros Hvalues Hsize. destruct lcd as [d |].
  - destruct (buildCodeMap_present (coverage_setDictionary c (Some d)) d codemap)
      as (table & Hbuild & _ & Hlen & _); [reflexivity | |].
    { apply Hvalues. discriminate. }
    exists table. split; [exact Hbuild |].
    split; [unfold vector_max_size; lia | discriminate].
  - exists codemap. split; [reflexivity |]. split; [exact Hsize | reflexivity].
Qed.

Lemma setDictionary_loop_spec (lcd : option LandCoverDictionary) (todo : nat) :
  forall (i : nat) (coverages : list LandCoverCoverageLayer)
         (codemaps : list (list Z)),
    (i + todo <= length coverages)%nat ->
    length codemaps = length coverages ->
    (lcd <> None -> Forall values_in_range coverages) ->
    Forall (fun codemap => (Z.of_nat (length codemap) <= vector_max_size)%Z)
           codemaps ->
    exists coverages' codemaps',
      setDictionary_loop todo i lcd coverages codemaps
      = Val (coverages', codemaps') /\
      length coverages' = length coverages /\
      length codemaps' = length codemaps /\
      Forall (fun codemap => (Z.of_nat (length codemap) <= vector_max_size)%Z)
             codemaps' /\
      (forall j c, coverages !! j = Some c ->
         coverages' !! j
         = Some (if in_turns i todo j then coverage_setDictionary c lcd else c)) /\
      (forall j c codemap,
         coverages !! j = Some c -> codemaps !! j = Some codemap ->
         exists codemap',
           codemaps' !! j = Some codemap' /\
           if in_turns i todo j
           then buildCodeMap (Some (coverage_setDictionary c lcd)) codemap
                = Val codemap'
           else codemap' = codemap).
Proof.
  induction todo as [| todo IH]; intros i coverages codemaps Hi Hlen Hvalues Hsizes.
  - exists coverages, codemaps. repeat (split; [first [reflexivity | assumption] |]).
    assert (Hout : forall j, in_turns i 0 j = false).
    { intros j. unfold in_turns.
      destruct (i <=? j)%nat eqn:H1, (j <? i + 0)%nat eqn:H2; try reflexivity.
      apply Nat.leb_le in H1. apply Nat.ltb_lt in H2. lia. }
    split.
    + intros j c Hc. rewrite Hout. exact Hc.
    + intros j c codemap _ Hcodemap. rewrite Hout. eauto.
  - destruct (lookup_lt_is_Some_2 coverages i) as [c Hc]; [lia |].
    destruct (lookup_lt_is_Some_2 codemaps i) as [codemap Hcodemap]; [lia |].
    destruct (buildCodeMap_setDictionary c lcd codemap)
      as (codemap' & Hbuild & Hsize' & _).
    { intros Hlcd. specialize (Hvalues Hlcd).
      eapply Forall_lookup_1 in Hvalues; eauto. }
    { eapply Forall_lookup_1 in Hsizes; eauto. }
    cbn [setDictionary_loop].
    rewrite (vec_get_lookup _ _ _ Hc). cbn [mbind res_bind].
    rewrite vec_set_lt by lia. cbn [mbind res_bind].
    rewrite (vec_get_lookup _ _ _ Hcodemap). cbn [mbind res_bind].
    rewrite Hbuild. cbn [mbind res_bind].
    rewrite vec_set_lt by lia. cbn [mbind res_bind].
    destruct (IH (S i) (<[i := coverage_setDictionary c lcd]> coverages)
                (<[i := codemap']> codemaps))
      as (coverages' & codemaps' & Hloop & Hlc & Hlm & Hsz & Hcov & Hmap).
    { rewrite length_insert. lia. }
    { rewrite !length_insert. exact Hlen. }
    { intros Hlcd. apply Forall_insert; [apply Hvalues; exact Hlcd |].
      apply values_in_range_setDictionary.
      specialize (Hvalues Hlcd). eapply Forall_lookup_1 in Hvalues; eauto. }
    { apply Forall_insert; assumption. }
    exists coverages', codemaps'. split; [exact Hloop |].
    split; [rewrite Hlc; apply length_insert |].
    split; [rewrite Hlm; apply length_insert |].
    split; [exact Hsz |].
    assert (Hturn : forall j,
              in_turns i (S todo) j
              = if decide (j = i) then true else in_turns (S i) todo j).
    { intros j. unfold in_turns. destruct (decide (j = i)) as [-> | Hne].
      - rewrite Nat.leb_refl. cbn [andb]. apply Nat.ltb_lt. lia.
      - destruct (i <=? j)%nat eqn:H1, (S i <=? j)%nat eqn:H2,
          (j <? i + S todo)%nat eqn:H3, (j <? S i + todo)%nat eqn:H4;
          try reflexivity;
          repeat match goal with
                 | H : (_ <=? _)%nat = true |- _ => apply Nat.leb_le in H
                 | H : (_ <=? _)%nat = false |- _ => apply Nat.leb_gt in H
                 | H : (_ <? _)%nat = true |- _ => apply Nat.ltb_lt in H
                 | H : (_ <? _)%nat = false |- _ => apply Nat.ltb_ge in H
                 end; lia. }
    assert (Hnot : in_turns (S i) todo i = false).
    { unfold in_turns. destruct (S i <=? i)%nat eqn:H1; [| reflexivity].
      apply Nat.leb_le in H1. lia. }
    split.
    + intros j c0 Hc0. rewrite Hturn. destruct (decide (j = i)) as [-> | Hne].
      * assert (c0 = c) as -> by congruence.
        rewrite (Hcov i (coverage_setDictionary c lcd)).
        -- rewrite Hnot. reflexivity.
        -- apply list_lookup_insert_eq. lia.
      * apply Hcov. rewrite list_lookup_insert_ne by congruence. exact Hc0.
    + intros j c0 codemap0 Hc0 Hcodemap0. rewrite Hturn.
      destruct (decide (j = i)) as [-> | Hne].
      * assert (c0 = c) as -> by congruence.
        assert (codemap0 = codemap) as -> by congruence.
        destruct (Hmap i (coverage_setDictionary c lcd) codemap')
          as (m & Hm & Hsame).
        -- apply list_lookup_insert_eq. lia.
        -- apply list_lookup_insert_eq. lia.
        -- rewrite Hnot in Hsame. subst m. eauto.
      * apply Hmap; rewrite list_lookup_insert_ne by congruence; assumption.
Qed.

Lemma in_turns_all (n j : nat) : (j < n)%nat -> in_turns 0 n j = true.
Proof.
  intros Hj. unfold in_turns. cbn [Nat.leb andb]. apply Nat.ltb_lt. lia.
Qed.

(** What [setDictionary] does to a tile source. *)
Lemma setDictionary_spec (ts : LandCoverTileSource)
    (lcd : option LandCoverDictionary) :
  consistent ts ->
  (lcd <> None -> Forall values_in_range (_coverages ts)) ->
  exists ts',
    setDictionary ts lcd = Val ts' /\
    _options ts' = _options ts /\
    getPixelsPerTile ts' = getPixelsPerTile ts /\
    _lcDictionary ts' = lcd /\
    _coverages ts' = map (fun c => coverage_setDictionary c lcd) (_coverages ts) /\
    consistent ts' /\
    (forall j c codemap,
       _coverages ts !! j = Some c -> _codemaps ts !! j = Some codemap ->
       exists codemap',
         _codemaps ts' !! j = Some codemap' /\
         buildCodeMap (Some (coverage_setDictionary c lcd)) codemap = Val codemap').
Proof.
  intros [Hlen Hsizes] Hvalues. unfold setDictionary.
  destruct (setDictionary_loop_spec lcd (length (_coverages ts)) 0
              (_coverages ts) (_codemaps ts))
    as (coverages' & codemaps' & Hloop & Hlc & Hlm & Hsz & Hcov & Hmap);
    [lia | exact Hlen | exact Hvalues | exact Hsizes |].
  rewrite Hloop. cbn [mbind res_bind].
  eexists. split; [reflexivity |].
  cbn [_options getPixelsPerTile _lcDictionary _coverages _codemaps].
  repeat (split; [reflexivity |]). split; [| split].
  - apply list_eq. intros j. rewrite list_lookup_fmap.
    destruct (_coverages ts !! j) as [c |] eqn:Hc.
    + rewrite (Hcov j c Hc), in_turns_all by (eapply lookup_lt_Some; eauto).
      reflexivity.
    + apply lookup_ge_None. rewrite Hlc. apply lookup_ge_None. exact Hc.
  - split; [cbn; lia | exact Hsz].
  - intros j c codemap Hc Hcodemap.
    destruct (Hmap j c codemap Hc Hcodemap) as (codemap' & Hm & Hbuild).
    rewrite in_turns_all in Hbuild by (eapply lookup_lt_Some; eauto).
    eauto.
Qed.

Lemma tile_source_eq (a b : LandCoverTileSource) :
  _options a = _options b ->
  getPixelsPerTile a = getPixelsPerTile b ->
  _coverages a = _coverages b ->
  _codemaps a = _codemaps b ->
  _lcDictionary a = _lcDictionary b ->
  a = b.
Proof. destruct a, b. cbn. intros. subst. reflexivity. Qed.

(** X3. Attaching a dictionary to a tile source whose vectors are
    consistent and whose source values are non-negative [int]s runs
    without fault, keeps the vectors consistent, keeps the options, the
    tile size and the coverages in their order, gives every coverage the
    dictionary, and leaves at each index the table [buildCodeMap] makes
    for that coverage alone. *)
Theorem setDictionary_attached (ts : LandCoverTileSource)
    (dict : LandCoverDictionary) :
  consistent ts ->
  Forall values_in_range (_coverages ts) ->
  exists ts',
    setDictionary ts (Some dict) = Val ts' /\
    consistent ts' /\
    _options ts' = _options ts /\
    getPixelsPerTile ts' = getPixelsPerTile ts /\
    _lcDictionary ts' = Some dict /\
    _coverages ts'
    = map (fun c => coverage_setDictionary c (Some dict)) (_coverages ts) /\
    forall j c,
      _coverages ts !! j = Some c ->
      exists table,
        _codemaps ts' !! j = Some table /\
        buildCodeMap (Some (coverage_setDictionary c (Some dict))) [] = Val table.
Proof.
  intros Hts Hvalues.
  destruct (setDictionary_spec ts (Some dict) Hts (fun _ => Hvalues))
    as (ts' & Hset & Ho & Ht & Hd & Hc & Hts' & Hm).
  exists ts'. repeat (split; [assumption |]).
  intros j c Hj.
  destruct (lookup_lt_is_Some_2 (_codemaps ts) j) as [codemap Hcodemap].
  { rewrite (proj1 Hts). eapply lookup_lt_Some; eauto. }
  destruct (Hm j c codemap Hj Hcodemap) as (table & Htable & Hbuild).
  exists table. split; [exact Htable |].
  rewrite <- Hbuild. symmetry. eapply buildCodeMap_fresh. reflexivity.
Qed.

(** X4. Attaching replaces the tables wholesale: attaching a second
    dictionary after a first gives the tile source that attaching the
    second alone gives, and attaching the same dictionary again changes
    nothing. *)
Theorem setDictionary_again (ts ts' : LandCoverTileSource)
    (dict dict2 : LandCoverDictionary) :
  consistent ts ->
  Forall values_in_range (_coverages ts) ->
  setDictionary ts (Some dict) = Val ts' ->
  setDictionary ts' (Some dict2) = setDictionary ts (Some dict2) /\
  setDictionary ts' (Some dict) = Val ts'.
Proof.
  intros Hts Hvalues Hset.
  destruct (setDictionary_spec ts (Some dict) Hts (fun _ => Hvalues))
    as (ts1 & Hset1 & Ho1 & Ht1 & Hd1 & Hc1 & Hts1 & Hm1).
  assert (ts1 = ts') as -> by congruence. clear Hset1.
  assert (Hvalues' : Forall values_in_range (_coverages ts')).
  { rewrite Hc1. apply Forall_fmap. exact Hvalues. }
  assert (Hagain : forall d,
            setDictionary ts' (Some d) = setDictionary ts (Some d)).
  { intros d.
    destruct (setDictionary_spec ts (Some d) Hts (fun _ => Hvalues))
      as (t2 & Hset2 & Ho2 & Ht2 & Hd2 & Hc2 & Hts2 & Hm2).
    destruct (setDictionary_spec ts' (Some d) Hts1 (fun _ => Hvalues'))
      as (t3 & Hset3 & Ho3 & Ht3 & Hd3 & Hc3 & Hts3 & Hm3).
    rewrite Hset2, Hset3. f_equal. apply tile_source_eq; try congruence.
    - rewrite Hc3, Hc2, Hc1, <- list_fmap_compose. reflexivity.
    - apply list_eq. intros j.
      destruct (_coverages ts !! j) as [c |] eqn:Hc.
      + destruct (lookup_lt_is_Some_2 (_codemaps ts) j) as [m Hm].
        { rewrite (proj1 Hts). eapply lookup_lt_Some; eauto. }
        destruct (Hm2 j c m Hc Hm) as (m2 & Hj2 & Hb2).
        destruct (Hm1 j c m Hc Hm) as (m1 & Hj1 & _).
        destruct (Hm3 j (coverage_setDictionary c (Some dict)) m1)
          as (m3 & Hj3 & Hb3); [rewrite Hc1, list_lookup_fmap, Hc; reflexivity
                               | exact Hj1 |].
        rewrite Hj2, Hj3. f_equal.
        rewrite (buildCodeMap_fresh _ d) in Hb2, Hb3 by reflexivity.
        change (coverage_setDictionary (coverage_setDictionary c (Some dict)) (Some d))
          with (coverage_setDictionary c (Some d)) in Hb3.
        congruence.
      + assert (Hge : (length (_coverages ts) <= j)%nat)
          by (apply lookup_ge_None; exact Hc).
        rewrite (lookup_ge_None_2 (_codemaps t3)), (lookup_ge_None_2 (_codemaps t2));
          [reflexivity | |].
        * rewrite (proj1 Hts2), Hc2, length_fmap. exact Hge.
        * rewrite (proj1 Hts3), Hc3, Hc1, !length_fmap. exact Hge. }
  split; [apply Hagain |]. rewrite Hagain. exact Hset.
Qed.

End SetDictionary.

(** ** What [createImage] reads of a tile source *)

Section Reads.

Context {num : Numerics}.
Variable NO_DATA_VALUE : float.
Variable key_getExtent : TileKey -> GeoExtent.

(** [load] reads the flags, the legal range and the provider of a
    coverage, not its dictionary. *)
Lemma load_setDictionary (key : TileKey) (c : LandCoverCoverageLayer)
    (lcd : option LandCoverDictionary) (this : ILayer) :
  load key_getExtent key (coverage_setDictionary c lcd) this
  = load key_getExtent key c this.
Proof. reflexivity. Qed.

Lemma for_float_ext {St : Type} (body body' : float -> St -> res St)
    (d : float) (fuel : nat) :
  (forall x s, body x s = body' x s) ->
  forall x s, for_float fuel d body x s = for_float fuel d body' x s.
Proof.
  intros Hbody. induction fuel as [| fuel IH]; intros x s; [reflexivity |].
  cbn [for_float]. destruct (fle x (float_of_int 1)); [| reflexivity].
  rewrite Hbody. destruct (body' x s); cbn [mbind res_bind]; auto.
Qed.

Lemma scanLayers_setDictionary (ts ts' : LandCoverTileSource)
    (lcd : option LandCoverDictionary) (key : TileKey) (u v : float) (n : nat) :
  _coverages ts' = map (fun c => coverage_setDictionary c lcd) (_coverages ts) ->
  _codemaps ts' = _codemaps ts ->
  forall layers,
    scanLayers NO_DATA_VALUE key_getExtent ts' key n layers u v
    = scanLayers NO_DATA_VALUE key_getExtent ts key n layers u v.
Proof.
  intros Hcov Hmap. induction n as [| L IH]; intros layers; [reflexivity |].
  cbn [scanLayers]. rewrite Hmap.
  destruct (vec_get layers L) as [layer | |]; cbn [mbind res_bind];
    [| reflexivity | reflexivity].
  destruct (negb (valid layer)); [apply IH |].
  assert (Hget : vec_get (_coverages ts') L
                 = (c ← vec_get (_coverages ts) L;
                    Val (coverage_setDictionary c lcd))).
  { unfold vec_get. rewrite Hcov, list_lookup_fmap.
    destruct (_coverages ts !! L); reflexivity. }
  destruct (image layer) as [img |]; cbn [mbind res_bind].
  - destruct (negb (valid layer)); [apply IH |].
    destruct (sampleLayer _ _ _ _ _) as [[texel |] | |]; cbn [mbind res_bind];
      first [reflexivity | apply IH].
  - rewrite Hget.
    destruct (vec_get (_coverages ts) L) as [c | |]; cbn [mbind res_bind];
      [| reflexivity | reflexivity].
    rewrite load_setDictionary.
    destruct (vec_set layers L _) as [layers' | |]; cbn [mbind res_bind];
      [| reflexivity | reflexivity].
    destruct (negb (valid _)); [apply IH |].
    destruct (sampleLayer _ _ _ _ _) as [[texel |] | |]; cbn [mbind res_bind];
      first [reflexivity | apply IH].
Qed.

Lemma createImage_setDictionary (ts ts' : LandCoverTileSource)
    (lcd : option LandCoverDictionary) (key : TileKey) (fuel : nat) :
  _options ts' = _options ts ->
  getPixelsPerTile ts' = getPixelsPerTile ts ->
  _coverages ts' = map (fun c => coverage_setDictionary c lcd) (_coverages ts) ->
  _codemaps ts' = _codemaps ts ->
  createImage NO_DATA_VALUE key_getExtent fuel ts' key
  = createImage NO_DATA_VALUE key_getExtent fuel ts key.
Proof.
  intros Ho Ht Hcov Hmap. unfold createImage. rewrite Ht, Hcov, length_fmap.
  destruct (_coverages ts) as [| c cs] eqn:Hcs; [reflexivity |].
  cbn [map]. rewrite <- Hcs.
  assert (Hpixel : forall u v st,
            pixel NO_DATA_VALUE key_getExtent ts' key u v st
            = pixel NO_DATA_VALUE key_getExtent ts key u v st).
  { intros u v st. unfold pixel, nodata. rewrite Ho.
    rewrite (scanLayers_setDictionary ts ts' lcd); [reflexivity | | exact Hmap].
    rewrite Hcov, Hcs. reflexivity. }
  rewrite (for_float_ext _
             (fun u st =>
                for_float fuel
                  (fdiv (float_of_int 1) (float_of_int (getPixelsPerTile ts - 1)))
                  (pixel NO_DATA_VALUE key_getExtent ts key u) (float_of_int 0) st)).
  - reflexivity.
  - intros u st. apply for_float_ext. intros v st'. apply Hpixel.
Qed.

(** X5. A null dictionary does not clear the tables: [setDictionary]
    with a null pointer takes the dictionary from every coverage and
    leaves every code map as it was, so that [createImage] goes on
    producing what it produced before. *)
Theorem setDictionary_null (ts : LandCoverTileSource) :
  consistent ts ->
  exists ts',
    setDictionary ts None = Val ts' /\
    _lcDictionary ts' = None /\
    Forall (fun c => getDictionary c = None) (_coverages ts') /\
    _codemaps ts' = _codemaps ts /\
    forall fuel key,
      createImage NO_DATA_VALUE key_getExtent fuel ts' key
      = createImage NO_DATA_VALUE key_getExtent fuel ts key.
Proof.
  intros Hts.
  destruct (setDictionary_spec ts None Hts) as
    (ts' & Hset & Ho & Ht & Hd & Hc & Hts' & Hm); [congruence |].
  assert (Hmaps : _codemaps ts' = _codemaps ts).
  { apply list_eq. intros j.
    destruct (_coverages ts !! j) as [c |] eqn:Hj.
    - destruct (lookup_lt_is_Some_2 (_codemaps ts) j) as [m Hmj].
      { rewrite (proj1 Hts). eapply lookup_lt_Some; eauto. }
      destruct (Hm j c m Hj Hmj) as (m' & Hm' & Hbuild).
      cbn in Hbuild. congruence.
    - assert (Hge : (length (_coverages ts) <= j)%nat)
        by (apply lookup_ge_None; exact Hj).
      rewrite (lookup_ge_None_2 (_codemaps ts')), (lookup_ge_None_2 (_codemaps ts));
        [reflexivity | |].
      + rewrite (proj1 Hts). exact Hge.
      + rewrite (proj1 Hts'), Hc, length_fmap. exact Hge. }
  exists ts'. split; [exact Hset |]. split; [exact Hd |]. split; [| split].
  - rewrite Hc. apply Forall_fmap. apply Forall_true. intros c. reflexivity.
  - exact Hmaps.
  - intros fuel key. apply (createImage_setDictionary ts ts' None); assumption.
Qed.

End Reads.

(** ** What [createImage] writes *)

Section Writes.

Context {num : Numerics}.
Variable NO_DATA_VALUE : float.
Variable key_getExtent : TileKey -> GeoExtent.

Lemma translate_Some (table : list Z) (rawCode c : Z) :
  translate table rawCode = Some c -> In c table /\ (0 <= c)%Z.
Proof.
  unfold translate. destruct (0 <=? rawCode)%Z; [| discriminate].
  destruct (table !! Z.to_nat rawCode) as [c' |] eqn:Hc; [| discriminate].
  destruct (0 <=? c')%Z eqn:Hsign; [| discriminate].
  intros [= <-]. split; [| apply Z.leb_le; exact Hsign].
  apply list_elem_of_In. eapply list_elem_of_lookup_2. exact Hc.
Qed.

Lemma committed_by_offer (ts : LandCoverTileSource) (key : TileKey)
    (L : nat) (u v : float) :
  committed_by NO_DATA_VALUE key_getExtent ts key L u v
  = match _coverages ts !! L, _codemaps ts !! L with
    | Some coverage, Some table =>
        offer NO_DATA_VALUE key_getExtent key coverage table u v
    | _, _ => None
    end.
Proof. reflexivity. Qed.

Lemma raster_coordinates (ts : LandCoverTileSource) (key : TileKey)
    (us vs : list float) :
  map fst (raster NO_DATA_VALUE key_getExtent ts key us vs) = list_prod us vs.
Proof.
  unfold raster. induction us as [| u us IH]; [reflexivity |].
  cbn [flat_map list_prod]. rewrite map_app, IH. f_equal.
  rewrite map_map. reflexivity.
Qed.

(** X6. When its loops end [createImage] makes one write for each pair
    of visited coordinates, row by row in the order of the loops, and
    every write carries either the no-data texel or a non-negative code
    that stands in one of the code maps: no other value is ever
    written. *)
Theorem createImage_writes (ts : LandCoverTileSource) (key : TileKey)
    (fuel : nat) (us : list float) :
  consistent ts ->
  _coverages ts <> [] ->
  steps fuel (pixel_step ts) (float_of_int 0) = Some us ->
  exists out,
    createImage NO_DATA_VALUE key_getExtent fuel ts key = Val (Some out) /\
    map fst out = list_prod us us /\
    forall w, In w out ->
      w.2 = nodata NO_DATA_VALUE ts \/
      exists L table c,
        _codemaps ts !! L = Some table /\ In c table /\ (0 <= c)%Z /\
        w.2 = float_of_int c.
Proof.
  intros Hts Hne Hus.
  exists (raster NO_DATA_VALUE key_getExtent ts key us us).
  split; [apply createImage_raster; assumption |].
  split; [apply raster_coordinates |].
  intros w Hin. apply elem_of_raster in Hin as (u & v & _ & _ & ->).
  cbn [snd]. unfold pixel_value.
  destruct (composite_pixel NO_DATA_VALUE key_getExtent ts key
              (length (_coverages ts)) u v) as [c |] eqn:Hpix;
    [| left; reflexivity].
  right. apply composite_pixel_Some in Hpix as (L & _ & Hc & _).
  rewrite committed_by_offer in Hc.
  destruct (_coverages ts !! L) as [coverage |]; [| discriminate].
  destruct (_codemaps ts !! L) as [table |] eqn:Htable; [| discriminate].
  unfold offer in Hc. destruct (read _); [| discriminate].
  destruct (_ && _); [| discriminate].
  apply translate_Some in Hc as [Hin Hsign].
  exists L, table, c. auto.
Qed.

Lemma offer_invalid (key : TileKey) (coverage : LandCoverCoverageLayer)
    (table : list Z) (u v : float) :
  valid (bound key_getExtent key coverage) = false ->
  offer NO_DATA_VALUE key_getExtent key coverage table u v = None.
Proof.
  intros Hinv. unfold offer. destruct (read _); [| reflexivity].
  rewrite Hinv. reflexivity.
Qed.

(** X7. A tile source with coverages none of which can be bound for the
    key (disabled, invisible, out of range or without an image up to the
    root) still returns an image, not the null pointer, and every write
    of it is the no-data texel. *)
Theorem createImage_unavailable (ts : LandCoverTileSource) (key : TileKey)
    (fuel : nat) (us : list float) :
  consistent ts ->
  _coverages ts <> [] ->
  Forall (fun coverage => valid (bound key_getExtent key coverage) = false)
         (_coverages ts) ->
  steps fuel (pixel_step ts) (float_of_int 0) = Some us ->
  exists out,
    createImage NO_DATA_VALUE key_getExtent fuel ts key = Val (Some out) /\
    length out = (length us * length us)%nat /\
    forall w, In w out -> w.2 = nodata NO_DATA_VALUE ts.
Proof.
  intros Hts Hne Hinv Hus.
  exists (raster NO_DATA_VALUE key_getExtent ts key us us).
  split; [apply createImage_raster; assumption |].
  split; [apply length_raster |].
  intros w Hin. apply elem_of_raster in Hin as (u & v & _ & _ & ->).
  cbn [snd]. apply pixel_value_no_offer. intros L _.
  rewrite committed_by_offer.
  destruct (_coverages ts !! L) as [coverage |] eqn:Hc; [| reflexivity].
  destruct (_codemaps ts !! L) as [table |]; [| reflexivity].
  apply offer_invalid. eapply Forall_lookup_1 in Hinv; eauto.
Qed.

Lemma last_offer_app (l1 l2 : list (option Z)) :
  last_offer (l1 ++ l2)
  = match last_offer l2 with Some c => Some c | None => last_offer l1 end.
Proof.
  unfold last_offer. rewrite fold_left_app.
  generalize (fold_left
                (fun acc o => match o with Some c => Some c | None => acc end)
                l1 None).
  induction l2 as [| o l2 IH] using rev_ind; intros acc.
  - reflexivity.
  - rewrite !fold_left_app. cbn [fold_left].
    destruct o as [c |]; [reflexivity |]. apply IH.
Qed.

Lemma composite_pixel_take (ts : LandCoverTileSource) (key : TileKey)
    (u v : float) (n : nat) :
  length (_codemaps ts) = length (_coverages ts) ->
  (n <= length (_coverages ts))%nat ->
  composite_pixel NO_DATA_VALUE key_getExtent ts key n u v
  = last_offer (take n (offers NO_DATA_VALUE key_getExtent ts key u v)).
Proof.
  intros Hlen. induction n as [| n IH]; intros Hn; [reflexivity |].
  cbn [composite_pixel]. rewrite committed_by_offer.
  destruct (lookup_lt_is_Some_2 (_coverages ts) n) as [c Hc]; [lia |].
  destruct (lookup_lt_is_Some_2 (_codemaps ts) n) as [m Hm]; [lia |].
  rewrite Hc, Hm.
  assert (Hoffer : offers NO_DATA_VALUE key_getExtent ts key u v !! n
                   = Some (offer NO_DATA_VALUE key_getExtent key c m u v)).
  { unfold offers. rewrite lookup_zip_with, Hc, Hm. reflexivity. }
  rewrite (take_S_r _ _ _ Hoffer), last_offer_app.
  cbn [last_offer fold_left].
  destruct (offer _ _ _ _ _ _ _); [reflexivity |]. apply IH. lia.
Qed.

Lemma composite_pixel_offers (ts : LandCoverTileSource) (key : TileKey)
    (u v : float) :
  length (_codemaps ts) = length (_coverages ts) ->
  composite_pixel NO_DATA_VALUE key_getExtent ts key (length (_coverages ts)) u v
  = last_offer (offers NO_DATA_VALUE key_getExtent ts key u v).
Proof.
  intros Hlen. rewrite composite_pixel_take by (auto; lia).
  rewrite take_ge; [reflexivity |].
  unfold offers. rewrite length_zip_with. lia.
Qed.

(** X8. A coverage that cannot be bound for the key is transparent,
    wherever it stands in the list: as long as another coverage is left,
    [createImage] returns what it returns on the tile source without
    that coverage and its code map. *)
Theorem createImage_without_unavailable (ts : LandCoverTileSource)
    (front back : list LandCoverCoverageLayer) (c : LandCoverCoverageLayer)
    (front_maps back_maps : list (list Z)) (m : list Z)
    (key : TileKey) (fuel : nat) (us : list float) :
  consistent ts ->
  _coverages ts = front ++ c :: back ->
  _codemaps ts = front_maps ++ m :: back_maps ->
  length front_maps = length front ->
  valid (bound key_getExtent key c) = false ->
  front ++ back <> [] ->
  steps fuel (pixel_step ts) (float_of_int 0) = Some us ->
  createImage NO_DATA_VALUE key_getExtent fuel ts key
  = createImage NO_DATA_VALUE key_getExtent fuel
      (without ts front back front_maps back_maps) key.
Proof.
  intros Hts Hcov Hmap Hfront Hinv Hrest Hus.
  set (ts' := without ts front back front_maps back_maps).
  assert (Hlen : length back_maps = length back).
  { destruct Hts as [Hl _]. rewrite Hcov, Hmap, !length_app in Hl.
    cbn [length] in Hl. lia. }
  assert (Hts' : consistent ts').
  { destruct Hts as [_ Hsizes]. split.
    - unfold ts', without. cbn. rewrite !length_app. lia.
    - unfold ts', without. cbn. rewrite Hmap in Hsizes.
      apply Forall_app in Hsizes as [H1 H2]. apply Forall_cons in H2 as [_ H2].
      apply Forall_app. split; assumption. }
  rewrite (createImage_raster NO_DATA_VALUE key_getExtent ts key fuel us Hts)
    by (try exact Hus; rewrite Hcov; destruct front; discriminate).
  rewrite (createImage_raster NO_DATA_VALUE key_getExtent ts' key fuel us Hts')
    by (try exact Hus; exact Hrest).
  do 2 f_equal. unfold raster.
  apply flat_map_ext. intros u. apply map_ext. intros v. f_equal.
  unfold pixel_value.
  rewrite !composite_pixel_offers by (first [exact (proj1 Hts) | exact (proj1 Hts')]).
  replace (last_offer (offers NO_DATA_VALUE key_getExtent ts' key u v))
    with (last_offer (offers NO_DATA_VALUE key_getExtent ts key u v));
    [reflexivity |].
  unfold offers, ts', without. cbn [_coverages _codemaps]. rewrite Hcov, Hmap.
  rewrite !zip_with_app by (first [exact Hfront | symmetry; exact Hfront]).
  cbn [zip_with]. rewrite (offer_invalid key c m u v Hinv).
  rewrite !last_offer_app.
  change (None :: ?l) with ([None] ++ l) at 1.
  rewrite (last_offer_app [None]). cbn [last_offer fold_left].
  destruct (last_offer (zip_with _ back back_maps)); reflexivity.
Qed.

End Writes.

(** ** The provider calls of [load] *)

Section Asking.

Context {num : Numerics}.
Variable NO_DATA_VALUE : float.
Variable key_getExtent : TileKey -> GeoExtent.

Lemma ancestor_walk_asked (fetch : TileKey -> option GeoImage) (lod : nat) :
  forall x y,
    let key := mkTileKey lod x y in
    let r := (ancestor_walk fetch lod x y).1 in
    let asked := (ancestor_walk fetch lod x y).2 in
    (1 <= length asked <= S lod)%nat /\
    (forall j k, asked !! j = Some k -> nth_parent j key = Some k) /\
    (forall j k, asked !! j = Some k -> (S j < length asked)%nat ->
       fetch k = None) /\
    (exists k, last asked = Some k /\ r = fetch k).
Proof.
  induction lod as [| lod IH]; intros x y key; cbn [ancestor_walk]; fold key.
  - destruct (fetch key) as [img |] eqn:Hfetch; cbn [fst snd length].
    + split; [lia |]. split; [| split].
      * intros [| j] k Hk; [injection Hk as <-; reflexivity | discriminate].
      * intros j k _ Hj. lia.
      * exists key. split; [reflexivity | symmetry; exact Hfetch].
    + split; [lia |]. split; [| split].
      * intros [| j] k Hk; [injection Hk as <-; reflexivity | discriminate].
      * intros j k _ Hj. lia.
      * exists key. split; [reflexivity | symmetry; exact Hfetch].
  - destruct (fetch key) as [img |] eqn:Hfetch; cbn [fst snd length].
    + split; [lia |]. split; [| split].
      * intros [| j] k Hk; [injection Hk as <-; reflexivity | discriminate].
      * intros j k _ Hj. lia.
      * exists key. split; [reflexivity | symmetry; exact Hfetch].
    + specialize (IH (x / 2)%N (y / 2)%N). cbv zeta in IH.
      destruct (ancestor_walk fetch lod (x / 2)%N (y / 2)%N) as [r asked].
      cbn [fst snd length] in *.
      destruct IH as (Hlen & Hanc & Hnone & k & Hlast & Hk).
      split; [lia |]. split; [| split].
      * intros [| j] k' Hk'.
        -- injection Hk' as <-. reflexivity.
        -- rewrite nth_parent_S. apply (Hanc j k'). exact Hk'.
      * intros [| j] k' Hk' Hj.
        -- injection Hk' as <-. exact Hfetch.
        -- apply (Hnone j k'); [exact Hk' | lia].
      * exists k. split; [| exact Hk].
        destruct asked as [| a asked]; [cbn in Hlen; lia |]. exact Hlast.
Qed.

(** X9. The climb of [load] is bounded. On a fresh layer of a coverage
    that is enabled, visible and legal for the key, [load] asks the
    provider at least once and at most [LOD + 1] times; the addresses
    asked are the key, its parent, its grandparent, ... in that order;
    every address but the last yielded nothing, and the image kept is
    what the last one yielded. *)
Theorem load_asks (key : TileKey) (coverage : LandCoverCoverageLayer) :
  getEnabled coverage && getVisible coverage
  && isKeyInLegalRange coverage key = true ->
  (1 <= length (load key_getExtent key coverage ILayer_new).2
     <= S (getLOD key))%nat /\
  (forall j k, (load key_getExtent key coverage ILayer_new).2 !! j = Some k ->
     nth_parent j key = Some k) /\
  (forall j k, (load key_getExtent key coverage ILayer_new).2 !! j = Some k ->
     (S j < length (load key_getExtent key coverage ILayer_new).2)%nat ->
     layer_createImage coverage k = None) /\
  (exists k,
      last (load key_getExtent key coverage ILayer_new).2 = Some k /\
      image (load key_getExtent key coverage ILayer_new).1
      = layer_createImage coverage k).
Proof.
  intros Hguard.
  pose proof (ancestor_walk_asked (layer_createImage coverage)
                (getLOD key) (getTileX key) (getTileY key)) as Hwalk.
  cbv zeta in Hwalk.
  replace (mkTileKey (getLOD key) (getTileX key) (getTileY key)) with key
    in Hwalk by (destruct key; reflexivity).
  unfold load. rewrite Hguard. cbn [image ILayer_new].
  destruct (ancestor_walk _ _ _ _) as [[img |] asked]; cbn [fst snd image] in *;
    exact Hwalk.
Qed.

(** ** Lazy loading in the coverage loop *)

(** X10. The coverage loop loads lazily and once. For a pixel, the
    layers of the coverages above which no coverage makes an offer are
    left bound to their coverage, whether they were fresh or bound
    before; the layers below a coverage that makes an offer are left as
    they were, so that a fresh one is not loaded for this pixel; and the
    value found is the offer of the highest coverage that makes one. *)
Theorem scanLayers_lazy (ts : LandCoverTileSource) (key : TileKey)
    (u v : float) (n : nat) :
  consistent ts ->
  forall layers,
    (n <= length layers)%nat ->
    lazily_bound key_getExtent ts key layers ->
    exists layers',
      scanLayers NO_DATA_VALUE key_getExtent ts key n layers u v
      = Val (layers',
             option_map float_of_int
               (composite_pixel NO_DATA_VALUE key_getExtent ts key n u v)) /\
      (forall i coverage,
          (i < n)%nat -> _coverages ts !! i = Some coverage ->
          (forall L, (i < L < n)%nat ->
             committed_by NO_DATA_VALUE key_getExtent ts key L u v = None) ->
          layers' !! i = Some (bound key_getExtent key coverage)) /\
      (forall i L c,
          (i < L < n)%nat ->
          committed_by NO_DATA_VALUE key_getExtent ts key L u v = Some c ->
          layers' !! i = layers !! i) /\
      (forall i, (n <= i)%nat -> layers' !! i = layers !! i).
Proof.
  intros Hts. induction n as [| L IH]; intros layers Hn Hlazy.
  - exists layers. split; [reflexivity |]. split; [intros; lia |].
    split; [intros; lia | reflexivity].
  - destruct (lookup_lt_is_Some_2 layers L) as [layer Hlayer]; [lia |].
    destruct (lookup_lt_is_Some_2 (_coverages ts) L) as [coverage Hcov].
    { destruct Hlazy as [<- _]. lia. }
    (* the layers once layer [L] is bound *)
    set (layers1 := <[L := bound key_getExtent key coverage]> layers).
    assert (Hlazy1 : lazily_bound key_getExtent ts key layers1).
    { apply lazily_bound_insert; assumption. }
    assert (Hlen1 : length layers1 = length layers) by apply length_insert.
    assert (HL1 : layers1 !! L = Some (bound key_getExtent key coverage)).
    { apply list_lookup_insert_eq. lia. }
    assert (Hother : forall i, i <> L -> layers1 !! i = layers !! i).
    { intros i Hi. apply list_lookup_insert_ne. congruence. }
    (* what the loop does from there *)
    assert (Hrest :
      exists layers',
        (if valid (bound key_getExtent key coverage)
         then wrote ← sampleLayer NO_DATA_VALUE (bound key_getExtent key coverage)
                        (vec_get (_codemaps ts) L) u v;
              match wrote with
              | Some texel => Val (layers1, Some texel)
              | None => scanLayers NO_DATA_VALUE key_getExtent ts key L layers1 u v
              end
         else scanLayers NO_DATA_VALUE key_getExtent ts key L layers1 u v)
        = Val (layers',
               option_map float_of_int
                 (composite_pixel NO_DATA_VALUE key_getExtent ts key (S L) u v)) /\
        (forall i coverage0,
            (i < S L)%nat -> _coverages ts !! i = Some coverage0 ->
            (forall L', (i < L' < S L)%nat ->
               committed_by NO_DATA_VALUE key_getExtent ts key L' u v = None) ->
            layers' !! i = Some (bound key_getExtent key coverage0)) /\
        (forall i L' c,
            (i < L' < S L)%nat ->
            committed_by NO_DATA_VALUE key_getExtent ts key L' u v = Some c ->
            layers' !! i = layers1 !! i) /\
        (forall i, (S L <= i)%nat -> layers' !! i = layers1 !! i)).
    { cbn [composite_pixel].
      assert (Hgo : committed_by NO_DATA_VALUE key_getExtent ts key L u v = None ->
        exists layers',
          scanLayers NO_DATA_VALUE key_getExtent ts key L layers1 u v
          = Val (layers',
                 option_map float_of_int
                   (composite_pixel NO_DATA_VALUE key_getExtent ts key L u v)) /\
          (forall i coverage0,
              (i < S L)%nat -> _coverages ts !! i = Some coverage0 ->
              (forall L', (i < L' < S L)%nat ->
                 committed_by NO_DATA_VALUE key_getExtent ts key L' u v = None) ->
              layers' !! i = Some (bound key_getExtent key coverage0)) /\
          (forall i L' c,
              (i < L' < S L)%nat ->
              committed_by NO_DATA_VALUE key_getExtent ts key L' u v = Some c ->
              layers' !! i = layers1 !! i) /\
          (forall i, (S L <= i)%nat -> layers' !! i = layers1 !! i)).
      { intros Hnone.
        destruct (IH layers1) as (layers' & Hscan & Hbound & Hkeep & Habove);
          [lia | exact Hlazy1 |].
        exists layers'. split; [exact Hscan |]. split; [| split].
        - intros i coverage0 Hi Hc0 Hno.
          destruct (decide (i = L)) as [-> | Hne].
          + rewrite Habove by lia. congruence.
          + apply Hbound; [lia | exact Hc0 |]. intros L' HL'. apply Hno. lia.
        - intros i L' c HL' Hc.
          destruct (decide (L' = L)) as [-> | Hne]; [congruence |].
          apply (Hkeep i L' c); [lia | exact Hc].
        - intros i Hi. apply Habove. lia. }
      destruct (valid (bound key_getExtent key coverage)) eqn:Hvalid.
      - rewrite (sampleLayer_bound NO_DATA_VALUE key_getExtent ts key L coverage
                   u v Hts Hcov Hvalid).
        cbn [mbind res_bind].
        destruct (committed_by NO_DATA_VALUE key_getExtent ts key L u v)
          as [c |] eqn:Hc; cbn [option_map].
        + exists layers1. split; [reflexivity |]. split; [| split].
          * intros i coverage0 Hi Hc0 Hno.
            destruct (decide (i = L)) as [-> | Hne]; [congruence |].
            rewrite (Hno L) in Hc by lia. discriminate.
          * reflexivity.
          * reflexivity.
        + apply Hgo. reflexivity.
      - rewrite (committed_by_invalid NO_DATA_VALUE key_getExtent ts key L
                   coverage u v Hcov Hvalid).
        apply Hgo.
        apply (committed_by_invalid NO_DATA_VALUE key_getExtent ts key L
                 coverage u v Hcov Hvalid). }
    (* the loop reaches that point *)
    assert (Hstep :
      scanLayers NO_DATA_VALUE key_getExtent ts key (S L) layers u v
      = (if valid (bound key_getExtent key coverage)
         then wrote ← sampleLayer NO_DATA_VALUE (bound key_getExtent key coverage)
                        (vec_get (_codemaps ts) L) u v;
              match wrote with
              | Some texel => Val (layers1, Some texel)
              | None => scanLayers NO_DATA_VALUE key_getExtent ts key L layers1 u v
              end
         else scanLayers NO_DATA_VALUE key_getExtent ts key L layers1 u v)).
    { cbn [scanLayers]. rewrite (vec_get_lookup _ _ _ Hlayer). cbn [mbind res_bind].
      destruct Hlazy as [Hlen Hinv].
      destruct (Hinv L layer coverage Hlayer Hcov) as [-> | ->].
      - cbn [valid ILayer_new negb image].
        rewrite (vec_get_lookup _ _ _ Hcov). cbn [mbind res_bind].
        rewrite vec_set_lt by lia. cbn [mbind res_bind].
        fold (bound key_getExtent key coverage). fold layers1.
        destruct (valid (bound key_getExtent key coverage)); reflexivity.
      - assert (Hsame : layers1 = layers).
        { unfold layers1. apply list_insert_id. exact Hlayer. }
        rewrite Hsame.
        destruct (bound_cases key_getExtent key coverage)
          as [(img & Hvalid & Himage & _) | [Hvalid Himage]].
        + rewrite Hvalid, Himage. cbn [negb mbind res_bind]. rewrite Hvalid.
          reflexivity.
        + rewrite Hvalid. reflexivity. }
    rewrite Hstep.
    destruct Hrest as (layers' & Hscan & Hbound & Hkeep & Habove).
    exists layers'. split; [exact Hscan |]. split; [exact Hbound |]. split.
    + intros i L' c HL' Hc. rewrite (Hkeep i L' c HL' Hc).
      apply Hother. lia.
    + intros i Hi. rewrite Habove by exact Hi. apply Hother. lia.
Qed.

End Asking.

(** ** The two encodings of a code, in single precision *)

(** X11. In single precision the codes 1 to 254 decode to themselves
    from both encodings, [code / 255] and the code itself, and 0 decodes
    to 0; but the normalized encoding of 255 is 1.0, which is taken as
    unnormalized and decodes to 1. *)
Theorem decode_codes (code : Z) :
  decode (num := binary32) (Binary32.of_Z 0) = 0%Z /\
  decode (num := binary32) (Binary32.div (Binary32.of_Z 255) (Binary32.of_Z 255))
  = 1%Z /\
  ((1 <= code <= 254)%Z ->
   decode (num := binary32) (Binary32.div (Binary32.of_Z code) (Binary32.of_Z 255))
   = code /\
   decode (num := binary32) (Binary32.of_Z code) = code).
Proof.
  split; [reflexivity |]. split; [reflexivity |]. intros Hcode.
  pose proof decode_normalized_codes as Hall.
  rewrite forallb_forall in Hall.
  specialize (Hall code).
  assert (Hin : In code (map Z.of_nat (seq 0 255))).
  { apply in_map_iff. exists (Z.to_nat code). split; [lia |].
    apply in_seq. lia. }
  specialize (Hall Hin).
  apply andb_true_iff in Hall as [Hnorm Hraw].
  apply Z.eqb_eq in Hnorm.
  apply orb_true_iff in Hraw as [Hzero | Hraw].
  - apply Z.eqb_eq in Hzero. lia.
  - apply Z.eqb_eq in Hraw. split; assumption.
Qed.

(** ** The ancestors on a quad grid *)

Lemma nth_parent_quad (i : nat) :
  forall key A,
    nth_parent i key = Some A ->
    (i <= getLOD key)%nat /\
    A = mkTileKey (getLOD key - i)
          (getTileX key / 2 ^ N.of_nat i) (getTileY key / 2 ^ N.of_nat i).
Proof.
  induction i as [| i IH]; intros key A HA.
  - injection HA as <-. split; [lia |].
    destruct key as [l x y]. cbn [getLOD getTileX getTileY N.of_nat].
    rewrite Nat.sub_0_r, !N.div_1_r. reflexivity.
  - rewrite nth_parent_S in HA. destruct key as [[| l] x y]; [discriminate |].
    unfold createParentKey in HA. cbn [getLOD getTileX getTileY mbind option_bind] in HA.
    apply IH in HA as [Hi ->]. cbn [getLOD getTileX getTileY] in *.
    split; [lia |]. f_equal.
    + rewrite N.Div0.div_div.
      rewrite Nat2N.inj_succ, N.pow_succ_r'. reflexivity.
    + rewrite N.Div0.div_div.
      rewrite Nat2N.inj_succ, N.pow_succ_r'. reflexivity.
Qed.

(** ** The layer and its tile source *)

Section Lifecycle.

Context {num : Numerics}.

(** X14. From the options to the tables. For a layer whose tile source
    was created by [createTileSource] and initialized, and whose kept
    coverages have non-negative [int] source values, [addedToMap] with a
    dictionary in the map runs without fault, records the dictionary in
    the layer and in the tile source, and leaves in the tile source the
    enabled and opening coverages of the options, in their order, each
    with the dictionary and with the table [buildCodeMap] makes for
    it. *)
Theorem addedToMap_attaches (this : Layer.LandCoverLayer) (tilesize : Z)
    (dict : LandCoverDictionary) :
  Layer.getTileSource this
  = Some (initialize (Layer.createTileSource this tilesize)) ->
  Forall (fun coverageOptions => values_in_range (newLayer coverageOptions))
         (List.filter kept (coverages (Layer._optionsConcrete this))) ->
  exists this' ts',
    Layer.addedToMap this (Some dict) = Val this' /\
    Layer._lcDictionary this' = Some dict /\
    Layer.getTileSource this' = Some ts' /\
    _lcDictionary ts' = Some dict /\
    consistent ts' /\
    _coverages ts'
    = map (fun coverageOptions =>
             coverage_setDictionary (newLayer coverageOptions) (Some dict))
          (List.filter kept (coverages (Layer._optionsConcrete this))) /\
    forall j coverageOptions,
      List.filter kept (coverages (Layer._optionsConcrete this)) !! j
      = Some coverageOptions ->
      exists table,
        _codemaps ts' !! j = Some table /\
        buildCodeMap
          (Some (coverage_setDictionary (newLayer coverageOptions) (Some dict))) []
        = Val table.
Proof.
  intros Hsource Hvalues.
  set (ts := initialize (Layer.createTileSource this tilesize)) in *.
  destruct (fold_openCoverage_kept (coverages (Layer._optionsConcrete this))
              (LandCoverTileSource_new (Layer._optionsConcrete this) tilesize))
    as (Hcov & Hmaps & _ & _ & _).
  cbn [_coverages _codemaps LandCoverTileSource_new app] in Hcov, Hmaps.
  change (fold_left openCoverage (coverages (Layer._optionsConcrete this))
            (LandCoverTileSource_new (Layer._optionsConcrete this) tilesize))
    with ts in Hcov, Hmaps.
  destruct (initialize_tables_empty (Layer._optionsConcrete this) tilesize)
    as [Hts _].
  change (initialize (LandCoverTileSource_new (Layer._optionsConcrete this) tilesize))
    with ts in Hts.
  assert (Hrange : Forall values_in_range (_coverages ts)).
  { rewrite Hcov. apply Forall_map. exact Hvalues. }
  destruct (setDictionary_spec ts (Some dict) Hts (fun _ => Hrange))
    as (ts' & Hset & _ & _ & Hdict & Hcov' & Hts' & Htables).
  exists (Layer.mkLayer (Layer._optionsConcrete this) (Some ts') (Some dict)), ts'.
  split.
  { unfold Layer.addedToMap. rewrite Hsource, Hset. reflexivity. }
  split; [reflexivity |]. split; [reflexivity |]. split; [exact Hdict |].
  split; [exact Hts' |]. split.
  { rewrite Hcov', Hcov, map_map. reflexivity. }
  intros j coverageOptions Hj.
  apply (Htables j (newLayer coverageOptions) []).
  - rewrite Hcov, list_lookup_fmap, Hj. reflexivity.
  - rewrite Hmaps. apply lookup_replicate_2. apply lookup_lt_Some in Hj. exact Hj.
Qed.

End Lifecycle.

Lemma addedToMap_attaches_witness :
  Layer.getTileSource More.layer
  = Some (initialize (Layer.createTileSource More.layer 2)) /\
  exists this' ts',
    Layer.addedToMap More.layer (Some Single.dictionary) = Val this' /\
    Layer.getTileSource this' = Some ts' /\
    _lcDictionary ts' = Some Single.dictionary /\
    exists table,
      _codemaps ts' !! 1%nat = Some table /\
      buildCodeMap
        (Some (Single.coverage Single.one "forest" (Some Single.dictionary))) []
      = Val table.
Proof.
  split; [reflexivity |].
  destruct (addedToMap_attaches More.layer 2 Single.dictionary eq_refl)
    as (this' & ts' & Hadded & _ & Hsource & Hdict & _ & _ & Htables).
  - repeat constructor; discriminate.
  - exists this', ts'. split; [exact Hadded |]. split; [exact Hsource |].
    split; [exact Hdict |].
    exact (Htables 1%nat
             (@mkCoverageOptions binary32 true
                (Single.coverage Single.one "forest" None) true) eq_refl).
Defined.

(** ** The further properties at concrete inputs *)

Lemma three_mappings_in_range : values_in_range Single.three_mappings.
Proof. repeat constructor; discriminate. Defined.

Lemma opened_consistent (bits : option Z) (tilesize : Z)
    (low high : spec_float) :
  consistent (Single.opened bits tilesize low high).
Proof.
  split; [reflexivity |]. repeat constructor; vm_compute; discriminate.
Defined.

Lemma opened_in_range (bits : option Z) (tilesize : Z)
    (low high : spec_float) :
  Forall values_in_range (_coverages (Single.opened bits tilesize low high)).
Proof. repeat constructor; discriminate. Defined.

Lemma one_hidden_consistent : consistent More.one_hidden.
Proof.
  split; [reflexivity |]. repeat constructor; vm_compute; discriminate.
Defined.

Lemma all_hidden_consistent : consistent More.all_hidden.
Proof.
  split; [reflexivity |]. repeat constructor; vm_compute; discriminate.
Defined.

Lemma buildCodeMap_lookup_witness :
  getDictionary Single.three_mappings = Some Single.dictionary /\
  values_in_range Single.three_mappings /\
  exists table,
    buildCodeMap (Some Single.three_mappings) [] = Val table /\
    lookup_code table 1 = Val (Some 7%Z) /\
    lookup_code table 2 = Val (Some 99%Z) /\
    lookup_code table 3 = Val None /\
    lookup_code table (-1) = Val None /\
    lookup_code table 4 = Val None.
Proof.
  split; [reflexivity |]. split; [exact three_mappings_in_range |].
  destruct (buildCodeMap_lookup Single.three_mappings Single.dictionary []
              eq_refl three_mappings_in_range)
    as (table & Hbuild & Hset & Hnone).
  exists table. split; [exact Hbuild |].
  split; [| split; [| split; [| split]]].
  - apply (Hset [] (mkMapping 1 "forest")
             [mkMapping 3 "tundra"; mkMapping 2 "water"] 7%Z);
      [reflexivity | reflexivity |].
    intros later [<- | [<- | []]]; discriminate.
  - apply (Hset [mkMapping 1 "forest"; mkMapping 3 "tundra"]
             (mkMapping 2 "water") [] 99%Z);
      [reflexivity | reflexivity |].
    intros later [].
  - apply Hnone; [vm_compute; split; discriminate |].
    intros mapping [<- | [<- | [<- | []]]]; [discriminate | reflexivity | discriminate].
  - apply Hnone; [vm_compute; split; discriminate |].
    intros mapping [<- | [<- | [<- | []]]]; discriminate.
  - apply Hnone; [vm_compute; split; discriminate |].
    intros mapping [<- | [<- | [<- | []]]]; discriminate.
Defined.

Lemma setDictionary_attached_witness :
  consistent (Single.opened None 2 Single.one Single.one) /\
  Forall values_in_range (_coverages (Single.opened None 2 Single.one Single.one)) /\
  exists ts',
    setDictionary (Single.opened None 2 Single.one Single.one)
      (Some Single.dictionary) = Val ts' /\
    consistent ts' /\
    _lcDictionary ts' = Some Single.dictionary /\
    exists table,
      _codemaps ts' !! 1%nat = Some table /\
      buildCodeMap (Some (Single.coverage Single.one "forest" (Some Single.dictionary))) []
      = Val table.
Proof.
  split; [apply opened_consistent |]. split; [apply opened_in_range |].
  destruct (setDictionary_attached (Single.opened None 2 Single.one Single.one)
              Single.dictionary (opened_consistent _ _ _ _)
              (opened_in_range _ _ _ _))
    as (ts' & Hset & Hts' & _ & _ & Hdict & _ & Htables).
  exists ts'. split; [exact Hset |]. split; [exact Hts' |].
  split; [exact Hdict |].
  exact (Htables 1%nat (Single.coverage Single.one "forest" None) eq_refl).
Defined.

Lemma setDictionary_again_witness :
  consistent (Single.opened None 2 Single.one Single.one) /\
  Forall values_in_range (_coverages (Single.opened None 2 Single.one Single.one)) /\
  setDictionary (Single.opened None 2 Single.one Single.one)
    (Some Single.dictionary)
  = Val (Single.attached None 2 Single.one Single.one) /\
  setDictionary (Single.attached None 2 Single.one Single.one)
    (Some More.renumbered)
  = setDictionary (Single.opened None 2 Single.one Single.one)
      (Some More.renumbered) /\
  setDictionary (Single.attached None 2 Single.one Single.one)
    (Some Single.dictionary)
  = Val (Single.attached None 2 Single.one Single.one).
Proof.
  split; [apply opened_consistent |]. split; [apply opened_in_range |].
  split; [reflexivity |].
  exact (setDictionary_again (Single.opened None 2 Single.one Single.one)
           (Single.attached None 2 Single.one Single.one)
           Single.dictionary More.renumbered
           (opened_consistent _ _ _ _) (opened_in_range _ _ _ _) eq_refl).
Defined.

Lemma setDictionary_null_witness :
  consistent Single.both_mapped /\
  exists ts',
    setDictionary Single.both_mapped None = Val ts' /\
    _lcDictionary ts' = None /\
    _codemaps ts' = [[-1; 99]; [-1; 7]]%Z /\
    createImage (num := binary32) Single.NO_DATA_VALUE Single.key_getExtent
      3 ts' Single.key
    = createImage (num := binary32) Single.NO_DATA_VALUE Single.key_getExtent
        3 Single.both_mapped Single.key.
Proof.
  split; [apply attached_consistent |].
  destruct (setDictionary_null (num := binary32) Single.NO_DATA_VALUE
              Single.key_getExtent Single.both_mapped
              (attached_consistent _ _ _ _))
    as (ts' & Hset & Hdict & _ & Hmaps & Himage).
  exists ts'. split; [exact Hset |]. split; [exact Hdict |].
  split; [exact Hmaps |]. apply Himage.
Defined.

Lemma createImage_writes_witness :
  consistent Single.both_mapped /\
  _coverages Single.both_mapped <> [] /\
  steps (num := binary32) 3 (pixel_step Single.both_mapped) Single.zero
  = Some [Single.zero; Single.one] /\
  exists out,
    createImage (num := binary32) Single.NO_DATA_VALUE Single.key_getExtent
      3 Single.both_mapped Single.key = Val (Some out) /\
    map fst out
    = [(Single.zero, Single.zero); (Single.zero, Single.one);
       (Single.one, Single.zero); (Single.one, Single.one)].
Proof.
  assert (Hne : _coverages Single.both_mapped <> []) by discriminate.
  split; [apply attached_consistent |]. split; [exact Hne |].
  split; [reflexivity |].
  destruct (createImage_writes (num := binary32) Single.NO_DATA_VALUE
              Single.key_getExtent Single.both_mapped Single.key 3
              [Single.zero; Single.one]
              (attached_consistent _ _ _ _) Hne eq_refl)
    as (out & Hout & Hcoords & _).
  exists out. split; [exact Hout | exact Hcoords].
Defined.

Lemma createImage_unavailable_witness :
  consistent More.all_hidden /\
  _coverages More.all_hidden <> [] /\
  Forall (fun coverage =>
            valid (bound Single.key_getExtent Single.key coverage) = false)
         (_coverages More.all_hidden) /\
  steps (num := binary32) 3 (pixel_step More.all_hidden) Single.zero
  = Some [Single.zero; Single.one] /\
  exists out,
    createImage (num := binary32) Single.NO_DATA_VALUE Single.key_getExtent
      3 More.all_hidden Single.key = Val (Some out) /\
    length out = 4%nat /\
    forall w, In w out -> w.2 = Single.NO_DATA_VALUE.
Proof.
  assert (Hne : _coverages More.all_hidden <> []) by discriminate.
  assert (Hall : Forall (fun coverage =>
                   valid (bound Single.key_getExtent Single.key coverage) = false)
                   (_coverages More.all_hidden)).
  { repeat constructor. }
  split; [apply all_hidden_consistent |]. split; [exact Hne |].
  split; [exact Hall |]. split; [reflexivity |].
  exact (createImage_unavailable (num := binary32) Single.NO_DATA_VALUE
           Single.key_getExtent More.all_hidden Single.key 3
           [Single.zero; Single.one]
           all_hidden_consistent Hne Hall eq_refl).
Defined.

Lemma createImage_without_unavailable_witness :
  consistent More.one_hidden /\
  valid (bound Single.key_getExtent Single.key More.hidden) = false /\
  steps (num := binary32) 3 (pixel_step More.one_hidden) Single.zero
  = Some [Single.zero; Single.one] /\
  createImage (num := binary32) Single.NO_DATA_VALUE Single.key_getExtent
    3 More.one_hidden Single.key
  = createImage (num := binary32) Single.NO_DATA_VALUE Single.key_getExtent 3
      (without More.one_hidden
         [Single.coverage Single.one "water" (Some Single.dictionary)] []
         [[-1; 99]%Z] [])
      Single.key.
Proof.
  split; [apply one_hidden_consistent |]. split; [reflexivity |].
  split; [reflexivity |].
  apply (createImage_without_unavailable (num := binary32) Single.NO_DATA_VALUE
           Single.key_getExtent More.one_hidden
           [Single.coverage Single.one "water" (Some Single.dictionary)] []
           More.hidden [[-1; 99]%Z] [] [-1; 7]%Z Single.key 3
           [Single.zero; Single.one]);
    [apply one_hidden_consistent | reflexivity | reflexivity | reflexivity
    | reflexivity | discriminate | reflexivity].
Defined.

Lemma load_asks_witness :
  getEnabled (Single.coverage Single.one "water" None)
  && getVisible (Single.coverage Single.one "water" None)
  && isKeyInLegalRange (Single.coverage Single.one "water" None) Single.key
  = true /\
  (load Single.key_getExtent Single.key
     (Single.coverage Single.one "water" None) ILayer_new).2
  = [mkTileKey 2 1 3; mkTileKey 1 0 1; mkTileKey 0 0 0] /\
  exists k,
    last (load Single.key_getExtent Single.key
            (Single.coverage Single.one "water" None) ILayer_new).2 = Some k /\
    image (load Single.key_getExtent Single.key
             (Single.coverage Single.one "water" None) ILayer_new).1
    = layer_createImage (Single.coverage Single.one "water" None) k.
Proof.
  split; [reflexivity |]. split; [reflexivity |].
  exact (proj2 (proj2 (proj2
           (load_asks (num := binary32) Single.key_getExtent Single.key
              (Single.coverage Single.one "water" None) eq_refl)))).
Defined.

Lemma scanLayers_lazy_witness :
  consistent Single.both_mapped /\
  lazily_bound Single.key_getExtent Single.both_mapped Single.key
    [ILayer_new; ILayer_new] /\
  exists layers',
    scanLayers (num := binary32) Single.NO_DATA_VALUE Single.key_getExtent
      Single.both_mapped Single.key 2 [ILayer_new; ILayer_new]
      Single.zero Single.one
    = Val (layers', Some Single.seven) /\
    layers' !! 0%nat = Some ILayer_new /\
    layers' !! 1%nat
    = Some (bound Single.key_getExtent Single.key
              (Single.coverage Single.one "forest" (Some Single.dictionary))).
Proof.
  assert (Hlazy : lazily_bound Single.key_getExtent Single.both_mapped
                    Single.key [ILayer_new; ILayer_new]).
  { exact (lazily_bound_new Single.key_getExtent Single.both_mapped Single.key). }
  split; [apply attached_consistent |]. split; [exact Hlazy |].
  destruct (scanLayers_lazy (num := binary32) Single.NO_DATA_VALUE
              Single.key_getExtent Single.both_mapped Single.key
              Single.zero Single.one 2 (attached_consistent _ _ _ _)
              [ILayer_new; ILayer_new] (le_n 2) Hlazy)
    as (layers' & Hscan & Hbound & Hleft & _).
  exists layers'. split; [exact Hscan |]. split.
  - exact (Hleft 0%nat 1%nat 7%Z (conj (le_n 1) (le_n 2)) eq_refl).
  - apply (Hbound 1%nat); [exact (le_n 2) | reflexivity |].
    intros L HL. exfalso. lia.
Defined.

Lemma decode_codes_witness :
  (1 <= 100 <= 254)%Z /\
  decode (num := binary32)
    (Binary32.div (Binary32.of_Z 100) (Binary32.of_Z 255)) = 100%Z /\
  decode (num := binary32) (Binary32.of_Z 100) = 100%Z.
Proof.
  assert (H : (1 <= 100 <= 254)%Z) by lia.
  split; [exact H |].
  exact (proj2 (proj2 (decode_codes 100)) H).
Defined.

(** * The tile loops and the texels of the image *)

(** A list of fewer than [n] numbers misses a number below [n]. *)
Lemma missing_index (l : list nat) (n : nat) :
  (length l < n)%nat -> exists k, (k < n)%nat /\ ~ In k l.
Proof.
  intros Hfew.
  destruct (@List.Forall_Exists_dec _ (fun k => In k l)
              (fun k => in_dec Nat.eq_dec k l) (seq 0 n)) as [Hall | Hsome].
  - exfalso.
    assert (Hle : (length (seq 0 n) <= length l)%nat).
    { apply List.NoDup_incl_length; [apply List.seq_NoDup |].
      intros k Hk. rewrite List.Forall_forall in Hall. apply Hall. exact Hk. }
    rewrite length_seq in Hle. lia.
  - apply List.Exists_exists in Hsome as (k & Hin & Hout).
    apply in_seq in Hin. exists k. split; [lia | exact Hout].
Qed.

(** Fewer writes than texels leave a texel without a write, wherever the
    writes land. *)
Lemma fewer_writes_than_texels {A : Type} (place : A -> nat * nat)
    (out : list A) (T : nat) :
  (length out < T * T)%nat ->
  exists s t, (s < T)%nat /\ (t < T)%nat /\
    forall w, In w out -> place w <> (s, t).
Proof.
  intros Hfew.
  assert (HT : T <> 0%nat) by (intros ->; simpl in Hfew; lia).
  destruct (missing_index
              (map (fun w => ((place w).1 * T + (place w).2)%nat) out) (T * T))
    as (k & Hk & Hout); [rewrite length_map; exact Hfew |].
  exists (k / T)%nat, (k mod T)%nat.
  split; [apply Nat.Div0.div_lt_upper_bound; exact Hk |].
  split; [apply Nat.mod_upper_bound; exact HT |].
  intros w Hw Heq. apply Hout.
  apply in_map_iff. exists w. split; [| exact Hw].
  rewrite Heq. cbn [fst snd].
  pose proof (Nat.div_mod_eq k T) as Hdm. lia.
Qed.

(** The ten coordinates the loops visit at a tile size of 11, all of
    them below 1.0. *)
Lemma steps_eleven (ts : @LandCoverTileSource binary32) (extra : nat) :
  getPixelsPerTile ts = 11%Z ->
  exists us,
    steps (num := binary32) (12 + extra) (pixel_step ts) Single.zero = Some us /\
    length us = 10%nat /\
    Forall (fun u => SFltb u Single.one = true) us.
Proof.
  intros Hsize.
  assert (Hsteps : exists us,
            steps (num := binary32) 12
              (Binary32.div (Binary32.of_Z 1) (Binary32.of_Z (11 - 1)))
              Single.zero = Some us /\
            length us = 10%nat /\
            forallb (fun u => SFltb u Single.one) us = true).
  { eexists. split; [vm_compute; reflexivity |]. split; reflexivity. }
  destruct Hsteps as (us & Hus & Hlen & Hbelow).
  exists us. split.
  - unfold pixel_step. rewrite Hsize.
    apply (steps_more_fuel (num := binary32) _ 12 extra). exact Hus.
  - split; [exact Hlen |].
    apply List.Forall_forall. intros u Hu.
    rewrite forallb_forall in Hbelow. apply Hbelow. exact Hu.
Qed.

(** C8 (the code at a tile size of 11, the dictionary never attached).
    The code maps are empty and every write carries the no-data texel,
    but the loops stop short of 1.0: the image of 11 x 11 texels receives
    100 writes, none of them at the coordinate 1.0, so that wherever
    [write.f] puts its values at least one texel of the image is never
    written, and so was never set to the no-data texel. *)
Theorem createImage_tables_empty_tile11 (extra : nat)
    (texel_of : spec_float -> spec_float -> nat * nat) :
  never_attached Cases.unattached11 /\
  tables_empty Cases.unattached11 /\
  getPixelsPerTile Cases.unattached11 = 11%Z /\
  exists out,
    createImage (num := binary32) Single.NO_DATA_VALUE Single.key_getExtent
      (12 + extra) Cases.unattached11 Single.key = Val (Some out) /\
    length out = 100%nat /\
    (forall w, In w out ->
       w.2 = Single.NO_DATA_VALUE /\
       SFltb w.1.1 Single.one = true /\ SFltb w.1.2 Single.one = true) /\
    exists s t, (s < 11)%nat /\ (t < 11)%nat /\
      forall w, In w out -> lands_on texel_of w <> (s, t).
Proof.
  assert (Hnever : never_attached Cases.unattached11).
  { exists (Single.options None Single.one Single.one), 11%Z. reflexivity. }
  assert (Hempty : tables_empty Cases.unattached11).
  { apply initialize_tables_empty. }
  split; [exact Hnever |]. split; [exact Hempty |]. split; [reflexivity |].
  destruct (steps_eleven Cases.unattached11 extra eq_refl)
    as (us & Hus & Hlen & Hbelow).
  assert (Hne : _coverages Cases.unattached11 <> []) by discriminate.
  exists (raster (num := binary32) Single.NO_DATA_VALUE Single.key_getExtent
            Cases.unattached11 Single.key us us).
  assert (Hcount : length (raster (num := binary32) Single.NO_DATA_VALUE
                             Single.key_getExtent Cases.unattached11
                             Single.key us us) = 100%nat).
  { rewrite length_raster, Hlen. reflexivity. }
  split.
  { apply (createImage_raster (num := binary32));
      [exact (proj1 Hempty) | exact Hne | exact Hus]. }
  split; [exact Hcount |]. split.
  - intros w Hw.
    apply elem_of_raster in Hw as (u & v & Hu & Hv & ->).
    cbn [fst snd]. split.
    + rewrite (pixel_value_no_offer (num := binary32)); [reflexivity |].
      intros L _. apply committed_by_tables_empty. exact (proj2 Hempty).
    + rewrite List.Forall_forall in Hbelow. split; apply Hbelow; assumption.
  - apply fewer_writes_than_texels. rewrite Hcount. vm_compute. lia.
Qed.

(** No coverage of [Cases.unmapped16] makes an offer, at any
    coordinate: the source value 3 is beyond both code maps. *)
Lemma unmapped16_no_offer (L : nat) (u v : spec_float) :
  committed_by (num := binary32) Single.NO_DATA_VALUE Single.key_getExtent
    Cases.unmapped16 Single.key L u v = None.
Proof.
  destruct L as [| [| L]]; [| | reflexivity];
    unfold committed_by; cbn [_coverages _codemaps Cases.unmapped16
      Single.attached lookup list_lookup];
    match goal with
    | |- context [bound ?e ?k ?c] =>
        set (B := bound e k c);
        assert (Hread : read B = Some (fun _ _ => Single.three))
          by reflexivity;
        rewrite Hread
    end;
    cbv zeta;
    match goal with
    | |- (if ?c then _ else _) = None => destruct c; reflexivity
    end.
Qed.

(** C9 (the code at a tile size of 11 with [bits] set to 16, no coverage
    making an offer anywhere). Every pair of visited coordinates receives
    a write, which carries [-32768]; but the loops stop short of 1.0 and
    the image of 11 x 11 texels receives 100 writes, so that wherever
    [write.f] puts its values at least one texel for which no coverage
    commits a value is never written. *)
Theorem createImage_nodata_tile11 (extra : nat)
    (texel_of : spec_float -> spec_float -> nat * nat) :
  bits (_options Cases.unmapped16) = Some 16%Z /\
  getPixelsPerTile Cases.unmapped16 = 11%Z /\
  (forall L u v,
     committed_by (num := binary32) Single.NO_DATA_VALUE Single.key_getExtent
       Cases.unmapped16 Single.key L u v = None) /\
  exists us out,
    steps (num := binary32) (12 + extra) (pixel_step Cases.unmapped16)
      Single.zero = Some us /\
    createImage (num := binary32) Single.NO_DATA_VALUE Single.key_getExtent
      (12 + extra) Cases.unmapped16 Single.key = Val (Some out) /\
    (forall u v, In u us -> In v us ->
       In (u, v, Binary32.of_Z (-32768)) out) /\
    (forall w, In w out -> w.2 = Binary32.of_Z (-32768)) /\
    length out = 100%nat /\
    exists s t, (s < 11)%nat /\ (t < 11)%nat /\
      forall w, In w out -> lands_on texel_of w <> (s, t).
Proof.
  split; [reflexivity |]. split; [reflexivity |].
  split; [exact unmapped16_no_offer |].
  destruct (steps_eleven Cases.unmapped16 extra eq_refl)
    as (us & Hus & Hlen & _).
  destruct (createImage_nodata (num := binary32) Single.NO_DATA_VALUE
              Single.key_getExtent Cases.unmapped16 Single.key (12 + extra) us
              (attached_consistent _ _ _ _) ltac:(discriminate) Hus)
    as (out & Hout & Hcoords & Hwritten & Hsixteen & _ & Hvalue).
  assert (Hcount : length out = 100%nat).
  { apply (f_equal (@length _)) in Hcoords.
    rewrite List.length_map, length_prod, Hlen in Hcoords. exact Hcoords. }
  pose proof (Hsixteen eq_refl) as Hnodata.
  change (float_of_int (-32768)) with (Binary32.of_Z (-32768)) in Hnodata.
  exists us, out. split; [exact Hus |]. split; [exact Hout |]. split.
  - intros u v Hu Hv. rewrite <- Hnodata.
    apply Hwritten; [exact Hu | exact Hv |].
    intros L _. apply unmapped16_no_offer.
  - split.
    + intros [[u v] texel] Hw. cbn [snd]. rewrite <- Hnodata.
      apply (Hvalue u v texel Hw). intros L _. apply unmapped16_no_offer.
    + split; [exact Hcount |].
      apply fewer_writes_than_texels. rewrite Hcount. vm_compute. lia.
Qed.

(** * The transform of a binding in the arithmetic of the code *)

Section Transform.

Context {num : Numerics}.
Variable NO_DATA_VALUE : float.
Variable key_getExtent : TileKey -> GeoExtent.


End Transform.

(** Below the root of the quad grid a provider with its only image at
    the root yields nothing. *)
Lemma at_root_first (raw : spec_float) (key : TileKey) (i j : nat)
    (A' : TileKey) :
  (j < i)%nat -> (i <= getLOD key)%nat ->
  nth_parent j key = Some A' ->
  Single.at_root raw A' = None.
Proof.
  intros Hj Hi HA'.
  apply nth_parent_quad in HA' as [_ ->].
  unfold Single.at_root. cbn [getLOD].
  destruct (getLOD key - j)%nat eqn:Hlod; [lia | reflexivity].
Qed.



(** * A binding to the tile's own image, in single precision *)

(** A finite double divided by itself is 1.0. *)
Lemma div_self (s : bool) (m : positive) (e : Z) :
  Binary64.div (S754_finite s m e) (S754_finite s m e)
  = S754_finite false 4503599627370496 (-52).
Proof.
  assert (Hdiv : Z.div_eucl (Z.shiftl (Z.pos m) 53) (Z.pos m) = (2 ^ 53, 0)%Z).
  { destruct (Z.div_eucl (Z.shiftl (Z.pos m) 53) (Z.pos m)) as [q r] eqn:Heq.
    assert (Hq : q = (Z.shiftl (Z.pos m) 53 / Z.pos m)%Z)
      by (unfold Z.div; rewrite Heq; reflexivity).
    assert (Hr : r = (Z.shiftl (Z.pos m) 53 mod Z.pos m)%Z)
      by (unfold Z.modulo; rewrite Heq; reflexivity).
    rewrite Z.shiftl_mul_pow2 in Hq, Hr by lia.
    rewrite Z.mul_comm, Z.div_mul in Hq by lia.
    rewrite Z.mul_comm, Z.mod_mul in Hr by lia.
    subst. reflexivity. }
  unfold Binary64.div, SFdiv, SFdiv_core_binary.
  rewrite !Z.sub_diag.
  change (fexp Binary64.prec Binary64.emax 0) with (-53)%Z.
  change (Z.min (-53) 0) with (-53)%Z.
  change (0 - -53)%Z with 53%Z.
  cbv beta iota zeta.
  rewrite Hdiv.
  assert (Hloc : new_location (Z.pos m) 0 = loc_Exact).
  { unfold new_location, new_location_even, new_location_odd.
    destruct (Z.even (Z.pos m)); reflexivity. }
  rewrite Hloc.
  destruct s; reflexivity.
Qed.

(** A zero or a finite double minus itself is +0. *)
Lemma sub_self (x : spec_float) :
  Spec.finite x = true -> Binary64.sub x x = S754_zero false.
Proof.
  destruct x as [s | s | | s m e]; try discriminate; intros _.
  - destruct s; reflexivity.
  - unfold Binary64.sub, SFsub, shl_align.
    rewrite Z.min_id, !Z.sub_diag. reflexivity.
Qed.

(** The digits of a significand followed by 23 zero bits. *)
Lemma digits_shifted (m : positive) :
  Z.pos (digits2_pos (8388608 * m)) = (Z.pos (digits2_pos m) + 23)%Z.
Proof.
  assert (Hbit : forall p, Z.pos (digits2_pos p~0) = (Z.pos (digits2_pos p) + 1)%Z).
  { intros p. cbn [digits2_pos]. apply Pos2Z.inj_succ. }
  change (8388608 * m)%positive
    with (m~0~0~0~0~0~0~0~0~0~0~0~0~0~0~0~0~0~0~0~0~0~0~0)%positive.
  rewrite !Hbit. lia.
Qed.

(** 1.0 times a float is that float. *)
Lemma mul_one (u : spec_float) :
  valid_binary Binary32.prec Binary32.emax u = true ->
  Binary32.mul Single.one u = u.
Proof.
  destruct u as [s | s | | s m e]; try reflexivity.
  intros Hvalid. cbn [valid_binary] in Hvalid.
  apply andb_true_iff in Hvalid as [Hcanonical Hbound].
  unfold canonical_mantissa in Hcanonical. apply Z.eqb_eq in Hcanonical.
  change Single.one with (S754_finite false 8388608 (-23)).
  unfold Binary32.mul, SFmul, binary_round_aux. cbn [xorb].
  assert (Hfirst : shr_fexp Binary32.prec Binary32.emax
                     (Z.pos (8388608 * m)) (-23 + e) loc_Exact
                   = ({| shr_m := Z.pos m; shr_r := false; shr_s := false |}, e)).
  { unfold shr_fexp. cbn [Zdigits2]. rewrite digits_shifted.
    replace (Z.pos (digits2_pos m) + 23 + (-23 + e))%Z
      with (Z.pos (digits2_pos m) + e)%Z by lia.
    rewrite Hcanonical.
    replace (e - (-23 + e))%Z with 23%Z by lia.
    unfold shr. cbn [Pos.mul shr_record_of_loc iter_pos shr_1 orb].
    f_equal. lia. }
  rewrite Hfirst. cbn [shr_m loc_of_shr_record round_nearest_even].
  assert (Hsecond : shr_fexp Binary32.prec Binary32.emax (Z.pos m) e loc_Exact
                    = ({| shr_m := Z.pos m; shr_r := false; shr_s := false |}, e)).
  { unfold shr_fexp. cbn [Zdigits2]. rewrite Hcanonical, Z.sub_diag.
    reflexivity. }
  rewrite Hsecond. cbn [shr_m]. rewrite Hbound. reflexivity.
Qed.

(** A float plus +0 is that float, but for -0. *)
Lemma add_zero (u : spec_float) :
  u <> S754_zero true -> Binary32.add u (S754_zero false) = u.
Proof.
  destruct u as [[|] | s | | s m e]; intros Hu;
    [contradiction | reflexivity ..].
Qed.

(** X12. In single precision, when the provider yields an image for the
    requested address itself, with the extent of that address, of
    positive finite width and height, the binding is the identity:
    [scale] is 1.0, [bias] is (+0, +0) and every tile coordinate other
    than -0 is mapped to itself. *)
Theorem bound_identity (key_getExtent : TileKey -> @GeoExtent binary32)
    (key : TileKey) (coverage : @LandCoverCoverageLayer binary32)
    (img : @GeoImage binary32) (mw mh : positive) (ew eh : Z) :
  getEnabled coverage && getVisible coverage
  && isKeyInLegalRange coverage key = true ->
  layer_createImage coverage key = Some img ->
  getExtent img = key_getExtent key ->
  width (key_getExtent key) = S754_finite false mw ew ->
  height (key_getExtent key) = S754_finite false mh eh ->
  Spec.finite (xMin (key_getExtent key)) = true ->
  Spec.finite (yMin (key_getExtent key)) = true ->
  valid (bound key_getExtent key coverage) = true /\
  scale (bound key_getExtent key coverage) = Single.one /\
  bias (bound key_getExtent key coverage) = (Single.zero, Single.zero) /\
  forall u v : spec_float,
    valid_binary Binary32.prec Binary32.emax u = true ->
    valid_binary Binary32.prec Binary32.emax v = true ->
    u <> S754_zero true -> v <> S754_zero true ->
    mapped (bound key_getExtent key coverage) u v = (u, v).
Proof.
  intros Hguard Himg Hextent Hw Hh Hx Hy.
  rewrite (bound_first_yield key_getExtent key coverage 0 key img
             Hguard eq_refl Himg) by (intros j A' Hj; lia).
  rewrite Hextent. unfold mapped.
  cbn [valid scale bias fst snd float_of_double ddiv dsub fadd fmul binary32].
  rewrite (sub_self _ Hx), (sub_self _ Hy), Hw, Hh, !div_self.
  change (Binary64.to_float (S754_finite false 4503599627370496 (-52)))
    with Single.one.
  change (Binary64.to_float
            (Binary64.div (S754_zero false) (S754_finite false mw ew)))
    with (S754_zero false).
  change (Binary64.to_float
            (Binary64.div (S754_zero false) (S754_finite false mh eh)))
    with (S754_zero false).
  split; [reflexivity |]. split; [reflexivity |]. split; [reflexivity |].
  intros u v Hu Hv Hu0 Hv0.
  rewrite (mul_one u Hu), (mul_one v Hv), (add_zero u Hu0), (add_zero v Hv0).
  reflexivity.
Qed.

Lemma bound_identity_witness :
  getEnabled More.tiled && getVisible More.tiled
  && isKeyInLegalRange More.tiled Single.key = true /\
  width (Single.key_getExtent Single.key)
  = S754_finite false 4503599627370496 (-54) /\
  height (Single.key_getExtent Single.key)
  = S754_finite false 4503599627370496 (-54) /\
  scale (bound Single.key_getExtent Single.key More.tiled) = Single.one /\
  mapped (bound Single.key_getExtent Single.key More.tiled)
    Single.three_eighths Single.one
  = (Single.three_eighths, Single.one).
Proof.
  split; [reflexivity |]. split; [reflexivity |]. split; [reflexivity |].
  destruct (bound_identity Single.key_getExtent Single.key More.tiled
              (@mkGeoImage binary32 (Single.key_getExtent Single.key)
                 (fun _ _ => Single.one))
              4503599627370496 4503599627370496 (-54) (-54)
              eq_refl eq_refl eq_refl eq_refl eq_refl eq_refl eq_refl)
    as (_ & Hscale & _ & Hmapped).
  split; [exact Hscale |].
  apply Hmapped; [reflexivity | reflexivity | discriminate | discriminate].
Defined.

(** * Magnification on the quad grid, in single precision *)

Lemma equals_spec (x : spec_float) (q : Q) :
  Cases.equals x q = true -> Spec.finite x = true /\ (Spec.value x == q)%Q.
Proof.
  unfold Cases.equals. intros H. apply andb_true_iff in H as [Hfinite Hvalue].
  split; [exact Hfinite | apply Qeq_bool_iff; exact Hvalue].
Qed.

Lemma closed_forms_spec (levels lod i : nat) (x : N) :
  Cases.closed_forms levels = true ->
  (lod <= levels)%nat -> (i <= lod)%nat -> (x < 2 ^ N.of_nat lod)%N ->
  Cases.closed_scale lod i = true /\ Cases.closed_bias lod i x = true.
Proof.
  unfold Cases.closed_forms. intros Hall Hlod Hi Hx.
  rewrite forallb_forall in Hall.
  specialize (Hall lod ltac:(apply in_seq; lia)).
  rewrite forallb_forall in Hall.
  specialize (Hall i ltac:(apply in_seq; lia)).
  apply andb_true_iff in Hall as [Hscale Hbias].
  split; [exact Hscale |].
  rewrite forallb_forall in Hbias.
  rewrite <- (N2Nat.id x). apply Hbias. apply in_seq.
  assert (Hpow : N.of_nat (2 ^ lod) = (2 ^ N.of_nat lod)%N)
    by (rewrite Nat2N.inj_pow; reflexivity).
  lia.
Qed.

Lemma closed_forms_eight : Cases.closed_forms 8 = true.
Proof. vm_compute. reflexivity. Qed.

(** X13. On the quad grid over the unit square, in single precision: for
    every tile of the levels 0 to 8 whose first image comes from its
    [i]-th ancestor, with that ancestor's extent, [scale] is exactly
    [1 / 2^i] and [bias] is exactly the position of the tile within the
    ancestor, [(x mod 2^i) / 2^i] and [(y mod 2^i) / 2^i]. That is not so
    at every level: for the tile in the last column of level 25 bound to
    the root, [bias.x] is 1.0 and not [(2^25 - 1) / 2^25]. *)
Theorem quad_binding :
  (forall (key A : TileKey) (i : nat)
     (coverage : @LandCoverCoverageLayer binary32) (img : @GeoImage binary32),
     (getLOD key <= 8)%nat ->
     (getTileX key < 2 ^ N.of_nat (getLOD key))%N ->
     (getTileY key < 2 ^ N.of_nat (getLOD key))%N ->
     getEnabled coverage && getVisible coverage
     && isKeyInLegalRange coverage key = true ->
     nth_parent i key = Some A ->
     layer_createImage coverage A = Some img ->
     (forall j A', (j < i)%nat -> nth_parent j key = Some A' ->
        layer_createImage coverage A' = None) ->
     getExtent img = Single.key_getExtent A ->
     (Spec.finite (scale (bound Single.key_getExtent key coverage)) = true /\
      (Spec.value (scale (bound Single.key_getExtent key coverage))
       == 1 / inject_Z (2 ^ Z.of_nat i))%Q) /\
     (Spec.finite (bias (bound Single.key_getExtent key coverage)).1 = true /\
      (Spec.value (bias (bound Single.key_getExtent key coverage)).1
       == inject_Z (Z.of_N (getTileX key) mod 2 ^ Z.of_nat i)
          / inject_Z (2 ^ Z.of_nat i))%Q) /\
     (Spec.finite (bias (bound Single.key_getExtent key coverage)).2 = true /\
      (Spec.value (bias (bound Single.key_getExtent key coverage)).2
       == inject_Z (Z.of_N (getTileY key) mod 2 ^ Z.of_nat i)
          / inject_Z (2 ^ Z.of_nat i))%Q)) /\
  nth_parent 25 Cases.last_column = Some Cases.root /\
  (bias (bound Single.key_getExtent Cases.last_column Cases.water)).1
  = Single.one.
Proof.
  split; [| split; vm_compute; reflexivity].
  intros key A i coverage img Hlod Hx Hy Hguard HA Himg Hfirst Hextent.
  rewrite (bound_first_yield Single.key_getExtent key coverage i A img
             Hguard HA Himg Hfirst).
  rewrite Hextent.
  apply nth_parent_quad in HA as [Hi ->].
  destruct key as [lod x y]. cbn [getLOD getTileX getTileY] in *.
  unfold Single.key_getExtent.
  cbn [scale bias fst snd ddiv dsub float_of_double binary32
       getLOD getTileX getTileY xMin yMin width height].
  fold (Cases.axis_scale lod i) (Cases.axis_bias lod i x)
       (Cases.axis_bias lod i y).
  destruct (closed_forms_spec 8 lod i x closed_forms_eight Hlod Hi Hx)
    as [Hscale Hbx].
  destruct (closed_forms_spec 8 lod i y closed_forms_eight Hlod Hi Hy)
    as [_ Hby].
  split; [exact (equals_spec _ _ Hscale) |].
  split; [exact (equals_spec _ _ Hbx) | exact (equals_spec _ _ Hby)].
Qed.

Lemma quad_binding_witness :
  (getLOD Single.key <= 8)%nat /\
  (getTileX Single.key < 2 ^ N.of_nat (getLOD Single.key))%N /\
  (getTileY Single.key < 2 ^ N.of_nat (getLOD Single.key))%N /\
  nth_parent 2 Single.key = Some Cases.root /\
  (Spec.value (scale (bound Single.key_getExtent Single.key Cases.water))
   == 1 # 4)%Q /\
  (Spec.value (bias (bound Single.key_getExtent Single.key Cases.water)).1
   == 1 # 4)%Q /\
  (Spec.value (bias (bound Single.key_getExtent Single.key Cases.water)).2
   == 3 # 4)%Q.
Proof.
  assert (Hlod : (getLOD Single.key <= 8)%nat) by (vm_compute; lia).
  assert (Hx : (getTileX Single.key < 2 ^ N.of_nat (getLOD Single.key))%N)
    by reflexivity.
  assert (Hy : (getTileY Single.key < 2 ^ N.of_nat (getLOD Single.key))%N)
    by reflexivity.
  split; [exact Hlod |]. split; [exact Hx |]. split; [exact Hy |].
  split; [reflexivity |].
  destruct (proj1 quad_binding Single.key Cases.root 2 Cases.water
              (@mkGeoImage binary32 (Single.key_getExtent Cases.root)
                 (fun _ _ => Single.one))
              Hlod Hx Hy eq_refl eq_refl eq_refl)
    as ((_ & Hscale) & (_ & Hbx) & (_ & Hby)).
  - intros j A' Hj HA'.
    exact (at_root_first Single.one Single.key 2 j A' Hj (le_n 2) HA').
  - reflexivity.
  - split; [rewrite Hscale; reflexivity |].
    split; [rewrite Hbx; reflexivity | rewrite Hby; reflexivity].
Defined.
